(** * gemini-to-word-equations: the token pipeline of [latexConverter.ts]

    A shallow embedding of [src/utils/latexConverter.ts]: accent
    normalisation, the [$]/[$$] segmenter, the placeholder weaver and the
    run/paragraph builder of [generateDocx], with the properties of the
    specification stated and proved over it.

    JavaScript strings are sequences of UTF-16 code units, and the regular
    expressions of the source carry no [u] flag, so they work on code
    units: a string is a [list N] here. *)

From Stdlib Require Import Ascii String.
From Stdlib Require Import List NArith Bool Arith Lia.
From Stdlib Require DecimalNat.
Import ListNotations.

Set Implicit Arguments.
Set Warnings "-register-all".

Arguments N.eqb : simpl never.
Arguments N.leb : simpl never.

(* ================================================================== *)
(** * Strings of UTF-16 code units *)
(* ================================================================== *)

Definition char := N.
Definition str := list char.

(** An ASCII literal as a JavaScript string. *)
Fixpoint lit (s : string) : str :=
  match s with
  | EmptyString => []
  | String a s' => N_of_ascii a :: lit s'
  end.

Definition chr (a : ascii) : char := N_of_ascii a.

Definition backslash : char := 92%N.
Definition lbrace : char := 123%N.
Definition rbrace : char := 125%N.
Definition dollar : char := 36%N.
Definition newline : char := 10%N.
Definition asterisk : char := 42%N.

Fixpoint str_eqb (a b : str) : bool :=
  match a, b with
  | [], [] => true
  | x :: a', y :: b' => (x =? y)%N && str_eqb a' b'
  | _, _ => false
  end.

(** [startsWith]: the rest of [s] after the prefix [p], when [s] starts
    with [p]. *)
Fixpoint strip_prefix (p s : str) : option str :=
  match p with
  | [] => Some s
  | a :: p' =>
      match s with
      | c :: s' => if (c =? a)%N then strip_prefix p' s' else None
      | [] => None
      end
  end.

(** [\s] of ECMAScript: WhiteSpace and LineTerminator code units. *)
Definition is_space (c : char) : bool :=
  ((9 <=? c) && (c <=? 13) || (c =? 32) || (c =? 160) || (c =? 5760)
   || (8192 <=? c) && (c <=? 8202) || (c =? 8232) || (c =? 8233)
   || (c =? 8239) || (c =? 8287) || (c =? 12288) || (c =? 65279))%N.

(** [[A-Za-z]] *)
Definition is_letter (c : char) : bool :=
  ((65 <=? c) && (c <=? 90) || (97 <=? c) && (c <=? 122))%N.

(** [\w]: [[A-Za-z0-9_]] *)
Definition is_word (c : char) : bool :=
  (is_letter c || (48 <=? c) && (c <=? 57) || (c =? 95))%N.

(** [.] without the [s] flag: anything but a line terminator. *)
Definition is_line_terminator (c : char) : bool :=
  ((c =? 10) || (c =? 13) || (c =? 8232) || (c =? 8233))%N.

(** [s] occurs in [t] as a contiguous substring. *)
Definition occurs (p s : str) : Prop := exists a b, s = a ++ p ++ b.

Definition suffix (t s : str) : Prop := exists p, s = p ++ t.

(** Decimal rendering of a counter, as a template literal prints it. *)
Fixpoint digits (u : Decimal.uint) : str :=
  match u with
  | Decimal.Nil => []
  | Decimal.D0 u' => 48%N :: digits u'
  | Decimal.D1 u' => 49%N :: digits u'
  | Decimal.D2 u' => 50%N :: digits u'
  | Decimal.D3 u' => 51%N :: digits u'
  | Decimal.D4 u' => 52%N :: digits u'
  | Decimal.D5 u' => 53%N :: digits u'
  | Decimal.D6 u' => 54%N :: digits u'
  | Decimal.D7 u' => 55%N :: digits u'
  | Decimal.D8 u' => 56%N :: digits u'
  | Decimal.D9 u' => 57%N :: digits u'
  end.

Definition decimal (n : nat) : str := digits (Nat.to_uint n).

(* ================================================================== *)
(** * Accent normaliser *)
(* ================================================================== *)

Definition ent (k : ascii) (v : str) : char * str := (chr k, v).

Definition hat_table : list (char * str) :=
  [ ent "A" [194]; ent "a" [226]; ent "E" [202]; ent "e" [234];
    ent "I" [206]; ent "i" [238]; ent "O" [212]; ent "o" [244];
    ent "U" [219]; ent "u" [251]; ent "Y" [374]; ent "y" [375];
    ent "W" [372]; ent "w" [373]; ent "Z" [7824]; ent "z" [7825];
    ent "C" [264]; ent "c" [265]; ent "G" [284]; ent "g" [285];
    ent "H" [292]; ent "h" [293]; ent "S" [348]; ent "s" [349] ]%N%char.

Definition bar_table : list (char * str) :=
  [ ent "A" [256]; ent "a" [257]; ent "E" [274]; ent "e" [275];
    ent "I" [298]; ent "i" [299]; ent "O" [332]; ent "o" [333];
    ent "U" [362]; ent "u" [363]; ent "Y" [562]; ent "y" [563];
    ent "x" [120; 772]; ent "X" [88; 772] ]%N%char.

Definition tilde_table : list (char * str) :=
  [ ent "A" [195]; ent "a" [227]; ent "N" [209]; ent "n" [241];
    ent "O" [213]; ent "o" [245]; ent "I" [296]; ent "i" [297];
    ent "U" [360]; ent "u" [361]; ent "Y" [7928]; ent "y" [7929];
    ent "v" [7805]; ent "V" [7804] ]%N%char.

Definition dot_table : list (char * str) :=
  [ ent "x" [7819]; ent "X" [7818]; ent "y" [7823]; ent "Y" [7822];
    ent "z" [380]; ent "Z" [379] ]%N%char.

Definition LATEX_ACCENT_MAP : list (str * list (char * str)) :=
  [ (lit "\hat", hat_table); (lit "\bar", bar_table);
    (lit "\tilde", tilde_table); (lit "\dot", dot_table) ].

(** [table[letter]] on an object literal whose keys are single letters. *)
Fixpoint lookup (table : list (char * str)) (k : char) : option str :=
  match table with
  | [] => None
  | (k', v) :: table' => if (k =? k')%N then Some v else lookup table' k
  end.

(** [macro.startsWith('\\') ? macro.slice(1) : macro] *)
Definition macroName (macro : str) : str :=
  match macro with
  | c :: rest => if (c =? backslash)%N then rest else macro
  | [] => macro
  end.

(** The pattern [\\NAME\s*\{([A-Za-z])\}] read as a matcher that walks the
    text one code unit at a time.  After the backslash it is in one of
    three situations: inside the macro name and the blanks after it
    ([AtName p], with [p] what is left of the name), just after the opening
    brace ([AtLetter]), or after the captured letter ([AtClose l]).  The
    greedy [\s*] never has to give a blank back, because what follows it is
    a brace. *)
Inductive stage : Type :=
| AtName (p : str)
| AtLetter
| AtClose (l : char).

Inductive verdict : Type :=
| Next (st : stage)
| Accept (l : char)
| Reject.

Definition step (st : stage) (c : char) : verdict :=
  match st with
  | AtName (a :: p) => if (c =? a)%N then Next (AtName p) else Reject
  | AtName [] =>
      if is_space c then Next (AtName [])
      else if (c =? lbrace)%N then Next AtLetter else Reject
  | AtLetter => if is_letter c then Next (AtClose c) else Reject
  | AtClose l => if (c =? rbrace)%N then Accept l else Reject
  end.

(** Runs the matcher; on success the captured letter and the text after
    the match. *)
Fixpoint run (st : stage) (s : str) : option (char * str) :=
  match s with
  | [] => None
  | c :: s' =>
      match step st c with
      | Next st' => run st' s'
      | Accept l => Some (l, s')
      | Reject => None
      end
  end.

(** A match of the pattern for macro [name] that starts at the head of [s]. *)
Definition match_here (name : str) (s : str) : option (char * str) :=
  match s with
  | c :: s' => if (c =? backslash)%N then run (AtName name) s' else None
  | [] => None
  end.

(** [output.replace(pattern, (match, letter) => table[letter] ?? match)]
    with the [g] flag: matches are taken left to right, the scan resumes
    after each match. [fuel] bounds the number of resumptions. *)
Fixpoint replace_macro (fuel : nat) (name : str) (table : list (char * str))
  (s : str) : str :=
  match fuel with
  | O => s
  | S fuel' =>
      match s with
      | [] => []
      | c :: tl =>
          match match_here name s with
          | Some (letter, rest) =>
              let matched := firstn (length s - length rest) s in
              (match lookup table letter with
               | Some r => r
               | None => matched
               end) ++ replace_macro fuel' name table rest
          | None => c :: replace_macro fuel' name table tl
          end
      end
  end.

Definition replace_all (name : str) (table : list (char * str)) (s : str) : str :=
  replace_macro (length s) name table s.

Definition normalizeAccentsToUnicode (text : str) : str :=
  fold_left
    (fun output entry => replace_all (macroName (fst entry)) (snd entry) output)
    LATEX_ACCENT_MAP text.

(* ================================================================== *)
(** * Segmenter *)
(* ================================================================== *)

(** The objects [tokenize] pushes: [{type: "text", id, text}] and
    [{type: "latex", id, latex, displayMode}]. *)
Inductive RawToken : Type :=
| RawText (id : str) (text : str)
| RawLatex (id : str) (latex : str) (displayMode : bool).

(** What [regex.exec] returns for
    [/\$\$([\s\S]+?)\$\$|\$([^\n$]+?)\$/g]: the text between [lastIndex]
    and [m.index], the two capture groups ([None] for [undefined]) and the
    text from the new [lastIndex] on. *)
Record RegExpMatch : Type := mkMatch {
  before : str;
  group1 : option str;
  group2 : option str;
  after : str
}.

(** The lazy [[\s\S]+?] once it holds one code unit: it grows one unit at a
    time until [$$] follows. *)
Fixpoint lazy_block (s : str) : option (str * str) :=
  match s with
  | [] => None
  | c :: s' =>
      match strip_prefix [dollar; dollar] s with
      | Some rest => Some ([], rest)
      | None =>
          match lazy_block s' with
          | Some (x, rest) => Some (c :: x, rest)
          | None => None
          end
      end
  end.

(** First alternative, [\$\$([\s\S]+?)\$\$], at the head of [s]. *)
Definition match_block (s : str) : option (str * str) :=
  match strip_prefix [dollar; dollar] s with
  | Some (c :: s') =>
      match lazy_block s' with
      | Some (x, rest) => Some (c :: x, rest)
      | None => None
      end
  | _ => None
  end.

(** [[^\n$]] *)
Definition inline_char (c : char) : bool :=
  negb ((c =? newline)%N || (c =? dollar)%N).

(** The lazy [[^\n$]+?] once it holds one code unit: it stops at the first
    [$] and fails on a newline or at the end of the text. *)
Fixpoint lazy_inline (s : str) : option (str * str) :=
  match s with
  | [] => None
  | c :: s' =>
      if (c =? dollar)%N then Some ([], s')
      else if inline_char c then
        match lazy_inline s' with
        | Some (x, rest) => Some (c :: x, rest)
        | None => None
        end
      else None
  end.

(** Second alternative, [\$([^\n$]+?)\$], at the head of [s]. *)
Definition match_inline (s : str) : option (str * str) :=
  match s with
  | d :: c :: s' =>
      if (d =? dollar)%N && inline_char c then
        match lazy_inline s' with
        | Some (x, rest) => Some (c :: x, rest)
        | None => None
        end
      else None
  | _ => None
  end.

(** [regex.exec(text)] from [lastIndex]: the leftmost position where one of
    the alternatives matches, the first alternative tried first. *)
Fixpoint regex_exec (s : str) : option RegExpMatch :=
  match s with
  | [] => None
  | c :: s' =>
      match match_block s with
      | Some (x, rest) => Some (mkMatch [] (Some x) None rest)
      | None =>
          match match_inline s with
          | Some (x, rest) => Some (mkMatch [] None (Some x) rest)
          | None =>
              match regex_exec s' with
              | Some m => Some (mkMatch (c :: before m) (group1 m) (group2 m) (after m))
              | None => None
              end
          end
      end
  end.

(** [!!m[1]] *)
Definition truthy (g : option str) : bool :=
  match g with
  | Some (_ :: _) => true
  | _ => false
  end.

(** [m[1] ?? m[2] ?? (empty string)] *)
Definition coalesce (g1 g2 : option str) : str :=
  match g1 with
  | Some x => x
  | None => match g2 with Some y => y | None => [] end
  end.

Definition text_id (i : nat) : str := lit "t-" ++ decimal i.
Definition math_id (i : nat) : str := lit "m-" ++ decimal i.

(** The [while] loop of [tokenize]; [s] is the text from [lastIndex] on and
    [i] the id counter.  Every match eats at least three code units, so the
    loop runs at most [length text] times. *)
Fixpoint tokenize_loop (fuel : nat) (i : nat) (s : str) : list RawToken :=
  match fuel with
  | O => []
  | S fuel' =>
      match regex_exec s with
      | Some m =>
          let isBlock := truthy (group1 m) in
          let content := coalesce (group1 m) (group2 m) in
          match before m with
          | [] =>
              RawLatex (math_id i) content isBlock
                :: tokenize_loop fuel' (S i) (after m)
          | _ :: _ =>
              RawText (text_id i) (before m)
                :: RawLatex (math_id (S i)) content isBlock
                :: tokenize_loop fuel' (S (S i)) (after m)
          end
      | None =>
          match s with
          | [] => []
          | _ :: _ => [RawText (text_id i) s]
          end
      end
  end.

Definition tokenize (text : str) : list RawToken :=
  tokenize_loop (S (length text)) 0 text.

Record MathToken : Type := mkMath {
  math_ident : str;
  latex : str;
  displayMode : bool;
  katexHtml : str;
  mathml : str;
  omml : str
}.

Inductive Token : Type :=
| TextToken (id : str) (text : str)
| MathTok (t : MathToken).

(** The three renderers are libraries ([katex], [temml], [mathml2omml]):
    they are parameters of the pipeline. *)
Record Renderers : Type := mkRenderers {
  katex_renderToString : str -> bool -> str;
  temml_renderToString : str -> bool -> str;
  mml2omml : str -> str
}.

Section Convert.
Variable R : Renderers.

Definition convertLatexToken (latex : str) (displayMode : bool) : str * str * str :=
  let katexHtml := katex_renderToString R latex displayMode in
  let mathml := temml_renderToString R latex displayMode in
  let omml := mml2omml R mathml in
  (katexHtml, mathml, omml).

Definition convertRaw (t : RawToken) : Token :=
  match t with
  | RawText id text => TextToken id text
  | RawLatex id l dm =>
      let latex := normalizeAccentsToUnicode l in
      let '(katexHtml, mathml, omml) := convertLatexToken latex dm in
      MathTok (mkMath id latex dm katexHtml mathml omml)
  end.

Definition tokenizeAndConvert (text : str) : list Token :=
  let normalized := normalizeAccentsToUnicode text in
  let raw := tokenize normalized in
  map convertRaw raw.
End Convert.

(** The delimited span of the input a token was cut from. *)
Definition raw_source (t : RawToken) : str :=
  match t with
  | RawText _ text => text
  | RawLatex _ l true => [dollar; dollar] ++ l ++ [dollar; dollar]
  | RawLatex _ l false => [dollar] ++ l ++ [dollar]
  end.

Definition token_source (t : Token) : str :=
  match t with
  | TextToken _ text => text
  | MathTok m =>
      if displayMode m then [dollar; dollar] ++ latex m ++ [dollar; dollar]
      else [dollar] ++ latex m ++ [dollar]
  end.

(* ================================================================== *)
(** * Markdown weaver *)
(* ================================================================== *)

Definition mathPlaceholder (id : str) : str := lit "MATHPH" ++ id ++ lit "PHMATH".

(** First occurrence of [sep] in [s]: what is before it and what is after. *)
Fixpoint find_sub (sep s : str) : option (str * str) :=
  match s with
  | [] => match sep with [] => Some ([], []) | _ :: _ => None end
  | c :: s' =>
      match strip_prefix sep s with
      | Some rest => Some ([], rest)
      | None =>
          match find_sub sep s' with
          | Some (a, rest) => Some (c :: a, rest)
          | None => None
          end
      end
  end.

Fixpoint split_loop (fuel : nat) (sep s : str) : list str :=
  match fuel with
  | O => [s]
  | S fuel' =>
      match find_sub sep s with
      | Some (a, rest) => a :: split_loop fuel' sep rest
      | None => [s]
      end
  end.

(** [s.split(sep)]; an empty separator cuts between all code units. *)
Definition split (sep s : str) : list str :=
  match sep with
  | [] => map (fun c => [c]) s
  | _ :: _ => split_loop (S (length s)) sep s
  end.

(** [parts.join(sep)] *)
Fixpoint join (sep : str) (parts : list str) : str :=
  match parts with
  | [] => []
  | p :: ps =>
      match ps with
      | [] => p
      | _ :: _ => p ++ sep ++ join sep ps
      end
  end.

(** The string handed to [marked] by the weaver. *)
Definition weaver_combined (tokens : list Token) : str :=
  concat
    (map (fun t =>
            match t with
            | TextToken _ text => text
            | MathTok m =>
                let ph := mathPlaceholder (math_ident m) in
                if displayMode m
                then [newline; newline] ++ ph ++ [newline; newline]
                else ph
            end) tokens).

Section Weaver.
(** [marked.parse] *)
Variable marked_parse : str -> str.

Definition renderMarkdownWithPlaceholders (tokens : list Token)
  (replacer : MathToken -> str) : str :=
  let combined := weaver_combined tokens in
  let html := marked_parse combined in
  fold_left
    (fun out t =>
       match t with
       | MathTok m =>
           let ph := mathPlaceholder (math_ident m) in
           let repl := replacer m in
           join repl (split ph out)
       | TextToken _ _ => out
       end) tokens html.

Definition previewReplacer (t : MathToken) : str :=
  if displayMode t then lit "<div>" ++ katexHtml t ++ lit "</div>"
  else lit "<span>" ++ katexHtml t ++ lit "</span>".

Definition wordReplacer (t : MathToken) : str :=
  if displayMode t then lit "<div>" ++ omml t ++ lit "</div>" else omml t.

Definition buildPreviewHtmlFromTokens (tokens : list Token) : str :=
  renderMarkdownWithPlaceholders tokens previewReplacer.

Definition buildWordHtmlFromTokens (tokens : list Token) : str :=
  let body := renderMarkdownWithPlaceholders tokens wordReplacer in
  lit "<!DOCTYPE html><html xmlns:m=" ++ [34%N]
    ++ lit "http://schemas.openxmlformats.org/officeDocument/2006/math"
    ++ [34%N]
    ++ lit "><head><meta charset=" ++ [34%N] ++ lit "UTF-8" ++ [34%N]
    ++ lit "></head><body>" ++ body ++ lit "</body></html>".
End Weaver.

(* ================================================================== *)
(** * Document builder *)
(* ================================================================== *)

(** The string handed to [marked.lexer] by [generateDocx]. *)
Definition docx_combined (tokens : list Token) : str :=
  concat
    (map (fun t =>
            match t with
            | TextToken _ text => text
            | MathTok m =>
                if displayMode m
                then [newline; newline] ++ mathPlaceholder (math_ident m)
                       ++ [newline; newline]
                else mathPlaceholder (math_ident m)
            end) tokens).

(** [mathMap]: [set] overwrites the entry of a key that is already there. *)
Definition MathMap := list (str * MathToken).

Fixpoint mathMap_set (m : MathMap) (k : str) (v : MathToken) : MathMap :=
  match m with
  | [] => [(k, v)]
  | (k', v') :: m' =>
      if str_eqb k k' then (k', v) :: m' else (k', v') :: mathMap_set m' k v
  end.

Fixpoint mathMap_get (m : MathMap) (k : str) : option MathToken :=
  match m with
  | [] => None
  | (k', v) :: m' => if str_eqb k k' then Some v else mathMap_get m' k
  end.

Definition build_mathMap (tokens : list Token) : MathMap :=
  fold_left
    (fun m t =>
       match t with
       | MathTok mt => mathMap_set m (math_ident mt) mt
       | TextToken _ _ => m
       end) tokens [].

(** An element of the array [splitInlineByMath] returns. *)
Inductive Part : Type :=
| PString (s : str)
| PMath (t : MathToken).

(** The lazy [.+?] of [/MATHPH(.+?)PHMATH/] once it holds one code unit. *)
Fixpoint lazy_id (s : str) : option (str * str) :=
  match s with
  | [] => None
  | c :: s' =>
      match strip_prefix (lit "PHMATH") s with
      | Some rest => Some ([], rest)
      | None =>
          if is_line_terminator c then None
          else
            match lazy_id s' with
            | Some (x, rest) => Some (c :: x, rest)
            | None => None
            end
      end
  end.

(** [/MATHPH(.+?)PHMATH/] at the head of [s]: the captured id and the rest. *)
Definition match_placeholder (s : str) : option (str * str) :=
  match strip_prefix (lit "MATHPH") s with
  | Some (c :: s') =>
      if is_line_terminator c then None
      else
        match lazy_id s' with
        | Some (x, rest) => Some (c :: x, rest)
        | None => None
        end
  | _ => None
  end.

(** [re.exec(text)] from [lastIndex]: text before the match, id, rest. *)
Fixpoint placeholder_exec (s : str) : option (str * str * str) :=
  match s with
  | [] => None
  | c :: s' =>
      match match_placeholder s with
      | Some (id, rest) => Some ([], id, rest)
      | None =>
          match placeholder_exec s' with
          | Some (pre, id, rest) => Some (c :: pre, id, rest)
          | None => None
          end
      end
  end.

Section SplitInline.
Variable mathMap : MathMap.

Fixpoint splitInlineByMath_loop (fuel : nat) (s : str) : list Part :=
  match fuel with
  | O => []
  | S fuel' =>
      match placeholder_exec s with
      | Some (pre, id, rest) =>
          (match pre with [] => [] | _ :: _ => [PString pre] end)
            ++ (match mathMap_get mathMap id with
                | Some mt => [PMath mt]
                | None => []
                end)
            ++ splitInlineByMath_loop fuel' rest
      | None =>
          match s with
          | [] => []
          | _ :: _ => [PString s]
          end
      end
  end.

Definition splitInlineByMath (text : str) : list Part :=
  splitInlineByMath_loop (S (length text)) text.
End SplitInline.

(** A child of a paragraph: [new TextRun({text, bold, italics})],
    [new TextRun({break: 1})], [new TextRun(line)] or the math object that
    [convertOmml2Math] builds from an OMML fragment. *)
Inductive Run : Type :=
| TextRun (text : str) (bold italics : bool)
| BreakRun
| PlainRun (text : str)
| MathRun (omml : str).

Record Style : Type := mkStyle { bold : bool; italics : bool }.

Definition no_style : Style := mkStyle false false.

Definition flush (buf : str) (b i : bool) : list Run :=
  match buf with
  | [] => []
  | _ :: _ => [TextRun buf b i]
  end.

(** The [while] loop of [emitStyledRuns]. *)
Fixpoint emitStyledRuns_loop (text buf : str) (b i : bool) : list Run :=
  match text with
  | [] => flush buf b i
  | c :: rest =>
      if (c =? asterisk)%N then
        match rest with
        | c2 :: rest2 =>
            if (c2 =? asterisk)%N
            then flush buf b i ++ emitStyledRuns_loop rest2 [] (negb b) i
            else flush buf b i ++ emitStyledRuns_loop rest [] b (negb i)
        | [] => flush buf b i ++ emitStyledRuns_loop rest [] b (negb i)
        end
      else emitStyledRuns_loop rest (buf ++ [c]) b i
  end.

Definition emitStyledRuns (text : str) (init : Style) : list Run :=
  emitStyledRuns_loop text [] (bold init) (italics init).

(** The word characters at the head of [s]. *)
Fixpoint word_run (s : str) : str :=
  match s with
  | c :: s' => if is_word c then c :: word_run s' else []
  | [] => []
  end.

(** [NAME\b] at the head of [s], for a name that ends in a word character. *)
Definition name_then_boundary (name s : str) : bool :=
  match strip_prefix name s with
  | Some [] => true
  | Some (c :: _) => negb (is_word c)
  | None => false
  end.

(** [/<m:(?!oMath\b|r\b|t\b|rPr\b)\w+/] at the head of [s]. *)
Definition structural_tag_here (s : str) : bool :=
  match strip_prefix (lit "<m:") s with
  | Some r =>
      negb (name_then_boundary (lit "oMath") r
            || name_then_boundary (lit "r") r
            || name_then_boundary (lit "t") r
            || name_then_boundary (lit "rPr") r)
      && match word_run r with [] => false | _ :: _ => true end
  | None => false
  end.

Fixpoint structural_tag_test (s : str) : bool :=
  match s with
  | [] => false
  | _ :: s' => structural_tag_here s || structural_tag_test s'
  end.

Definition isOmmlPlain (xml : str) : bool := negb (structural_tag_test xml).

(** The code units at the head of [s] up to the first [stop], and the rest
    from that [stop] on. *)
Fixpoint span_until (stop : char) (s : str) : str * str :=
  match s with
  | [] => ([], [])
  | c :: s' =>
      if (c =? stop)%N then ([], s)
      else let '(a, b) := span_until stop s' in (c :: a, b)
  end.

(** The pattern of [extractTextFromOmml] at the head of [s]: an opening
    [<m:t ...>] tag, the text up to the next [<], and the closing [</m:t>]
    tag; returns the text and what follows the closing tag. *)
Definition match_mt (s : str) : option (str * str) :=
  match strip_prefix (lit "<m:t") s with
  | Some r =>
      match snd (span_until 62%N r) with
      | _ :: r1 =>
          let '(body, r2) := span_until 60%N r1 in
          match strip_prefix (lit "</m:t>") r2 with
          | Some rest => Some (body, rest)
          | None => None
          end
      | [] => None
      end
  | None => None
  end.

Fixpoint mt_exec (s : str) : option (str * str) :=
  match s with
  | [] => None
  | _ :: s' =>
      match match_mt s with
      | Some r => Some r
      | None => mt_exec s'
      end
  end.

Fixpoint extractText_loop (fuel : nat) (s : str) : list str :=
  match fuel with
  | O => []
  | S fuel' =>
      match mt_exec s with
      | Some (body, rest) => body :: extractText_loop fuel' rest
      | None => []
      end
  end.

Definition extractTextFromOmml (xml : str) : str :=
  concat (extractText_loop (S (length xml)) xml).

(** ** Markdown tokens

    [marked] hands out plain objects; the builder reads their [type],
    [text], [tokens], [items], [ordered] and [depth].  A missing [text] is
    read as the empty string, a missing [depth] as [0], a missing [tokens]
    is [None]. *)
Inductive TokType : Type :=
| ty_text | ty_strong | ty_em | ty_codespan | ty_br | ty_link
| ty_heading | ty_paragraph | ty_list | ty_hr | ty_code | ty_space
| ty_other (name : string).

Inductive MdToken : Type := mkTok {
  type : TokType;
  text : str;
  tokens : option (list MdToken);
  items : list MdToken;
  ordered : bool;
  depth : nat
}.

Definition text_node (s : str) : MdToken := mkTok ty_text s None [] false 0.

(** What the builder uses of [marked]: the block lexer, and the inline
    lexer when the [Lexer] class offers one (statically as [lexInline], or
    as [inlineTokens] on an instance that could be constructed). *)
Record LexerClass : Type := mkLexerClass {
  lexInline : option (str -> list MdToken);
  inlineTokens : option (str -> list MdToken)
}.

Record Marked : Type := mkMarked {
  lexer : str -> list MdToken;
  Lexer : option LexerClass
}.

Inductive HeadingLevel : Type :=
| HEADING_1 | HEADING_2 | HEADING_3 | HEADING_4 | HEADING_5 | HEADING_6.

Record Numbering : Type := mkNumbering { reference : string; level : nat }.

Record Paragraph : Type := mkPara {
  children : list Run;
  heading : option HeadingLevel;
  numbering : option Numbering;
  thematicBreak : bool
}.

Definition headingForDepth (d : nat) : HeadingLevel :=
  match d with
  | 1 => HEADING_1
  | 2 => HEADING_2
  | 3 => HEADING_3
  | 4 => HEADING_4
  | 5 => HEADING_5
  | _ => HEADING_6
  end.

(** Runs [f] over [l] and appends the results; [None] as soon as one call
    gives [None]. *)
Fixpoint collect (A B : Type) (f : A -> option (list B)) (l : list A)
  : option (list B) :=
  match l with
  | [] => Some []
  | x :: l' =>
      match f x with
      | Some r =>
          match collect f l' with
          | Some rs => Some (r ++ rs)
          | None => None
          end
      | None => None
      end
  end.

Section Builder.
Variable M : Marked.
Variable mathMap : MathMap.

Definition blocks_fallback (s : str) : list MdToken :=
  match lexer M s with
  | b :: _ =>
      match tokens b with
      | Some ts => ts
      | None => [text_node s]
      end
  | [] => [text_node s]
  end.

Definition inlineTokensFromText (s : str) : list MdToken :=
  match Lexer M with
  | Some L =>
      match lexInline L with
      | Some f => f s
      | None =>
          match inlineTokens L with
          | Some g => g s
          | None => blocks_fallback s
          end
      end
  | None => blocks_fallback s
  end.

(** The runs one element of [splitInlineByMath]'s result contributes. *)
Definition part_runs (style : Style) (p : Part) : list Run :=
  match p with
  | PString s =>
      match s with
      | [] => []
      | _ :: _ => emitStyledRuns s style
      end
  | PMath mt =>
      if isOmmlPlain (omml mt) then
        match extractTextFromOmml (omml mt) with
        | [] => []
        | c :: t => emitStyledRuns (c :: t) style
        end
      else [MathRun (omml mt)]
  end.

(** [inlineTokensToRuns].  The [text] case re-lexes the text with the
    inline lexer and, unless that gives back a single text node, calls
    itself on what the lexer returned: nothing in the code bounds that
    recursion, so the embedding takes a bound [fuel] on the call depth
    and answers [None] when it is used up. *)
Fixpoint inlineTokensToRuns (fuel : nat) (inline : list MdToken)
  (style : Style) : option (list Run) :=
  match fuel with
  | O => None
  | S fuel' =>
      collect
        (fun it =>
           match type it with
           | ty_text =>
               let sub := inlineTokensFromText (text it) in
               match sub with
               | [s0] =>
                   match type s0 with
                   | ty_text =>
                       Some (flat_map (part_runs style)
                               (splitInlineByMath mathMap (text s0)))
                   | _ => inlineTokensToRuns fuel' sub style
                   end
               | _ => inlineTokensToRuns fuel' sub style
               end
           | ty_strong =>
               inlineTokensToRuns fuel'
                 (match tokens it with Some ts => ts | None => [] end)
                 (mkStyle true (italics style))
           | ty_em =>
               inlineTokensToRuns fuel'
                 (match tokens it with Some ts => ts | None => [] end)
                 (mkStyle (bold style) true)
           | ty_codespan =>
               Some [TextRun (text it) (bold style) (italics style)]
           | ty_br => Some [BreakRun]
           | ty_link =>
               inlineTokensToRuns fuel'
                 (match tokens it with
                  | Some ts => ts
                  | None => [text_node (text it)]
                  end) style
           | _ =>
               match tokens it with
               | Some ts => inlineTokensToRuns fuel' ts style
               | None => Some []
               end
           end) inline
  end.

(** The first token of type [list] among [ts]:
    [li.tokens.find((t) => t.type === 'list')]. *)
Fixpoint find_list (ts : list MdToken) : option MdToken :=
  match ts with
  | [] => None
  | t :: ts' =>
      match type t with
      | ty_list => Some t
      | _ => find_list ts'
      end
  end.

Definition list_numbering (ord : bool) : Numbering :=
  mkNumbering (if ord then "numbered-list" else "bullet-list")%string 0.

(** The body of the [for (const li of items)] loop of [listParas]: the
    paragraph of the item, then [listParas(sub.items, sub.ordered)] for
    the first list [sub] found among the item's own tokens.  The
    recursion goes down the token tree, so it is written on the item;
    [listParas] below is the loop over the items. *)
Fixpoint itemParas (fuel : nat) (li : MdToken) (ord : bool) {struct li}
  : option (list Paragraph) :=
  match li with
  | mkTok _ li_text li_tokens _ _ _ =>
      match inlineTokensToRuns fuel (inlineTokensFromText li_text) no_style with
      | None => None
      | Some runs =>
          let para := mkPara runs None (Some (list_numbering ord)) false in
          let nested :=
            match li_tokens with
            | Some ts =>
                (fix first_list (ts : list MdToken) : option (list Paragraph) :=
                   match ts with
                   | [] => Some []
                   | t :: ts' =>
                       match t with
                       | mkTok ty_list _ _ sub_items sub_ordered _ =>
                           (fix each (its : list MdToken) : option (list Paragraph) :=
                              match its with
                              | [] => Some []
                              | i :: its' =>
                                  match itemParas fuel i sub_ordered with
                                  | Some r =>
                                      match each its' with
                                      | Some rs => Some (r ++ rs)
                                      | None => None
                                      end
                                  | None => None
                                  end
                              end) sub_items
                       | _ => first_list ts'
                       end
                   end) ts
            | None => Some []
            end in
          match nested with
          | None => None
          | Some sub => Some (para :: sub)
          end
      end
  end.

Definition listParas (fuel : nat) (its : list MdToken) (ord : bool)
  : option (list Paragraph) :=
  collect (fun li => itemParas fuel li ord) its.

(** The inline tokens of a heading or paragraph:
    [(tk.tokens && tk.tokens.length) ? tk.tokens : inlineTokensFromText(tk.text)] *)
Definition block_inline (tk : MdToken) : list MdToken :=
  match tokens tk with
  | Some (t :: ts) => t :: ts
  | _ => inlineTokensFromText (text tk)
  end.

(** One turn of the [for (const tk of mdTokens)] loop. *)
Definition block_paragraphs (fuel : nat) (tk : MdToken) : option (list Paragraph) :=
  match type tk with
  | ty_heading =>
      match inlineTokensToRuns fuel (block_inline tk) no_style with
      | Some runs =>
          Some [mkPara runs
                  (Some (headingForDepth
                           (match depth tk with 0 => 1 | S _ => depth tk end)))
                  None false]
      | None => None
      end
  | ty_paragraph =>
      match inlineTokensToRuns fuel (block_inline tk) no_style with
      | Some runs => Some [mkPara runs None None false]
      | None => None
      end
  | ty_list => listParas fuel (items tk) (ordered tk)
  | ty_hr => Some [mkPara [] None None true]
  | ty_code =>
      Some (map (fun line => mkPara [PlainRun line] None None false)
              (split [newline] (text tk)))
  | _ => Some []
  end.
End Builder.

(** [generateDocx], up to the serialisation of the document: the paragraphs
    of its single section. *)
Definition generateDocx (M : Marked) (fuel : nat) (toks : list Token)
  : option (list Paragraph) :=
  let combined := docx_combined toks in
  let mdTokens := lexer M combined in
  let mathMap := build_mathMap toks in
  collect (block_paragraphs M mathMap fuel) mdTokens.

(* ================================================================== *)
(** * Vocabulary of the statements *)
(* ================================================================== *)

Unset Implicit Arguments.

(** A stage is well formed when what is left of the macro name is made
    of letters. *)
Definition stage_ok (st : stage) : Prop :=
  match st with
  | AtName p => forallb is_letter p = true
  | _ => True
  end.

(** What a replacement can be.  A code unit is foreign when no stage of
    the matcher accepts it.  A replacement is safe when the matcher cannot
    run through it (it starts with a foreign unit, or with a unit other
    than the closing brace followed by a foreign one), and it holds no
    backslash and no dollar. *)
Definition foreign (c : char) : bool :=
  negb (is_letter c) && negb (is_space c)
  && negb (c =? lbrace)%N && negb (c =? rbrace)%N.

Definition inertb (r : str) : bool :=
  match r with
  | c :: r' =>
      foreign c
      || (negb (c =? rbrace)%N
          && match r' with d :: _ => foreign d | [] => false end)
  | [] => false
  end.

Definition safe_output (r : str) : bool :=
  inertb r
  && forallb (fun c => negb (c =? backslash)%N && negb (c =? dollar)%N) r.

Definition table_ok (table : list (char * str)) : bool :=
  forallb (fun e => safe_output (snd e)) table.

(** No match of the pattern of macro [name] at the head of [s] whose
    letter has an entry in [table]. *)
Definition unmapped_at (name : str) (table : list (char * str)) (s : str) : Prop :=
  forall l rest, match_here name s = Some (l, rest) -> lookup table l = None.

(** No such match anywhere in [s]. *)
Definition clean (name : str) (table : list (char * str)) (s : str) : Prop :=
  forall t, suffix t s -> unmapped_at name table t.

(** No macro of the table applied to a letter it has an entry for. *)
Definition normal (s : str) : Prop :=
  clean (lit "hat") hat_table s /\ clean (lit "bar") bar_table s
  /\ clean (lit "tilde") tilde_table s /\ clean (lit "dot") dot_table s.

Definition no_dollar (s : str) : Prop := Forall (fun c => c <> dollar) s.

(** The text a match covers: the content between the delimiters of the
    alternative that matched. *)
Definition match_source (m : RegExpMatch) : str :=
  let d := if truthy (group1 m) then [dollar; dollar] else [dollar] in
  d ++ coalesce (group1 m) (group2 m) ++ d.

Definition shift (pre : str) (r : option RegExpMatch) : option RegExpMatch :=
  match r with
  | Some m => Some (mkMatch (pre ++ before m) (group1 m) (group2 m) (after m))
  | None => None
  end.

(** [tokenize]'s loop on the text [s] that is left, with the counter at
    [i]. *)
Definition tokenize_from (i : nat) (s : str) : list RawToken :=
  tokenize_loop (S (length s)) i s.

(** The text token the loop pushes, with the counter at [i], for the text
    [pend] between the last match and the next one. *)
Definition pending_text (i : nat) (pend : str) : list RawToken :=
  match pend with
  | [] => []
  | _ :: _ => [RawText (text_id i) pend]
  end.

(** [scan_reaches pre rest]: in the text [pre ++ rest] the left-to-right
    scan comes to stand at the head of [rest].  A position of [pre] where
    neither alternative of the expression matches is passed; a match that
    starts in [pre] is passed when it ends in [pre].  What is excluded is a
    match that starts in [pre] and runs on into [rest]. *)
Inductive scan_reaches : str -> str -> Prop :=
| reach_start (rest : str) : scan_reaches [] rest
| reach_skip (c : char) (p rest : str) :
    match_block (c :: p ++ rest) = None ->
    match_inline (c :: p ++ rest) = None ->
    scan_reaches p rest -> scan_reaches (c :: p) rest
| reach_match (m : RegExpMatch) (p rest : str) :
    regex_exec (match_source m ++ p ++ rest) = Some m ->
    before m = [] -> after m = p ++ rest ->
    scan_reaches p rest -> scan_reaches (match_source m ++ p) rest.

Definition ends_with_dollar (x : str) : Prop := exists x0, x = x0 ++ [dollar].

Definition inline_content (x : str) : Prop :=
  Forall (fun c => c <> newline /\ c <> dollar) x.

(** [occurs] as a test. *)
Fixpoint occursb (p s : str) : bool :=
  match s with
  | [] => match p with [] => true | _ :: _ => false end
  | _ :: s' =>
      match strip_prefix p s with
      | Some _ => true
      | None => occursb p s'
      end
  end.

(** The piece a token contributes to the combined string, as the
    specification words it: text verbatim, an inline placeholder bare, a
    block placeholder between blank lines. *)
Definition placeholder_piece (t : Token) : str :=
  match t with
  | TextToken _ text => text
  | MathTok m =>
      if displayMode m
      then [newline; newline] ++ mathPlaceholder (math_ident m)
             ++ [newline; newline]
      else mathPlaceholder (math_ident m)
  end.

Definition lt_sign : char := 60%N.

Definition gt_sign : char := 62%N.

(** A replacement wrapped in a tag: it opens with [<] and closes with [>]. *)
Definition wrapped (r mid : str) : Prop := r = [lt_sign] ++ mid ++ [gt_sign].

Definition angle_free (w : str) : Prop := ~ In lt_sign w /\ ~ In gt_sign w.

(** The replacers the property holds for: on the tokens in hand, ids
    without angle brackets, and replacements that are wrapped in a tag and
    hold no placeholder of these tokens. *)
Definition replacer_sealed (replacer : MathToken -> str) (toks : list Token) : Prop :=
  forall t, In (MathTok t) toks ->
    angle_free (math_ident t)
    /\ (exists mid, wrapped (replacer t) mid)
    /\ forall u, In (MathTok u) toks ->
         ~ occurs (mathPlaceholder (math_ident u)) (replacer t).

(** One turn of the [forEach] of the weaver. *)
Definition substitute (replacer : MathToken -> str) (out : str) (t : Token) : str :=
  match t with
  | MathTok m => join (replacer m) (split (mathPlaceholder (math_ident m)) out)
  | TextToken _ _ => out
  end.

(** [out.split(ph).join(repl)] *)
Definition split_join (ph repl out : str) : str := join repl (split ph out).

(** The text [t] holds the placeholder of no math token of [toks]. *)
Definition placeholder_free (toks : list Token) (t : str) : Prop :=
  forall v, In (MathTok v) toks ->
    ~ occurs (mathPlaceholder (math_ident v)) t.

(** [woven replacer toks done html out]: [html] is cut into texts that
    hold no placeholder of the tokens [done], with the placeholder of a
    math token of [toks] between one text and the next, and [out] is
    [html] with each of these placeholders replaced by the replacer's
    output for that token and the texts kept as they are.  With all of
    [toks] for [done], every occurrence of a placeholder in [html] that
    the cut leaves room for is one of those replaced. *)
Inductive woven (replacer : MathToken -> str) (toks done : list Token)
  : str -> str -> Prop :=
| woven_text (t : str) :
    placeholder_free done t -> woven replacer toks done t t
| woven_math (t : str) (u : MathToken) (rest out : str) :
    placeholder_free done t -> In (MathTok u) toks ->
    woven replacer toks done rest out ->
    woven replacer toks done
      (t ++ mathPlaceholder (math_ident u) ++ rest)
      (t ++ replacer u ++ out).

(** What [marked.parse] returns for one line of plain text: the line as a
    paragraph. *)
Definition one_paragraph (s : str) : str :=
  lit "<p>" ++ s ++ lit "</p>" ++ [newline].

(** An inline formula rendered as a tag around its source. *)
Definition plain_token : MathToken :=
  mkMath (lit "m-1") (lit "x") false (lit "<i>x</i>") (lit "<mi>x</mi>")
    (lit "<m:r><m:t>x</m:t></m:r>").

(** A formula whose rendering echoes its source, as the TeX annotation of a
    rendered formula does; the source spells the token's own placeholder. *)
Definition echo_token : MathToken :=
  mkMath (lit "m-0") (lit "\text{MATHPHm-0PHMATH}") false
    (lit "<annotation>\text{MATHPHm-0PHMATH}</annotation>")
    (lit "<mtext>MATHPHm-0PHMATH</mtext>")
    (lit "<m:r><m:t>MATHPHm-0PHMATH</m:t></m:r>").

Definition MATHPH : str := lit "MATHPH".

Definition PHMATH : str := lit "PHMATH".

Definition id_content (id : str) : Prop :=
  Forall (fun c => is_line_terminator c = false) id.

(** An inline lexer that finds no markup, and the blocks of a document
    with one paragraph. *)
Definition text_only_lexer : LexerClass :=
  mkLexerClass (Some (fun s => [text_node s])) None.

Definition one_block_marked (blocks : list MdToken) : Marked :=
  mkMarked (fun _ => blocks) (Some text_only_lexer).

(** The run a formula gives inside bold text: a math object, or, for a
    fragment that is only text, that text as a bold run. *)
Definition bold_formula_run (o : str) : Run :=
  if isOmmlPlain o then TextRun (extractTextFromOmml o) true false
  else MathRun o.

Definition bold_input : str := lit "**x=$1$ y**".

Definition bold_combined : str := lit "**x=MATHPHm-1PHMATH y**".

Definition bold_inner : str := lit "x=MATHPHm-1PHMATH y".

(** What [marked.lexer] gives for [bold_combined]: one paragraph holding
    one [strong] node around one text node. *)
Definition bold_blocks : list MdToken :=
  [mkTok ty_paragraph bold_combined
     (Some [mkTok ty_strong bold_inner (Some [text_node bold_inner]) [] false 0])
     [] false 0].

Definition formula_renderers : Renderers :=
  mkRenderers (fun l _ => l)
    (fun l _ => lit "<math><mn>" ++ l ++ lit "</mn></math>")
    (fun _ => lit "<m:oMath><m:r><m:t>1</m:t></m:r></m:oMath>").

(** The list found among the tokens of an item, if any. *)
Definition nested_list (li : MdToken) : option MdToken :=
  match tokens li with
  | Some ts => find_list ts
  | None => None
  end.

(** The numbering of the paragraphs of a list, as the code gives it: one
    per item, with the reference of the item's own list and level 0, each
    followed by the numbering of the items of the list nested in it. *)
Inductive list_numberings : list MdToken -> bool -> list (option Numbering) -> Prop :=
| numberings_nil ord : list_numberings [] ord []
| numberings_leaf li rest ord more :
    nested_list li = None ->
    list_numberings rest ord more ->
    list_numberings (li :: rest) ord (Some (list_numbering ord) :: more)
| numberings_nested li sub rest ord inner more :
    nested_list li = Some sub ->
    list_numberings (items sub) (ordered sub) inner ->
    list_numberings rest ord more ->
    list_numberings (li :: rest) ord
      (Some (list_numbering ord) :: inner ++ more).

Definition level_zero (p : Paragraph) : Prop :=
  exists n, numbering p = Some n /\ level n = 0.

(** The items [listParas] visits in a list: its own items and, item after
    item, those of the first list found among the item's tokens. *)
Inductive visited : list MdToken -> MdToken -> Prop :=
| visited_here (li : MdToken) (its : list MdToken) :
    In li its -> visited its li
| visited_below (li sub : MdToken) (its : list MdToken) (x : MdToken) :
    In li its -> nested_list li = Some sub ->
    visited (items sub) x -> visited its x.

(** The run expansion of the text of the item [li] returns when it may
    call itself [fuel] deep. *)
Definition item_text_returns (M : Marked) (mm : MathMap) (fuel : nat)
  (li : MdToken) : Prop :=
  inlineTokensToRuns M mm fuel (inlineTokensFromText M (text li)) no_style
  <> None.

(** What [listParas] is shown to do, for one item and for a list of items:
    when the run expansion of the text of every visited item returns at
    some depth, there is a depth from which on the paragraphs are
    returned, numbered as [list_numberings] says and all at level 0. *)
Definition item_ok (M : Marked) (mm : MathMap) (li : MdToken) : Prop :=
  (forall x, visited [li] x -> exists f, item_text_returns M mm f x) ->
  exists fuel0, forall fuel, fuel0 <= fuel -> forall ord, exists ps,
    itemParas M mm fuel li ord = Some ps
    /\ list_numberings [li] ord (map numbering ps)
    /\ Forall level_zero ps.

Definition items_ok (M : Marked) (mm : MathMap) (its : list MdToken) : Prop :=
  (forall x, visited its x -> exists f, item_text_returns M mm f x) ->
  exists fuel0, forall fuel, fuel0 <= fuel -> forall ord, exists ps,
    listParas M mm fuel its ord = Some ps
    /\ list_numberings its ord (map numbering ps)
    /\ Forall level_zero ps.

(** The list of the markdown text with an item [a] that holds the ordered
    list of one item [b]. *)
Definition nested_item : MdToken :=
  mkTok (ty_other "list_item") (lit "b") (Some [text_node (lit "b")]) [] false 0.

Definition inner_list : MdToken :=
  mkTok ty_list (lit "1. b") None [nested_item] true 0.

Definition outer_item : MdToken :=
  mkTok (ty_other "list_item") (lit "a" ++ [newline] ++ lit "1. b")
    (Some [text_node (lit "a"); inner_list]) [] false 0.

(** ** Vocabulary of the further properties *)

(** A macro applied to a letter, with blanks before the brace. *)
Definition macro_application (macro ws : str) (l : char) : str :=
  macro ++ ws ++ [lbrace; l; rbrace].

(** The number of dollar signs of a text. *)
Definition count_dollar (s : str) : nat :=
  length (filter (fun c => (c =? dollar)%N) s).

(** No replacement is longer than two code units. *)
Definition table_short (table : list (char * str)) : bool :=
  forallb (fun e => length (snd e) <=? 2) table.

Definition raw_id (t : RawToken) : str :=
  match t with
  | RawText id _ => id
  | RawLatex id _ _ => id
  end.

(** The id a token takes when the counter stands at [n]. *)
Definition counter_ok (n : nat) (t : RawToken) : Prop :=
  match t with
  | RawText id _ => id = text_id n
  | RawLatex id _ _ => id = math_id n
  end.

(** What every token of the segmenter satisfies: a text token is not
    empty and holds no math span; the source of a math token is not empty,
    that of an inline one is free of newlines and dollars, and that of a
    block one ends at the first [$$] that can close it. *)
Definition raw_wellformed (t : RawToken) : Prop :=
  match t with
  | RawText _ text => text <> [] /\ regex_exec text = None
  | RawLatex _ l true =>
      l <> [] /\ ~ occurs [dollar; dollar] (tl l ++ [dollar])
  | RawLatex _ l false => l <> [] /\ inline_content l
  end.

(** The math token that the last [set] for the key [k] stored, going
    through the tokens in order. *)
Definition latest (toks : list Token) (k : str) : option MathToken :=
  fold_left
    (fun acc t =>
       match t with
       | MathTok m => if str_eqb k (math_ident m) then Some m else acc
       | TextToken _ _ => acc
       end) toks None.

(** The text of a run, for the runs that carry text. *)
Definition run_text (r : Run) : str :=
  match r with
  | TextRun t _ _ => t
  | PlainRun t => t
  | BreakRun => []
  | MathRun _ => []
  end.

Definition is_text_run (r : Run) : Prop :=
  exists t b i, r = TextRun t b i /\ t <> [].

Definition without_asterisks (s : str) : str :=
  filter (fun c => negb (c =? asterisk)%N) s.

Definition token_id (t : Token) : str :=
  match t with
  | TextToken id _ => id
  | MathTok m => math_ident m
  end.

(** The code units of the ids of the segmenter: [t], [m], [-] and digits. *)
Definition id_unit (c : char) : bool :=
  ((c =? 116) || (c =? 109) || (c =? 45) || (48 <=? c) && (c <=? 57))%N.

(* ================================================================== *)
(** * Properties of the accent normaliser *)
(* ================================================================== *)

Example normalize_hat_a :
  normalizeAccentsToUnicode (lit "\hat{a}") = [226%N].
Proof. reflexivity. Qed.

Example normalize_bar_x :
  normalizeAccentsToUnicode (lit "y = \bar  {x} + \hat{q}\dot{z}")
  = lit "y = " ++ [120%N; 772%N] ++ lit " + \hat{q}" ++ [380%N].
Proof. reflexivity. Qed.

Section MatcherFacts.

Lemma step_ok st c st' :
  stage_ok st -> step st c = Next st' -> stage_ok st'.
Proof.
  destruct st as [[|a p]| |l]; simpl; intros Hok Hs.
  - destruct (is_space c); [inversion Hs; subst; exact Hok|].
    destruct (c =? lbrace)%N; inversion Hs; exact I.
  - destruct (c =? a)%N; inversion Hs; subst; simpl.
    apply andb_true_iff in Hok. tauto.
  - destruct (is_letter c); inversion Hs; exact I.
  - destruct (c =? rbrace)%N; inversion Hs.
Qed.

Lemma step_backslash st :
  stage_ok st -> step st backslash = Reject.
Proof.
  destruct st as [[|a p]| |l]; simpl; intros Hok; try reflexivity.
  apply andb_true_iff in Hok. destruct Hok as [Ha _].
  destruct (N.eqb_spec backslash a) as [<-|]; [discriminate Ha | reflexivity].
Qed.

(** A successful run consumes a non-empty piece of the text. *)
Lemma run_shape s : forall st l rest,
  run st s = Some (l, rest) ->
  exists b, s = b ++ rest /\ b <> [] /\
            (stage_ok st -> Forall (fun c => c <> backslash) b).
Proof.
  induction s as [|c s IH]; simpl; intros st l rest H; [discriminate|].
  destruct (step st c) as [st'|l'|] eqn:Hs; [| |discriminate].
  - destruct (IH _ _ _ H) as (b & -> & _ & Hb).
    exists (c :: b). repeat split; [discriminate|].
    intros Hok. constructor.
    + intros ->. rewrite (step_backslash _ Hok) in Hs. discriminate.
    + apply Hb. eapply step_ok; eauto.
  - inversion H; subst. exists [c]. repeat split; [discriminate|].
    intros Hok. constructor; [|constructor].
    intros ->. rewrite (step_backslash _ Hok) in Hs. discriminate.
Qed.

Lemma run_length s st l rest :
  run st s = Some (l, rest) -> length rest < length s.
Proof.
  intros H. destruct (run_shape _ _ _ _ H) as (b & -> & Hb & _).
  rewrite length_app. destruct b; [congruence | simpl; lia].
Qed.

(** The run does not look past the end of its match. *)
Lemma run_app s : forall st l rest y,
  run st s = Some (l, rest) -> run st (s ++ y) = Some (l, rest ++ y).
Proof.
  induction s as [|c s IH]; simpl; intros st l rest y H; [discriminate|].
  destruct (step st c); [auto| |discriminate].
  inversion H; subst; reflexivity.
Qed.

Lemma match_here_shape name s l rest :
  forallb is_letter name = true ->
  match_here name s = Some (l, rest) ->
  exists b, s = backslash :: b ++ rest /\ Forall (fun c => c <> backslash) b.
Proof.
  intros Hn H. destruct s as [|c s]; simpl in H; [discriminate|].
  destruct (N.eqb_spec c backslash) as [->|]; [|discriminate].
  destruct (run_shape _ _ _ _ H) as (b & -> & _ & Hb).
  exists b. split; [reflexivity | apply Hb; exact Hn].
Qed.

Lemma match_here_length name s l rest :
  match_here name s = Some (l, rest) -> length rest < length s.
Proof.
  destruct s as [|c s]; simpl; [discriminate|].
  destruct (c =? backslash)%N; [|discriminate].
  intros H. apply run_length in H. lia.
Qed.

Lemma match_here_app name s l rest y :
  match_here name s = Some (l, rest) ->
  match_here name (s ++ y) = Some (l, rest ++ y).
Proof.
  destruct s as [|c s]; simpl; [discriminate|].
  destruct (c =? backslash)%N; [|discriminate].
  apply run_app.
Qed.

Lemma match_here_head name c s :
  c <> backslash -> match_here name (c :: s) = None.
Proof.
  intros Hc. simpl. destruct (N.eqb_spec c backslash); [contradiction | reflexivity].
Qed.

End MatcherFacts.

Section ReplaceFacts.
Variable name : str.
Variable table : list (char * str).

Lemma replace_macro_fuel : forall f1 f2 s,
  length s <= f1 -> length s <= f2 ->
  replace_macro f1 name table s = replace_macro f2 name table s.
Proof.
  induction f1 as [|f1 IH]; intros f2 s H1 H2.
  - destruct s; [|simpl in H1; lia]. destruct f2; reflexivity.
  - destruct f2 as [|f2].
    + destruct s; [reflexivity | simpl in H2; lia].
    + cbn [replace_macro]. destruct s as [|c tl]; [reflexivity|].
      destruct (match_here name (c :: tl)) as [[l rest]|] eqn:Hm.
      * pose proof (match_here_length _ _ _ _ Hm). f_equal.
        apply IH; simpl in *; lia.
      * f_equal. apply IH; simpl in *; lia.
Qed.

Lemma replace_all_nil : replace_all name table [] = [].
Proof. reflexivity. Qed.

Lemma replace_all_miss c tl :
  match_here name (c :: tl) = None ->
  replace_all name table (c :: tl) = c :: replace_all name table tl.
Proof.
  intros Hm. unfold replace_all. cbn [length replace_macro]. rewrite Hm.
  reflexivity.
Qed.

Lemma replace_all_hit s l rest :
  match_here name s = Some (l, rest) ->
  replace_all name table s =
    (match lookup table l with
     | Some r => r
     | None => firstn (length s - length rest) s
     end) ++ replace_all name table rest.
Proof.
  intros Hm. pose proof (match_here_length _ _ _ _ Hm) as Hlen.
  unfold replace_all. destruct s as [|c tl]; [discriminate|].
  cbn [length replace_macro]. rewrite Hm. f_equal.
  apply replace_macro_fuel; simpl in *; lia.
Qed.

End ReplaceFacts.

Lemma lookup_ok table l r :
  table_ok table = true -> lookup table l = Some r -> safe_output r = true.
Proof.
  unfold table_ok. induction table as [|[k v] table IH]; simpl; [discriminate|].
  intros Hok. apply andb_true_iff in Hok. destruct Hok as [Hv Ht].
  destruct (l =? k)%N; [intros H; inversion H; subst; exact Hv | auto].
Qed.

Lemma foreign_reject st c :
  stage_ok st -> foreign c = true -> step st c = Reject.
Proof.
  unfold foreign. intros Hok Hf.
  repeat (apply andb_true_iff in Hf; destruct Hf as [Hf ?]).
  apply negb_true_iff in Hf.
  destruct st as [[|a p]| |l]; simpl in *.
  - destruct (is_space c); [discriminate|].
    destruct (c =? lbrace)%N; [discriminate | reflexivity].
  - apply andb_true_iff in Hok. destruct Hok as [Ha _].
    destruct (N.eqb_spec c a) as [->|]; [congruence | reflexivity].
  - rewrite Hf. reflexivity.
  - destruct (c =? rbrace)%N; [discriminate | reflexivity].
Qed.

Lemma inert_run st r y :
  stage_ok st -> inertb r = true -> run st (r ++ y) = None.
Proof.
  intros Hok Hr. destruct r as [|c r]; [discriminate|]. simpl in *.
  apply orb_true_iff in Hr. destruct Hr as [Hc|Hr].
  - rewrite (foreign_reject _ _ Hok Hc). reflexivity.
  - apply andb_true_iff in Hr. destruct Hr as [Hc Hd].
    destruct r as [|d r]; [discriminate|].
    destruct (step st c) as [st'|l|] eqn:Hs; [| |reflexivity].
    + simpl. rewrite (foreign_reject _ _ (step_ok _ _ _ Hok Hs) Hd). reflexivity.
    + destruct st as [[|a p]| |l0]; simpl in Hs.
      * destruct (is_space c); [discriminate|].
        destruct (c =? lbrace)%N; discriminate.
      * destruct (c =? a)%N; discriminate.
      * destruct (is_letter c); discriminate.
      * apply negb_true_iff in Hc. rewrite Hc in Hs. discriminate.
Qed.

Lemma firstn_matched (a r : str) :
  firstn (length (a ++ r) - length r) (a ++ r) = a.
Proof.
  rewrite length_app, Nat.add_sub, firstn_app, Nat.sub_diag, firstn_all.
  simpl. apply app_nil_r.
Qed.

Lemma suffix_refl (s : str) : suffix s s.
Proof. exists []. reflexivity. Qed.

Lemma suffix_cons (t s : str) c : suffix t s -> suffix t (c :: s).
Proof. intros [p ->]. exists (c :: p). reflexivity. Qed.

Lemma suffix_app (t s p : str) : suffix t s -> suffix t (p ++ s).
Proof. intros [q ->]. exists (p ++ q). now rewrite app_assoc. Qed.

Lemma suffix_trans (a b c : str) : suffix a b -> suffix b c -> suffix a c.
Proof. intros Ha [q ->]. now apply suffix_app. Qed.

Lemma suffix_nil_inv (t : str) : suffix t [] -> t = [].
Proof. intros [p H]. symmetry in H. apply app_eq_nil in H. tauto. Qed.

Lemma suffix_cons_inv (t s : str) c :
  suffix t (c :: s) -> t = c :: s \/ suffix t s.
Proof.
  intros [[|x p] H]; simpl in H.
  - left. congruence.
  - right. inversion H; subst. exists p. reflexivity.
Qed.

(** A suffix of [a ++ b] is a suffix of [b], or starts inside [a]. *)
Lemma suffix_app_inv (a : str) : forall t b,
  suffix t (a ++ b) ->
  suffix t b \/ exists a1 x a2, a = a1 ++ x :: a2 /\ t = x :: a2 ++ b.
Proof.
  induction a as [|x a IH]; intros t b H; [left; exact H|].
  apply suffix_cons_inv in H. destruct H as [->|H].
  - right. exists [], x, a. split; reflexivity.
  - destruct (IH _ _ H) as [Hs|(a1 & y & a2 & -> & ->)]; [left; exact Hs|].
    right. exists (x :: a1), y, a2. split; reflexivity.
Qed.

Section OnePass.
Variable name : str.
Variable table : list (char * str).
Hypothesis name_letters : forallb is_letter name = true.
Hypothesis table_safe : table_ok table = true.

Lemma clean_suffix t s : suffix t s -> clean name table s -> clean name table t.
Proof. intros Hts Hs u Hu. apply Hs. eapply suffix_trans; eauto. Qed.

Lemma replace_all_inside b : forall rest,
  Forall (fun c => c <> backslash) b ->
  replace_all name table (b ++ rest) = b ++ replace_all name table rest.
Proof.
  induction b as [|c b IH]; intros rest Hb; [reflexivity|].
  inversion Hb; subst. simpl.
  rewrite replace_all_miss by (apply match_here_head; assumption).
  f_equal. apply IH. assumption.
Qed.

(** Where the pattern does not match, or matches a letter without entry,
    the head of the text is copied. *)
Lemma replace_all_copy c tl :
  unmapped_at name table (c :: tl) ->
  replace_all name table (c :: tl) = c :: replace_all name table tl.
Proof.
  intros Hu. destruct (match_here name (c :: tl)) as [[l rest]|] eqn:Hm.
  - rewrite (replace_all_hit _ _ _ _ _ Hm), (Hu _ _ Hm).
    destruct (match_here_shape _ _ _ _ name_letters Hm) as (b & Hs & Hb).
    inversion Hs; subst c tl.
    change (backslash :: b ++ rest) with ((backslash :: b) ++ rest).
    rewrite firstn_matched. simpl. f_equal.
    symmetry. now apply replace_all_inside.
  - now apply replace_all_miss.
Qed.

Lemma replace_all_mapped s l rest r :
  match_here name s = Some (l, rest) -> lookup table l = Some r ->
  replace_all name table s = r ++ replace_all name table rest.
Proof. intros Hm Hl. rewrite (replace_all_hit _ _ _ _ _ Hm), Hl. reflexivity. Qed.

Lemma unmapped_dec s :
  unmapped_at name table s \/
  exists l rest r, match_here name s = Some (l, rest) /\ lookup table l = Some r.
Proof.
  unfold unmapped_at.
  destruct (match_here name s) as [[l rest]|]; [|left; discriminate].
  destruct (lookup table l) as [r|] eqn:Hl.
  - right. exists l, rest, r. auto.
  - left. intros ? ? H. inversion H; subst. exact Hl.
Qed.

(** A text without mapped match is left as it is. *)
Lemma clean_fixed s : clean name table s -> replace_all name table s = s.
Proof.
  induction s as [|c s IH]; intros Hc; [reflexivity|].
  rewrite replace_all_copy by (apply Hc, suffix_refl).
  f_equal. apply IH. eapply clean_suffix; [|exact Hc].
  apply suffix_cons, suffix_refl.
Qed.

(** A run of any matcher over the output is a run over the input. *)
Lemma run_reflected : forall n s, length s <= n ->
  forall st l x, stage_ok st ->
    run st (replace_all name table s) = Some (l, x) ->
    exists rest, run st s = Some (l, rest).
Proof.
  induction n as [|n IH]; intros s Hn st l x Hok Hrun.
  - destruct s; [discriminate | simpl in Hn; lia].
  - destruct s as [|c tl]; [discriminate|].
    destruct (unmapped_dec (c :: tl)) as [Hu|(l' & rest & r & Hm & Hl)].
    + rewrite (replace_all_copy _ _ Hu) in Hrun. simpl in *.
      destruct (step st c) as [st'|l0|] eqn:Hs; [| |discriminate].
      * eapply IH; eauto; [lia | eapply step_ok; eauto].
      * inversion Hrun; subst. eauto.
    + rewrite (replace_all_mapped _ _ _ _ Hm Hl) in Hrun.
      pose proof (lookup_ok _ _ _ table_safe Hl) as Hr.
      apply andb_true_iff in Hr. destruct Hr as [Hr _].
      rewrite (inert_run _ _ _ Hok Hr) in Hrun. discriminate.
Qed.

(** A match of the pattern of any macro [name2] in the output of the
    pass sits on a match of the same pattern in the input, at a place
    where the pass copied the text. *)
Lemma match_reflected name2 :
  forallb is_letter name2 = true ->
  forall n s, length s <= n ->
  forall t l x, suffix t (replace_all name table s) ->
    match_here name2 t = Some (l, x) ->
    exists s', suffix s' s /\ unmapped_at name table s' /\
               exists rest, match_here name2 s' = Some (l, rest).
Proof.
  intros Hn2. induction n as [|n IH]; intros s Hn t l x Ht Hm.
  - destruct s; [|simpl in Hn; lia].
    apply suffix_nil_inv in Ht. subst. discriminate.
  - destruct s as [|c tl].
    { apply suffix_nil_inv in Ht. subst. discriminate. }
    destruct (unmapped_dec (c :: tl)) as [Hu|(l' & rest & r & Hm' & Hl)].
    + rewrite (replace_all_copy _ _ Hu) in Ht.
      apply suffix_cons_inv in Ht. destruct Ht as [->|Ht].
      * exists (c :: tl). split; [apply suffix_refl|]. split; [exact Hu|].
        simpl in *. destruct (c =? backslash)%N; [|discriminate].
        eapply run_reflected; eauto.
      * simpl in Hn.
        destruct (IH tl ltac:(lia) _ _ _ Ht Hm) as (s' & Hs' & Hu' & Hr).
        exists s'. split; [apply suffix_cons; exact Hs' | auto].
    + rewrite (replace_all_mapped _ _ _ _ Hm' Hl) in Ht.
      pose proof (match_here_length _ _ _ _ Hm') as Hlen.
      destruct (match_here_shape _ _ _ _ name_letters Hm') as (b & Hs & _).
      apply suffix_app_inv in Ht.
      destruct Ht as [Ht|(r1 & y & r2 & Hr & ->)].
      * simpl in Hn, Hlen.
        destruct (IH rest ltac:(lia) _ _ _ Ht Hm) as (s' & Hs' & Hu' & Hrun).
        exists s'. split; [|auto].
        eapply suffix_trans; [exact Hs'|].
        exists (backslash :: b). rewrite Hs. reflexivity.
      * pose proof (lookup_ok _ _ _ table_safe Hl) as Hsafe.
        apply andb_true_iff in Hsafe. destruct Hsafe as [_ Hall].
        rewrite forallb_forall in Hall.
        assert (Hy : In y r) by (rewrite Hr; apply in_elt).
        apply Hall in Hy. apply andb_true_iff in Hy. destruct Hy as [Hy _].
        apply negb_true_iff in Hy. simpl in Hm. rewrite Hy in Hm. discriminate.
Qed.

(** After the pass no mapped match of its own pattern is left. *)
Lemma replace_all_clean s : clean name table (replace_all name table s).
Proof.
  intros t Ht l x Hm.
  destruct (match_reflected _ name_letters _ _ (le_n (length s)) _ _ _ Ht Hm)
    as (s' & _ & Hu & rest & Hm').
  exact (Hu _ _ Hm').
Qed.

End OnePass.

(** A pass for one macro does not create a mapped match for another. *)
Lemma clean_preserved name table name2 table2 s :
  forallb is_letter name = true -> table_ok table = true ->
  forallb is_letter name2 = true ->
  clean name2 table2 s -> clean name2 table2 (replace_all name table s).
Proof.
  intros Hn Ht Hn2 Hc t Hsuf l x Hm.
  destruct (match_reflected _ _ Hn Ht _ Hn2 _ _ (le_n (length s)) _ _ _ Hsuf Hm)
    as (s' & Hs' & _ & rest & Hm').
  exact (Hc _ Hs' _ _ Hm').
Qed.

Section PassKeeps.
Variable name : str.
Variable table : list (char * str).
Hypothesis name_letters : forallb is_letter name = true.
Hypothesis table_safe : table_ok table = true.

(** A piece of a clean text is clean. *)
Lemma clean_infix a x b :
  clean name table (a ++ x ++ b) -> clean name table x.
Proof.
  intros Hc t [p ->] l rest Hm.
  apply (Hc (t ++ b)) with (rest := rest ++ b).
  - exists (a ++ p). now rewrite <- !app_assoc.
  - now apply match_here_app.
Qed.

Lemma replace_all_no_dollar : forall n s, length s <= n ->
  Forall (fun c => c <> dollar) s ->
  Forall (fun c => c <> dollar) (replace_all name table s).
Proof.
  induction n as [|n IH]; intros s Hn Hs.
  - destruct s; [constructor | simpl in Hn; lia].
  - destruct s as [|c tl]; [constructor|].
    destruct (unmapped_dec name table (c :: tl))
      as [Hu|(l & rest & r & Hm & Hl)].
    + rewrite (replace_all_copy _ _ name_letters _ _ Hu).
      inversion Hs; subst. constructor; [assumption|].
      apply IH; [simpl in Hn; lia | assumption].
    + rewrite (replace_all_mapped _ _ _ _ _ _ Hm Hl).
      pose proof (match_here_length _ _ _ _ Hm) as Hlen.
      destruct (match_here_shape _ _ _ _ name_letters Hm) as (b & Heq & _).
      apply Forall_app. split.
      * pose proof (lookup_ok _ _ _ table_safe Hl) as Hsafe.
        apply andb_true_iff in Hsafe. destruct Hsafe as [_ Hall].
        rewrite forallb_forall in Hall. apply Forall_forall.
        intros y Hy ->. apply Hall in Hy. discriminate Hy.
      * apply IH; [simpl in Hn, Hlen; lia|].
        rewrite Heq in Hs.
        change (backslash :: b ++ rest) with ((backslash :: b) ++ rest) in Hs.
        apply Forall_app in Hs. tauto.
Qed.

Lemma replace_all_nonempty s :
  s <> [] -> replace_all name table s <> [].
Proof.
  destruct s as [|c tl]; [congruence|]. intros _.
  destruct (unmapped_dec name table (c :: tl))
    as [Hu|(l & rest & r & Hm & Hl)].
  - rewrite (replace_all_copy _ _ name_letters _ _ Hu). discriminate.
  - rewrite (replace_all_mapped _ _ _ _ _ _ Hm Hl).
    pose proof (lookup_ok _ _ _ table_safe Hl) as Hsafe.
    apply andb_true_iff in Hsafe. destruct Hsafe as [Hi _].
    destruct r; [discriminate Hi | discriminate].
Qed.
End PassKeeps.

(** ** The four passes of [normalizeAccentsToUnicode] *)

Lemma normalize_unfold s :
  normalizeAccentsToUnicode s
  = replace_all (lit "dot") dot_table
      (replace_all (lit "tilde") tilde_table
         (replace_all (lit "bar") bar_table
            (replace_all (lit "hat") hat_table s))).
Proof. reflexivity. Qed.

Lemma hat_ok : table_ok hat_table = true. Proof. vm_compute. reflexivity. Qed.
Lemma bar_ok : table_ok bar_table = true. Proof. vm_compute. reflexivity. Qed.
Lemma tilde_ok : table_ok tilde_table = true. Proof. vm_compute. reflexivity. Qed.
Lemma dot_ok : table_ok dot_table = true. Proof. vm_compute. reflexivity. Qed.

Lemma hat_letters : forallb is_letter (lit "hat") = true. Proof. reflexivity. Qed.
Lemma bar_letters : forallb is_letter (lit "bar") = true. Proof. reflexivity. Qed.
Lemma tilde_letters : forallb is_letter (lit "tilde") = true. Proof. reflexivity. Qed.
Lemma dot_letters : forallb is_letter (lit "dot") = true. Proof. reflexivity. Qed.

Lemma normalize_normal s : normal (normalizeAccentsToUnicode s).
Proof.
  pose proof hat_ok; pose proof bar_ok; pose proof tilde_ok; pose proof dot_ok.
  pose proof hat_letters; pose proof bar_letters.
  pose proof tilde_letters; pose proof dot_letters.
  rewrite normalize_unfold. split; [|split; [|split]].
  - do 3 (apply clean_preserved; trivial). now apply replace_all_clean.
  - do 2 (apply clean_preserved; trivial). now apply replace_all_clean.
  - apply clean_preserved; trivial. now apply replace_all_clean.
  - now apply replace_all_clean.
Qed.

Lemma normal_fixed s : normal s -> normalizeAccentsToUnicode s = s.
Proof.
  intros (Hh & Hb & Ht & Hd). rewrite normalize_unfold.
  rewrite (clean_fixed _ _ hat_letters _ Hh).
  rewrite (clean_fixed _ _ bar_letters _ Hb).
  rewrite (clean_fixed _ _ tilde_letters _ Ht).
  apply (clean_fixed _ _ dot_letters _ Hd).
Qed.

Lemma normal_infix a x b : normal (a ++ x ++ b) -> normal x.
Proof.
  intros (Hh & Hb & Ht & Hd).
  split; [|split; [|split]]; eapply clean_infix; eauto.
Qed.

Lemma normalize_no_dollar s :
  Forall (fun c => c <> dollar) s ->
  Forall (fun c => c <> dollar) (normalizeAccentsToUnicode s).
Proof.
  intros H. rewrite normalize_unfold.
  repeat (eapply replace_all_no_dollar;
          eauto using hat_ok, bar_ok, tilde_ok, dot_ok,
            hat_letters, bar_letters, tilde_letters, dot_letters).
Qed.

Lemma normalize_nonempty s :
  s <> [] -> normalizeAccentsToUnicode s <> [].
Proof.
  intros H. rewrite normalize_unfold.
  repeat (apply replace_all_nonempty;
          auto using hat_ok, bar_ok, tilde_ok, dot_ok,
            hat_letters, bar_letters, tilde_letters, dot_letters).
Qed.

(** C9. Accent normalisation is idempotent: normalising a normalised
    string changes nothing, for every string. *)
Theorem normalize_idempotent (s : str) :
  normalizeAccentsToUnicode (normalizeAccentsToUnicode s)
  = normalizeAccentsToUnicode s.
Proof. apply normal_fixed, normalize_normal. Qed.

(* ================================================================== *)
(** * Properties of the segmenter *)
(* ================================================================== *)

Example tokenize_quadratic :
  tokenize (lit "Solve $$x = \frac{-b \pm \sqrt{b^2-4ac}}{2a}$$ for x.")
  = [RawText (lit "t-0") (lit "Solve ");
     RawLatex (lit "m-1") (lit "x = \frac{-b \pm \sqrt{b^2-4ac}}{2a}") true;
     RawText (lit "t-2") (lit " for x.")].
Proof. reflexivity. Qed.

Example tokenize_adjacent_dollars :
  tokenize (lit "$$$$") = [RawText (lit "t-0") (lit "$$$$")].
Proof. reflexivity. Qed.

Lemma strip_prefix_sound p : forall s rest,
  strip_prefix p s = Some rest -> s = p ++ rest.
Proof.
  induction p as [|a p IH]; simpl; intros s rest H; [congruence|].
  destruct s as [|c s]; [discriminate|].
  destruct (N.eqb_spec c a) as [->|]; [|discriminate].
  f_equal. auto.
Qed.

Lemma strip_prefix_app p rest : strip_prefix p (p ++ rest) = Some rest.
Proof.
  induction p as [|a p IH]; simpl; [reflexivity|].
  rewrite N.eqb_refl. exact IH.
Qed.

Lemma lazy_block_sound s : forall x rest,
  lazy_block s = Some (x, rest) -> s = x ++ [dollar; dollar] ++ rest.
Proof.
  induction s as [|c s IH]; intros x rest H; [discriminate|].
  cbn [lazy_block] in H.
  destruct (strip_prefix [dollar; dollar] (c :: s)) as [r|] eqn:Hp.
  - inversion H; subst. apply strip_prefix_sound in Hp. exact Hp.
  - destruct (lazy_block s) as [[x' r']|]; [|discriminate].
    inversion H; subst. simpl. f_equal. apply IH. reflexivity.
Qed.

Lemma match_block_sound s x rest :
  match_block s = Some (x, rest) ->
  x <> [] /\ s = [dollar; dollar] ++ x ++ [dollar; dollar] ++ rest.
Proof.
  unfold match_block. intros H.
  destruct (strip_prefix [dollar; dollar] s) as [[|c s']|] eqn:Hp;
    try discriminate.
  destruct (lazy_block s') as [[x' r']|] eqn:Hl; [|discriminate].
  inversion H; subst. split; [discriminate|].
  apply strip_prefix_sound in Hp. apply lazy_block_sound in Hl.
  subst. reflexivity.
Qed.

Lemma lazy_inline_sound s : forall x rest,
  lazy_inline s = Some (x, rest) -> s = x ++ [dollar] ++ rest.
Proof.
  induction s as [|c s IH]; intros x rest H; [discriminate|].
  cbn [lazy_inline] in H.
  destruct (N.eqb_spec c dollar) as [->|].
  - inversion H; subst. reflexivity.
  - destruct (inline_char c); [|discriminate].
    destruct (lazy_inline s) as [[x' r']|]; [|discriminate].
    inversion H; subst. simpl. f_equal. apply IH. reflexivity.
Qed.

Lemma match_inline_sound s x rest :
  match_inline s = Some (x, rest) ->
  x <> [] /\ s = [dollar] ++ x ++ [dollar] ++ rest.
Proof.
  unfold match_inline. intros H.
  destruct s as [|d [|c s']]; try discriminate.
  destruct (N.eqb_spec d dollar) as [->|]; [|discriminate].
  destruct (inline_char c); [|discriminate]. simpl in H.
  destruct (lazy_inline s') as [[x' r']|] eqn:Hl; [|discriminate].
  inversion H; subst. split; [discriminate|].
  apply lazy_inline_sound in Hl. subst. reflexivity.
Qed.

(** A match lies in the text, between what is before and after it. *)
Lemma regex_exec_sound s : forall m,
  regex_exec s = Some m -> s = before m ++ match_source m ++ after m.
Proof.
  induction s as [|c s IH]; intros m H; [discriminate|].
  cbn [regex_exec] in H.
  destruct (match_block (c :: s)) as [[x rest]|] eqn:Hb.
  - inversion H; subst. apply match_block_sound in Hb.
    destruct Hb as [Hx ->]. unfold match_source. simpl.
    destruct x; [congruence|]. simpl. now rewrite <- app_assoc.
  - destruct (match_inline (c :: s)) as [[x rest]|] eqn:Hi.
    + inversion H; subst. apply match_inline_sound in Hi.
      destruct Hi as [_ Hi]. rewrite Hi. unfold match_source. simpl.
      now rewrite <- app_assoc.
    + destruct (regex_exec s) as [m'|]; [|discriminate].
      inversion H; subst. unfold match_source. simpl. f_equal.
      apply (IH m' eq_refl).
Qed.

Lemma match_source_length m : 0 < length (match_source m).
Proof.
  unfold match_source. destruct (truthy (group1 m)); simpl; lia.
Qed.

Lemma regex_exec_length s m :
  regex_exec s = Some m -> length (after m) < length s.
Proof.
  intros H. apply regex_exec_sound in H.
  apply (f_equal (@length char)) in H. rewrite !length_app in H. pose proof (match_source_length m). lia.
Qed.

Lemma match_block_head c s : c <> dollar -> match_block (c :: s) = None.
Proof.
  intros Hc. unfold match_block. simpl.
  destruct (N.eqb_spec c dollar); [contradiction | reflexivity].
Qed.

Lemma match_inline_head c s : c <> dollar -> match_inline (c :: s) = None.
Proof.
  intros Hc. unfold match_inline. destruct s; [reflexivity|].
  destruct (N.eqb_spec c dollar); [contradiction | reflexivity].
Qed.

(** The scan walks over text without a dollar. *)
Lemma regex_exec_skip pre s :
  no_dollar pre -> regex_exec (pre ++ s) = shift pre (regex_exec s).
Proof.
  induction 1 as [|c pre Hc _ IH]; cbn [app regex_exec].
  - destruct (regex_exec s) as [[]|]; reflexivity.
  - rewrite match_block_head, match_inline_head by assumption.
    rewrite IH. destruct (regex_exec s); reflexivity.
Qed.

Lemma regex_exec_no_dollar s : no_dollar s -> regex_exec s = None.
Proof.
  intros H. rewrite <- (app_nil_r s). rewrite regex_exec_skip by assumption.
  reflexivity.
Qed.

(** ** Losslessness *)

Lemma tokenize_loop_lossless : forall fuel i s,
  length s < fuel ->
  concat (map raw_source (tokenize_loop fuel i s)) = s.
Proof.
  induction fuel as [|fuel IH]; intros i s Hf; [lia|].
  cbn [tokenize_loop].
  destruct (regex_exec s) as [m|] eqn:Hm.
  - pose proof (regex_exec_length _ _ Hm) as Hlen.
    pose proof (regex_exec_sound _ _ Hm) as Hs.
    assert (Hsrc : forall id,
      raw_source (RawLatex id (coalesce (group1 m) (group2 m)) (truthy (group1 m)))
      = match_source m).
    { intros id. unfold match_source. simpl.
      destruct (truthy (group1 m)); reflexivity. }
    destruct (before m) as [|b bs] eqn:Hb; cbn [map concat].
    + rewrite Hsrc, IH by lia. symmetry. exact Hs.
    + rewrite Hsrc, IH by lia. symmetry. exact Hs.
  - destruct s; [reflexivity|]. simpl. now rewrite app_nil_r.
Qed.

Lemma tokenize_lossless s : concat (map raw_source (tokenize s)) = s.
Proof. apply tokenize_loop_lossless. lia. Qed.

(** On a normalised text the second normalisation of the math content
    changes nothing, so conversion keeps the source of every token. *)
Lemma convert_keeps_source R raw : forall s,
  concat (map raw_source raw) = s -> normal s ->
  map token_source (map (convertRaw R) raw) = map raw_source raw.
Proof.
  induction raw as [|t raw IH]; intros s Hs Hn; [reflexivity|].
  simpl in Hs. subst s. cbn [map]. f_equal.
  - destruct t as [id text|id l dm]; [reflexivity|].
    assert (Hl : normalizeAccentsToUnicode l = l).
    { apply normal_fixed. destruct dm; simpl in Hn.
      - apply (normal_infix [dollar; dollar] l
                 ([dollar; dollar] ++ concat (map raw_source raw))).
        simpl. rewrite <- app_assoc in Hn. exact Hn.
      - apply (normal_infix [dollar] l
                 ([dollar] ++ concat (map raw_source raw))).
        simpl. rewrite <- app_assoc in Hn. exact Hn. }
    simpl. rewrite Hl. destruct dm; reflexivity.
  - apply (IH _ eq_refl).
    apply (normal_infix (raw_source t) _ []). now rewrite app_nil_r.
Qed.

(** C1. Tokenisation is ordered and lossless: the delimited sources of the
    tokens, concatenated in order, are the accent-normalised input, for the
    segmenter's raw tokens and for the converted tokens alike. *)
Theorem tokens_reconstruct_input (R : Renderers) (s : str) :
  concat (map raw_source (tokenize (normalizeAccentsToUnicode s)))
  = normalizeAccentsToUnicode s
  /\ concat (map token_source (tokenizeAndConvert R s))
     = normalizeAccentsToUnicode s.
Proof.
  split; [apply tokenize_lossless|].
  unfold tokenizeAndConvert.
  rewrite (convert_keeps_source R _ (normalizeAccentsToUnicode s)).
  - apply tokenize_lossless.
  - apply tokenize_lossless.
  - apply normalize_normal.
Qed.

(** ** Text without a dollar *)

Lemma tokenize_none s :
  regex_exec s = None ->
  tokenize s = match s with [] => [] | _ :: _ => [RawText (text_id 0) s] end.
Proof. intros H. unfold tokenize. cbn [tokenize_loop]. now rewrite H. Qed.

(** C4 (as the code has it). For an input without [$], segmentation yields
    exactly one text token, with id [t-0] and the whole accent-normalised
    input as text, when the input is not empty; for the empty input it
    yields no token at all. *)
Theorem no_dollar_single_text_token (R : Renderers) (s : str) :
  no_dollar s ->
  (s <> [] ->
   tokenizeAndConvert R s = [TextToken (lit "t-0") (normalizeAccentsToUnicode s)])
  /\ (s = [] -> tokenizeAndConvert R s = []).
Proof.
  intros Hs. split.
  - intros Hne. unfold tokenizeAndConvert.
    rewrite tokenize_none
      by (apply regex_exec_no_dollar, normalize_no_dollar, Hs).
    pose proof (normalize_nonempty s Hne) as Hn.
    destruct (normalizeAccentsToUnicode s); [congruence | reflexivity].
  - intros ->. reflexivity.
Qed.

Lemma no_dollar_single_text_token_witness :
  tokenizeAndConvert (mkRenderers (fun l _ => l) (fun l _ => l) (fun x => x))
    (lit "a \hat{a} b")
  = [TextToken (lit "t-0") (lit "a " ++ [226%N] ++ lit " b")].
Proof.
  apply (no_dollar_single_text_token _ (lit "a \hat{a} b")).
  - repeat constructor; discriminate.
  - discriminate.
Defined.

(** C4, counterexample: the empty input has no [$], and its segmentation
    is the empty sequence, not one text token. *)
Lemma empty_input_no_token :
  no_dollar (lit "") /\ tokenize (normalizeAccentsToUnicode (lit "")) = [].
Proof. split; [constructor | reflexivity]. Qed.

(** ** Well-formed spans *)

Lemma occurs_cons p c s : occurs p s -> occurs p (c :: s).
Proof. intros (a & b & ->). exists (c :: a), b. reflexivity. Qed.

Lemma lazy_block_exact x : forall post,
  ~ occurs [dollar; dollar] (x ++ [dollar]) ->
  lazy_block (x ++ dollar :: dollar :: post) = Some (x, post).
Proof.
  induction x as [|c x IH]; intros post Hno.
  - reflexivity.
  - cbn [app lazy_block].
    destruct (strip_prefix [dollar; dollar] (c :: x ++ dollar :: dollar :: post))
      as [r|] eqn:Hp.
    + exfalso. apply Hno. apply strip_prefix_sound in Hp.
      inversion Hp as [[Hc Hx]]. subst c.
      destruct x as [|d x]; simpl in Hx |- *.
      * exists [], []. reflexivity.
      * inversion Hx; subst. exists [], (x ++ [dollar]). reflexivity.
    + rewrite IH; [reflexivity|].
      intros Hocc. apply Hno. simpl. now apply occurs_cons.
Qed.

Lemma no_closer_inside c x :
  ~ occurs [dollar; dollar] (c :: x) -> ~ ends_with_dollar (c :: x) ->
  ~ occurs [dollar; dollar] (x ++ [dollar]).
Proof.
  intros Hocc Hend (a & b & Hab).
  induction b as [|y b' _] using rev_ind.
  - apply Hend. exists (c :: a).
    change (a ++ [dollar; dollar] ++ []) with (a ++ [dollar; dollar]) in Hab.
    replace (a ++ [dollar; dollar]) with ((a ++ [dollar]) ++ [dollar]) in Hab
      by (now rewrite <- app_assoc).
    apply app_inj_tail in Hab. destruct Hab as [-> _]. reflexivity.
  - apply Hocc. exists (c :: a), b'.
    replace (a ++ [dollar; dollar] ++ b' ++ [y])
      with ((a ++ [dollar; dollar] ++ b') ++ [y]) in Hab
      by (now rewrite <- !app_assoc).
    apply app_inj_tail in Hab. destruct Hab as [-> _]. reflexivity.
Qed.

Lemma match_block_exact x post :
  x <> [] -> ~ occurs [dollar; dollar] x -> ~ ends_with_dollar x ->
  match_block ([dollar; dollar] ++ x ++ [dollar; dollar] ++ post)
  = Some (x, post).
Proof.
  intros Hx Hocc Hend. destruct x as [|c x]; [congruence|].
  unfold match_block. rewrite strip_prefix_app. cbn [app].
  rewrite lazy_block_exact; [reflexivity|].
  now apply no_closer_inside with (c := c).
Qed.

Lemma inline_char_true c : c <> newline -> c <> dollar -> inline_char c = true.
Proof.
  intros Hn Hd. unfold inline_char.
  destruct (N.eqb_spec c newline); [contradiction|].
  destruct (N.eqb_spec c dollar); [contradiction | reflexivity].
Qed.

Lemma lazy_inline_exact x : forall post,
  inline_content x -> lazy_inline (x ++ dollar :: post) = Some (x, post).
Proof.
  induction x as [|c x IH]; intros post Hx.
  - reflexivity.
  - inversion Hx as [|? ? [Hn Hd] Hx']; subst. cbn [app lazy_inline].
    destruct (N.eqb_spec c dollar); [contradiction|].
    rewrite inline_char_true by assumption. now rewrite IH.
Qed.

Lemma regex_exec_block x post :
  x <> [] -> ~ occurs [dollar; dollar] x -> ~ ends_with_dollar x ->
  regex_exec ([dollar; dollar] ++ x ++ [dollar; dollar] ++ post)
  = Some (mkMatch [] (Some x) None post).
Proof.
  intros Hx Hocc Hend.
  pose proof (match_block_exact x post Hx Hocc Hend) as Hm.
  cbn [app] in *. cbn [regex_exec]. now rewrite Hm.
Qed.

Lemma regex_exec_inline x post :
  x <> [] -> inline_content x ->
  regex_exec ([dollar] ++ x ++ [dollar] ++ post)
  = Some (mkMatch [] None (Some x) post).
Proof.
  intros Hne Hx. destruct x as [|c x]; [congruence|].
  inversion Hx as [|? ? [Hn Hd] Hx']; subst.
  cbn [app regex_exec].
  assert (Hb : match_block (dollar :: c :: x ++ dollar :: post) = None).
  { unfold match_block. simpl.
    destruct (N.eqb_spec c dollar); [contradiction | reflexivity]. }
  rewrite Hb. unfold match_inline.
  rewrite (inline_char_true c Hn Hd). unfold dollar at 1. rewrite N.eqb_refl.
  simpl andb. cbv iota.
  now rewrite (lazy_inline_exact x post Hx').
Qed.

Lemma no_dollar_no_closer x : no_dollar x -> ~ occurs [dollar; dollar] x.
Proof.
  intros Hx (a & b & ->). apply Forall_app in Hx. destruct Hx as [_ Hx].
  inversion Hx; subst. congruence.
Qed.

Lemma no_dollar_not_ending x : no_dollar x -> ~ ends_with_dollar x.
Proof.
  intros Hx (x0 & ->). apply Forall_app in Hx. destruct Hx as [_ Hx].
  inversion Hx; subst. congruence.
Qed.

(** ** Openers without closer *)

Lemma lazy_inline_no_dollar x : no_dollar x -> lazy_inline x = None.
Proof.
  induction 1 as [|c x Hc _ IH]; [reflexivity|]. cbn [lazy_inline].
  destruct (N.eqb_spec c dollar); [contradiction|].
  rewrite IH. destruct (inline_char c); reflexivity.
Qed.

Lemma lazy_inline_newline x : forall rest,
  no_dollar x -> lazy_inline (x ++ newline :: rest) = None.
Proof.
  induction x as [|c x IH]; intros rest Hx; [reflexivity|].
  inversion Hx; subst. cbn [app lazy_inline].
  destruct (N.eqb_spec c dollar); [contradiction|].
  rewrite IH by assumption. destruct (inline_char c); reflexivity.
Qed.

Lemma lazy_block_no_closer x :
  ~ occurs [dollar; dollar] x -> lazy_block x = None.
Proof.
  induction x as [|c x IH]; intros Hno; [reflexivity|]. cbn [lazy_block].
  destruct (strip_prefix [dollar; dollar] (c :: x)) as [r|] eqn:Hp.
  - exfalso. apply Hno. apply strip_prefix_sound in Hp.
    exists [], r. exact Hp.
  - rewrite IH; [reflexivity|]. intros Hocc. apply Hno. now apply occurs_cons.
Qed.

Lemma match_block_no_closer x :
  ~ occurs [dollar; dollar] x -> match_block (dollar :: dollar :: x) = None.
Proof.
  intros Hno. unfold match_block.
  change (dollar :: dollar :: x) with ([dollar; dollar] ++ x).
  rewrite strip_prefix_app. destruct x as [|c x]; [reflexivity|].
  rewrite lazy_block_no_closer; [reflexivity|].
  intros Hocc. apply Hno. now apply occurs_cons.
Qed.

Lemma match_block_single c x : c <> dollar -> match_block (dollar :: c :: x) = None.
Proof.
  intros Hc. unfold match_block. simpl.
  destruct (N.eqb_spec c dollar); [contradiction | reflexivity].
Qed.

Lemma match_block_lone : match_block [dollar] = None.
Proof. reflexivity. Qed.

Lemma match_inline_dollar x : match_inline (dollar :: dollar :: x) = None.
Proof. reflexivity. Qed.

(** At a [$] that nothing closes before the end of the text. *)
Lemma regex_exec_open_end x :
  no_dollar x -> regex_exec (dollar :: x) = None.
Proof.
  intros Hx. cbn [regex_exec].
  rewrite (regex_exec_no_dollar x Hx).
  destruct x as [|c x]; [reflexivity|]. inversion Hx; subst.
  rewrite match_block_single by assumption.
  unfold match_inline. rewrite lazy_inline_no_dollar by assumption.
  destruct (_ && _); reflexivity.
Qed.

(** At a [$] whose line ends before any other [$]. *)
Lemma regex_exec_open_line x rest :
  no_dollar x ->
  regex_exec (dollar :: x ++ newline :: rest)
  = shift (dollar :: x ++ [newline]) (regex_exec rest).
Proof.
  intros Hx. cbn [regex_exec].
  assert (Hb : match_block (dollar :: x ++ newline :: rest) = None).
  { destruct x as [|c x]; [reflexivity|]. inversion Hx; subst.
    now apply match_block_single. }
  assert (Hi : match_inline (dollar :: x ++ newline :: rest) = None).
  { destruct x as [|c x]; [reflexivity|]. inversion Hx; subst.
    unfold match_inline. cbn [app].
    rewrite lazy_inline_newline by assumption.
    destruct (_ && _); reflexivity. }
  rewrite Hb, Hi.
  replace (x ++ newline :: rest) with ((x ++ [newline]) ++ rest)
    by (now rewrite <- app_assoc).
  rewrite regex_exec_skip.
  - destruct (regex_exec rest); reflexivity.
  - apply Forall_app. split; [assumption|]. repeat constructor. discriminate.
Qed.

(** At a [$$] that no later [$$] closes. *)
Lemma regex_exec_open_block x :
  ~ occurs [dollar; dollar] x ->
  regex_exec (dollar :: dollar :: x) = shift [dollar] (regex_exec (dollar :: x)).
Proof.
  intros Hno.
  change (regex_exec (dollar :: dollar :: x)) with
    (match match_block (dollar :: dollar :: x) with
     | Some (c, rest) => Some (mkMatch [] (Some c) None rest)
     | None =>
         match match_inline (dollar :: dollar :: x) with
         | Some (c, rest) => Some (mkMatch [] None (Some c) rest)
         | None =>
             match regex_exec (dollar :: x) with
             | Some m => Some (mkMatch (dollar :: before m) (group1 m) (group2 m) (after m))
             | None => None
             end
         end
     end).
  rewrite match_block_no_closer by assumption.
  rewrite match_inline_dollar. reflexivity.
Qed.

Lemma shift_shift a b r : shift a (shift b r) = shift (a ++ b) r.
Proof. destruct r; simpl; [now rewrite app_assoc | reflexivity]. Qed.

Lemma occursb_spec p s : occursb p s = true <-> occurs p s.
Proof.
  split.
  - induction s as [|c s IH]; simpl.
    + destruct p; [|discriminate]. intros _. exists [], []. reflexivity.
    + destruct (strip_prefix p (c :: s)) as [r|] eqn:Hp.
      * intros _. apply strip_prefix_sound in Hp. exists [], r. exact Hp.
      * intros H. apply occurs_cons. auto.
  - intros (a & b & ->). induction a as [|c a IH].
    + simpl. destruct (p ++ b) as [|c s] eqn:Hpb.
      * apply app_eq_nil in Hpb. destruct Hpb as [-> _]. reflexivity.
      * cbn [occursb]. rewrite <- Hpb, strip_prefix_app. reflexivity.
    + cbn [app occursb]. rewrite IH.
      destruct (strip_prefix p (c :: a ++ p ++ b)); reflexivity.
Qed.

(** ** Spans and openers after earlier spans *)

Lemma tokenize_loop_fuel : forall f1 f2 i s,
  length s < f1 -> length s < f2 ->
  tokenize_loop f1 i s = tokenize_loop f2 i s.
Proof.
  induction f1 as [|f1 IH]; intros f2 i s H1 H2; [lia|].
  destruct f2 as [|f2]; [lia|]. cbn [tokenize_loop].
  destruct (regex_exec s) as [m|] eqn:Hm; [|reflexivity].
  pose proof (regex_exec_length _ _ Hm) as Hlen.
  destruct (before m); rewrite (IH f2) by lia; reflexivity.
Qed.

Lemma tokenize_from_none i s :
  regex_exec s = None -> tokenize_from i s = pending_text i s.
Proof.
  intros H. unfold tokenize_from. cbn [tokenize_loop]. rewrite H.
  destruct s; reflexivity.
Qed.

Lemma tokenize_from_some i s m :
  regex_exec s = Some m ->
  tokenize_from i s
  = pending_text i (before m)
      ++ RawLatex (math_id (i + length (pending_text i (before m))))
           (coalesce (group1 m) (group2 m)) (truthy (group1 m))
      :: tokenize_from (S (i + length (pending_text i (before m)))) (after m).
Proof.
  intros H. pose proof (regex_exec_length _ _ H) as Hlen.
  unfold tokenize_from. cbn [tokenize_loop]. rewrite H.
  destruct (before m) as [|b bs]; cbn [pending_text length app].
  - rewrite Nat.add_0_r.
    rewrite (tokenize_loop_fuel (length s) (S (length (after m)))) by lia.
    reflexivity.
  - rewrite Nat.add_1_r.
    rewrite (tokenize_loop_fuel (length s) (S (length (after m)))) by lia.
    reflexivity.
Qed.

Lemma pending_text_source i pend :
  concat (map raw_source (pending_text i pend)) = pend.
Proof. destruct pend; [reflexivity|]. simpl. now rewrite app_nil_r. Qed.

Lemma latex_token_source id m :
  raw_source (RawLatex id (coalesce (group1 m) (group2 m)) (truthy (group1 m)))
  = match_source m.
Proof. unfold match_source. simpl. destruct (truthy (group1 m)); reflexivity. Qed.

(** The scan passes a position where neither alternative matches. *)
Lemma regex_exec_pass c s :
  match_block (c :: s) = None -> match_inline (c :: s) = None ->
  regex_exec (c :: s) = shift [c] (regex_exec s).
Proof.
  intros Hb Hi. cbn [regex_exec]. rewrite Hb, Hi.
  destruct (regex_exec s); reflexivity.
Qed.

(** The tokens of a text whose scan reaches the head of [rest]: the tokens
    [earlier] of the matches that end before it and of the text between
    them, then the tokens of [rest] behind the text [pend] that no match
    has taken yet. *)
Lemma scan_reaches_tokens pre rest :
  scan_reaches pre rest ->
  forall q i,
    regex_exec (q ++ pre ++ rest) = shift q (regex_exec (pre ++ rest)) ->
    exists earlier pend,
      concat (map raw_source earlier) ++ pend = q ++ pre
      /\ regex_exec (pend ++ rest) = shift pend (regex_exec rest)
      /\ tokenize_from i (q ++ pre ++ rest)
         = earlier ++ tokenize_from (i + length earlier) (pend ++ rest).
Proof.
  induction 1 as [rest|c p rest Hb Hi _ IH|m p rest Hm Hbef Haft _ IH];
    intros q i Hq.
  - exists [], q. cbn [app map concat length] in *.
    rewrite app_nil_r, Nat.add_0_r. auto.
  - destruct (IH (q ++ [c]) i) as (earlier & pend & Hsrc & Hpend & Htok).
    + rewrite <- app_assoc. cbn [app] in Hq |- *. rewrite Hq.
      rewrite (regex_exec_pass c (p ++ rest) Hb Hi). apply shift_shift.
    + exists earlier, pend. rewrite <- !app_assoc in *. cbn [app] in *. auto.
  - assert (Hfound : regex_exec (q ++ (match_source m ++ p) ++ rest)
                     = Some (mkMatch q (group1 m) (group2 m) (p ++ rest))).
    { rewrite Hq, <- app_assoc, Hm. simpl. now rewrite Hbef, app_nil_r, Haft. }
    destruct (IH [] (S (i + length (pending_text i q))))
      as (earlier & pend & Hsrc & Hpend & Htok).
    { cbn [app]. destruct (regex_exec (p ++ rest)) as [[]|]; reflexivity. }
    exists (pending_text i q
              ++ RawLatex (math_id (i + length (pending_text i q)))
                   (coalesce (group1 m) (group2 m)) (truthy (group1 m))
              :: earlier), pend.
    split; [|split].
    + rewrite map_app, concat_app, pending_text_source. cbn [map concat].
      rewrite latex_token_source, <- !app_assoc. cbn [app] in Hsrc.
      now rewrite Hsrc.
    + exact Hpend.
    + rewrite (tokenize_from_some _ _ _ Hfound).
      cbn [before group1 group2 after]. cbn [app] in Htok. rewrite Htok.
      rewrite <- app_assoc. cbn [app].
      replace (i + length (pending_text i q
                 ++ RawLatex (math_id (i + length (pending_text i q)))
                      (coalesce (group1 m) (group2 m)) (truthy (group1 m))
                 :: earlier))
        with (S (i + length (pending_text i q)) + length earlier)
        by (rewrite length_app; cbn [length]; lia).
      reflexivity.
Qed.

Lemma scan_reaches_split pre rest :
  scan_reaches pre rest ->
  exists earlier pend,
    concat (map raw_source earlier) ++ pend = pre
    /\ regex_exec (pend ++ rest) = shift pend (regex_exec rest)
    /\ tokenize (pre ++ rest)
       = earlier ++ tokenize_from (length earlier) (pend ++ rest).
Proof.
  intros H.
  destruct (scan_reaches_tokens pre rest H [] 0) as (e & p & H1 & H2 & H3).
  - cbn [app]. destruct (regex_exec (pre ++ rest)) as [[]|]; reflexivity.
  - exists e, p. auto.
Qed.

(** Text without a dollar is passed. *)
Lemma reaches_after_text t p rest :
  no_dollar t -> scan_reaches p rest -> scan_reaches (t ++ p) rest.
Proof.
  induction 1 as [|c t Hc _ IH]; intros Hp; [exact Hp|].
  cbn [app]. apply reach_skip; [| |auto].
  - now apply match_block_head.
  - now apply match_inline_head.
Qed.

Lemma no_dollar_reaches pre rest : no_dollar pre -> scan_reaches pre rest.
Proof.
  intros H. rewrite <- (app_nil_r pre).
  apply reaches_after_text; [exact H | constructor].
Qed.

(** A well-formed block span is passed. *)
Lemma reaches_after_block x p rest :
  x <> [] -> ~ occurs [dollar; dollar] x -> ~ ends_with_dollar x ->
  scan_reaches p rest ->
  scan_reaches ([dollar; dollar] ++ x ++ [dollar; dollar] ++ p) rest.
Proof.
  intros Hx Hocc Hend Hp.
  pose proof (regex_exec_block x (p ++ rest) Hx Hocc Hend) as Hm.
  assert (Hsrc : match_source (mkMatch [] (Some x) None (p ++ rest))
                 = [dollar; dollar] ++ x ++ [dollar; dollar]).
  { unfold match_source. simpl. destruct x; [congruence | reflexivity]. }
  replace ([dollar; dollar] ++ x ++ [dollar; dollar] ++ p)
    with (match_source (mkMatch [] (Some x) None (p ++ rest)) ++ p)
    by (rewrite Hsrc; now rewrite <- !app_assoc).
  apply reach_match; [|reflexivity|reflexivity|exact Hp].
  rewrite Hsrc, <- Hm. now rewrite <- !app_assoc.
Qed.

(** A well-formed inline span is passed. *)
Lemma reaches_after_inline x p rest :
  x <> [] -> inline_content x ->
  scan_reaches p rest ->
  scan_reaches ([dollar] ++ x ++ [dollar] ++ p) rest.
Proof.
  intros Hx Hin Hp.
  pose proof (regex_exec_inline x (p ++ rest) Hx Hin) as Hm.
  assert (Hsrc : match_source (mkMatch [] None (Some x) (p ++ rest))
                 = [dollar] ++ x ++ [dollar]) by reflexivity.
  replace ([dollar] ++ x ++ [dollar] ++ p)
    with (match_source (mkMatch [] None (Some x) (p ++ rest)) ++ p)
    by (rewrite Hsrc; now rewrite <- !app_assoc).
  apply reach_match; [|reflexivity|reflexivity|exact Hp].
  rewrite Hsrc, <- Hm. now rewrite <- !app_assoc.
Qed.

(** A [$] whose line ends before any other [$] is passed, with the rest of
    its line. *)
Lemma reaches_after_open_line x p rest :
  no_dollar x -> scan_reaches p rest ->
  scan_reaches ([dollar] ++ x ++ [newline] ++ p) rest.
Proof.
  intros Hx Hp. cbn [app]. apply reach_skip.
  - rewrite <- app_assoc. cbn [app].
    destruct x as [|c x]; [reflexivity|]. inversion Hx; subst.
    now apply match_block_single.
  - rewrite <- app_assoc. cbn [app].
    destruct x as [|c x]; [reflexivity|]. inversion Hx; subst.
    unfold match_inline. cbn [app].
    rewrite lazy_inline_newline by assumption.
    destruct (_ && _); reflexivity.
  - replace (x ++ newline :: p) with ((x ++ [newline]) ++ p)
      by (now rewrite <- app_assoc).
    apply reaches_after_text; [|exact Hp].
    apply Forall_app. split; [assumption|]. repeat constructor. discriminate.
Qed.

(** The token of a match found right behind the pending text. *)
Lemma tokenize_from_match i pend rest m :
  regex_exec (pend ++ rest) = shift pend (regex_exec rest) ->
  regex_exec rest = Some m -> before m = [] ->
  exists toks,
    tokenize_from i (pend ++ rest)
    = pending_text i pend
        ++ RawLatex (math_id (i + length (pending_text i pend)))
             (coalesce (group1 m) (group2 m)) (truthy (group1 m))
        :: toks.
Proof.
  intros Hp Hm Hb. rewrite Hm in Hp. simpl in Hp.
  rewrite Hb, app_nil_r in Hp.
  rewrite (tokenize_from_some _ _ _ Hp). cbn [before group1 group2 after].
  eexists. reflexivity.
Qed.

(** The span behind a scan that reaches it. *)
Lemma span_after_reach pre rest m :
  scan_reaches pre rest -> regex_exec rest = Some m -> before m = [] ->
  exists earlier toks,
    concat (map raw_source earlier) = pre
    /\ tokenize (pre ++ rest)
       = earlier
           ++ RawLatex (math_id (length earlier))
                (coalesce (group1 m) (group2 m)) (truthy (group1 m))
           :: toks.
Proof.
  intros Hreach Hm Hb.
  destruct (scan_reaches_split pre rest Hreach) as (e & pend & Hsrc & Hp & Ht).
  destruct (tokenize_from_match (length e) pend rest m Hp Hm Hb) as (toks & Hk).
  exists (e ++ pending_text (length e) pend), toks. split.
  - now rewrite map_app, concat_app, pending_text_source.
  - rewrite Ht, Hk, <- app_assoc, length_app. reflexivity.
Qed.

(** C2 (as the code has it). Whenever the scan reaches the opener of the
    span, that is, no match that starts before the span runs on into it (so
    when every [$] before the span belongs to a complete earlier span or
    stands on a line without a partner): a block span [$$X$$] with [X] not
    empty, without [$$] inside and not ending in [$] gives a math token
    with [displayMode = true] and source exactly [X]; an inline span [$X$]
    with [X] not empty and free of newlines and of [$] gives a math token
    with [displayMode = false] and source exactly [X].  The tokens before
    it cover exactly the text before the span, and its id carries their
    number. *)
Theorem wellformed_span_tokenized (pre x post : str) :
  x <> [] ->
  (scan_reaches pre ([dollar; dollar] ++ x ++ [dollar; dollar] ++ post) ->
   ~ occurs [dollar; dollar] x -> ~ ends_with_dollar x ->
   exists earlier toks,
     concat (map raw_source earlier) = pre
     /\ tokenize (pre ++ [dollar; dollar] ++ x ++ [dollar; dollar] ++ post)
        = earlier ++ RawLatex (math_id (length earlier)) x true :: toks)
  /\ (scan_reaches pre ([dollar] ++ x ++ [dollar] ++ post) ->
      inline_content x ->
      exists earlier toks,
        concat (map raw_source earlier) = pre
        /\ tokenize (pre ++ [dollar] ++ x ++ [dollar] ++ post)
           = earlier ++ RawLatex (math_id (length earlier)) x false :: toks).
Proof.
  intros Hx. split.
  - intros Hreach Hocc Hend.
    destruct (span_after_reach pre _ _ Hreach
                (regex_exec_block x post Hx Hocc Hend) eq_refl)
      as (e & toks & Hsrc & Ht).
    exists e, toks. split; [exact Hsrc|]. rewrite Ht.
    cbn [group1 group2 coalesce truthy]. destruct x; [congruence | reflexivity].
  - intros Hreach Hin.
    destruct (span_after_reach pre _ _ Hreach
                (regex_exec_inline x post Hx Hin) eq_refl)
      as (e & toks & Hsrc & Ht).
    exists e, toks. split; [exact Hsrc|]. rewrite Ht. reflexivity.
Qed.

Lemma wellformed_span_tokenized_witness :
  (exists earlier toks,
     concat (map raw_source earlier) = lit "a $x$ b "
     /\ tokenize (lit "a $x$ b $$y$$ c")
        = earlier ++ RawLatex (math_id (length earlier)) (lit "y") true :: toks)
  /\ (exists earlier toks,
        concat (map raw_source earlier) = lit "a $$x$$ b "
        /\ tokenize (lit "a $$x$$ b $y$ c")
           = earlier ++ RawLatex (math_id (length earlier)) (lit "y") false :: toks).
Proof.
  assert (Ha : no_dollar (lit "a ")) by (repeat constructor; discriminate).
  assert (Hb : no_dollar (lit " b ")) by (repeat constructor; discriminate).
  assert (Hx : no_dollar (lit "x")) by (repeat constructor; discriminate).
  assert (Hy : no_dollar (lit "y")) by (repeat constructor; discriminate).
  assert (Hxi : inline_content (lit "x")) by (repeat constructor; discriminate).
  assert (Hyi : inline_content (lit "y")) by (repeat constructor; discriminate).
  assert (Hxne : lit "x" <> []) by discriminate.
  assert (Hyne : lit "y" <> []) by discriminate.
  split.
  - apply (proj1 (wellformed_span_tokenized (lit "a $x$ b ") (lit "y")
                    (lit " c") Hyne)).
    + apply (reaches_after_text (lit "a ") _ _ Ha).
      apply (reaches_after_inline (lit "x") (lit " b ") _ Hxne Hxi).
      now apply no_dollar_reaches.
    + now apply no_dollar_no_closer.
    + now apply no_dollar_not_ending.
  - apply (proj2 (wellformed_span_tokenized (lit "a $$x$$ b ") (lit "y")
                    (lit " c") Hyne)).
    + apply (reaches_after_text (lit "a ") _ _ Ha).
      apply (reaches_after_block (lit "x") (lit " b ") _ Hxne).
      * now apply no_dollar_no_closer.
      * now apply no_dollar_not_ending.
      * now apply no_dollar_reaches.
    + exact Hyi.
Defined.

(** C2, counterexample: the text contains the well-formed block span
    [$$x$$], but the [$] of the price before it opens an inline span first;
    the segmenter yields two inline tokens and no token with
    [displayMode = true].  And in [$$a$$$], a block span around [a$], which
    holds no [$$], the content stops before the dollar: the token has the
    source [a], not [a$]. *)
Lemma block_span_after_dollar_not_display :
  lit "cost $5 and $$x$$"
  = lit "cost $5 and " ++ [dollar; dollar] ++ lit "x" ++ [dollar; dollar] ++ []
  /\ tokenize (lit "cost $5 and $$x$$")
     = [RawText (lit "t-0") (lit "cost ");
        RawLatex (lit "m-1") (lit "5 and ") false;
        RawLatex (lit "m-2") (lit "x") false;
        RawText (lit "t-3") (lit "$")]
  /\ lit "$$a$$$" = [dollar; dollar] ++ lit "a$" ++ [dollar; dollar]
  /\ ~ occurs [dollar; dollar] (lit "a$")
  /\ tokenize (lit "$$a$$$")
     = [RawLatex (lit "m-0") (lit "a") true; RawText (lit "t-1") (lit "$")].
Proof.
  split; [reflexivity|]. split; [reflexivity|]. split; [reflexivity|].
  split; [|reflexivity].
  intros Hocc. apply occursb_spec in Hocc. discriminate Hocc.
Qed.

(** When the scan finds nothing in the non-empty piece [p], the token at
    the counter is a text token that starts with [p]. *)
Lemma tokenize_from_shifted i p s :
  p <> [] ->
  regex_exec (p ++ s) = shift p (regex_exec s) ->
  exists t toks, tokenize_from i (p ++ s) = RawText (text_id i) (p ++ t) :: toks.
Proof.
  intros Hp Hr. destruct (regex_exec s) as [m|]; simpl in Hr.
  - rewrite (tokenize_from_some _ _ _ Hr). cbn [before].
    destruct p as [|c p]; [congruence|].
    do 2 eexists. reflexivity.
  - rewrite (tokenize_from_none _ _ Hr).
    destruct p as [|c p]; [congruence|].
    exists s, []. reflexivity.
Qed.

(** An opener behind a scan that reaches it, when the scan finds nothing
    up to the end of the text. *)
Lemma opener_to_end pre rest :
  scan_reaches pre rest -> rest <> [] -> regex_exec rest = None ->
  exists earlier pend,
    concat (map raw_source earlier) ++ pend = pre
    /\ tokenize (pre ++ rest)
       = earlier ++ [RawText (text_id (length earlier)) (pend ++ rest)].
Proof.
  intros Hreach Hne Hnone.
  destruct (scan_reaches_split pre rest Hreach) as (e & pend & Hsrc & Hp & Ht).
  exists e, pend. split; [exact Hsrc|]. rewrite Ht.
  rewrite Hnone in Hp. rewrite (tokenize_from_none _ _ Hp).
  destruct pend; [destruct rest; [congruence | reflexivity] | reflexivity].
Qed.

(** An opener behind a scan that reaches it, when the scan passes the
    piece [o] that starts with the opener. *)
Lemma opener_passed pre o rest :
  scan_reaches pre (o ++ rest) -> o <> [] ->
  regex_exec (o ++ rest) = shift o (regex_exec rest) ->
  exists earlier pend t toks,
    concat (map raw_source earlier) ++ pend = pre
    /\ tokenize (pre ++ o ++ rest)
       = earlier ++ RawText (text_id (length earlier)) ((pend ++ o) ++ t) :: toks.
Proof.
  intros Hreach Hne Ho.
  destruct (scan_reaches_split pre _ Hreach) as (e & pend & Hsrc & Hp & Ht).
  destruct (tokenize_from_shifted (length e) (pend ++ o) rest) as (t & toks & Hk).
  - destruct pend; [exact Hne | discriminate].
  - rewrite <- app_assoc, Hp, Ho. apply shift_shift.
  - exists e, pend, t, toks. split; [exact Hsrc|]. rewrite Ht.
    rewrite <- app_assoc in Hk. now rewrite Hk.
Qed.

(** C3 (as the code has it). Whenever the scan reaches the opener, that
    is, no match that starts before the opener runs on into it: a [$] or a
    [$$] followed by no further [$] stays, with everything after it, in the
    last token, a text token; a [$] on a line without another [$] stays,
    with the rest of its line, in one text token; and of a [$$] that no
    later [$$] closes, the first dollar stays in a text token (the second
    one can still open an inline span).  That text token starts with the
    text [pend] that stands between the last earlier span and the opener,
    and the tokens before it cover the rest of what precedes the opener. *)
Theorem unterminated_opener_stays_literal (pre x rest : str) :
  no_dollar x ->
  (scan_reaches pre ([dollar] ++ x) ->
   exists earlier pend,
     concat (map raw_source earlier) ++ pend = pre
     /\ tokenize (pre ++ [dollar] ++ x)
        = earlier ++ [RawText (text_id (length earlier)) (pend ++ [dollar] ++ x)])
  /\ (scan_reaches pre ([dollar; dollar] ++ x) ->
      exists earlier pend,
        concat (map raw_source earlier) ++ pend = pre
        /\ tokenize (pre ++ [dollar; dollar] ++ x)
           = earlier
               ++ [RawText (text_id (length earlier)) (pend ++ [dollar; dollar] ++ x)])
  /\ (scan_reaches pre ([dollar] ++ x ++ [newline] ++ rest) ->
      exists earlier pend t toks,
        concat (map raw_source earlier) ++ pend = pre
        /\ tokenize (pre ++ [dollar] ++ x ++ [newline] ++ rest)
           = earlier
               ++ RawText (text_id (length earlier))
                    ((pend ++ [dollar] ++ x ++ [newline]) ++ t)
               :: toks)
  /\ (scan_reaches pre ([dollar; dollar] ++ rest) ->
      ~ occurs [dollar; dollar] rest ->
      exists earlier pend t toks,
        concat (map raw_source earlier) ++ pend = pre
        /\ tokenize (pre ++ [dollar; dollar] ++ rest)
           = earlier
               ++ RawText (text_id (length earlier)) ((pend ++ [dollar]) ++ t)
               :: toks).
Proof.
  intros Hx. split; [|split; [|split]].
  - intros Hreach. apply opener_to_end; [exact Hreach | discriminate|].
    cbn [app]. now apply regex_exec_open_end.
  - intros Hreach. apply opener_to_end; [exact Hreach | discriminate|].
    cbn [app].
    rewrite regex_exec_open_block by (now apply no_dollar_no_closer).
    now rewrite regex_exec_open_end.
  - intros Hreach.
    destruct (opener_passed pre ([dollar] ++ x ++ [newline]) rest)
      as (e & pend & t & toks & Hsrc & Ht).
    + now rewrite <- !app_assoc.
    + discriminate.
    + rewrite <- !app_assoc. cbn [app].
      now apply regex_exec_open_line.
    + exists e, pend, t, toks. split; [exact Hsrc|].
      rewrite <- !app_assoc in Ht. rewrite <- !app_assoc. exact Ht.
  - intros Hreach Hno.
    destruct (opener_passed pre [dollar] (dollar :: rest))
      as (e & pend & t & toks & Hsrc & Ht).
    + exact Hreach.
    + discriminate.
    + cbn [app]. now apply regex_exec_open_block.
    + exists e, pend, t, toks. split; [exact Hsrc|]. exact Ht.
Qed.

Lemma unterminated_opener_stays_literal_witness :
  (exists earlier pend,
     concat (map raw_source earlier) ++ pend = lit "a $x$ costs "
     /\ tokenize (lit "a $x$ costs $5")
        = earlier ++ [RawText (text_id (length earlier)) (pend ++ lit "$5")])
  /\ (exists earlier pend,
        concat (map raw_source earlier) ++ pend = lit "a $x$ costs "
        /\ tokenize (lit "a $x$ costs $$5")
           = earlier ++ [RawText (text_id (length earlier)) (pend ++ lit "$$5")])
  /\ (exists earlier pend t toks,
        concat (map raw_source earlier) ++ pend = lit "a $x$ costs "
        /\ tokenize (lit "a $x$ costs $5" ++ [newline] ++ lit "a$b$")
           = earlier
               ++ RawText (text_id (length earlier))
                    ((pend ++ lit "$5" ++ [newline]) ++ t)
               :: toks)
  /\ (exists earlier pend t toks,
        concat (map raw_source earlier) ++ pend = lit "a $x$ costs "
        /\ tokenize (lit "a $x$ costs $$a$b$")
           = earlier
               ++ RawText (text_id (length earlier)) ((pend ++ lit "$") ++ t)
               :: toks).
Proof.
  assert (Ha : no_dollar (lit "a ")) by (repeat constructor; discriminate).
  assert (Hc : no_dollar (lit " costs ")) by (repeat constructor; discriminate).
  assert (Hxi : inline_content (lit "x")) by (repeat constructor; discriminate).
  assert (Hxne : lit "x" <> []) by discriminate.
  assert (H5 : no_dollar (lit "5")) by (repeat constructor; discriminate).
  assert (Hreach : forall rest, scan_reaches (lit "a $x$ costs ") rest).
  { intros rest. apply (reaches_after_text (lit "a ") _ _ Ha).
    apply (reaches_after_inline (lit "x") (lit " costs ") _ Hxne Hxi).
    now apply no_dollar_reaches. }
  destruct (unterminated_opener_stays_literal (lit "a $x$ costs ") (lit "5")
              (lit "a$b$") H5) as (H1 & H2 & H3 & _).
  destruct (unterminated_opener_stays_literal (lit "a $x$ costs ") (lit "5")
              (lit "a$b$") H5) as (_ & _ & _ & H4).
  split; [exact (H1 (Hreach _))|]. split; [exact (H2 (Hreach _))|].
  split; [exact (H3 (Hreach _))|].
  apply (H4 (Hreach _)).
  intros Hocc. apply occursb_spec in Hocc. discriminate Hocc.
Defined.

(** C3, counterexample: the [$$] at the head of the text has no closing
    [$$], yet its second dollar opens the inline span [$a$]: a math token is
    produced and no text token holds the two dollars.  And in [x $5 and $y]
    no [$] follows the second dollar, yet the match that starts at the
    first one runs on into it: it closes the inline span [$5 and $], and no
    text token holds it. *)
Lemma unclosed_block_opener_yields_math :
  ~ occurs [dollar; dollar] (lit "a$b")
  /\ tokenize (lit "$$a$b")
     = [RawText (lit "t-0") (lit "$");
        RawLatex (lit "m-1") (lit "a") false;
        RawText (lit "t-2") (lit "b")]
  /\ no_dollar (lit "y")
  /\ tokenize (lit "x $5 and $y")
     = [RawText (lit "t-0") (lit "x ");
        RawLatex (lit "m-1") (lit "5 and ") false;
        RawText (lit "t-2") (lit "y")].
Proof.
  split; [|split; [reflexivity|split; [|reflexivity]]].
  - intros Hocc. apply occursb_spec in Hocc. discriminate Hocc.
  - repeat constructor. discriminate.
Qed.

(* ================================================================== *)
(** * Properties of the weaver *)
(* ================================================================== *)

(** C6. The combined placeholder string of [generateDocx] is the one of
    the weaver: for every token sequence both are the pieces of the tokens
    (text verbatim, inline placeholder bare, block placeholder between
    blank lines), joined in token order. *)
Theorem combined_strings_agree (toks : list Token) :
  docx_combined toks = weaver_combined toks
  /\ weaver_combined toks = concat (map placeholder_piece toks).
Proof.
  unfold docx_combined, weaver_combined. split; f_equal; apply map_ext;
    intros [id text|m]; try reflexivity; destruct (displayMode m); reflexivity.
Qed.

Lemma find_sub_sound sep s : forall a rest,
  find_sub sep s = Some (a, rest) -> s = a ++ sep ++ rest.
Proof.
  induction s as [|c s IH]; intros a rest H.
  - simpl in H. destruct sep; [|discriminate]. inversion H. reflexivity.
  - cbn [find_sub] in H.
    destruct (strip_prefix sep (c :: s)) as [r|] eqn:Hp.
    + inversion H; subst. now apply strip_prefix_sound in Hp.
    + destruct (find_sub sep s) as [[a' r']|]; [|discriminate].
      inversion H; subst. simpl. f_equal. now apply IH.
Qed.

Lemma occurs_head_inv p c s :
  occurs p (c :: s) -> (exists r, c :: s = p ++ r) \/ occurs p s.
Proof.
  intros ([|x a] & b & H); simpl in H.
  - left. exists b. exact H.
  - right. inversion H; subst. exists a, b. reflexivity.
Qed.

Lemma occurs_app_l p a b : occurs p a -> occurs p (a ++ b).
Proof.
  intros (x & y & ->). exists x, (y ++ b). now rewrite <- !app_assoc.
Qed.

Lemma occurs_app_r p a b : occurs p b -> occurs p (a ++ b).
Proof.
  intros (x & y & ->). exists (a ++ x), y. now rewrite <- !app_assoc.
Qed.

Lemma occurs_trans p q s : occurs p q -> occurs q s -> occurs p s.
Proof.
  intros Hpq (x & y & ->). now apply occurs_app_r, occurs_app_l.
Qed.

(** Nothing before the first occurrence holds the separator. *)
Lemma find_sub_first sep s : forall a rest,
  find_sub sep s = Some (a, rest) -> sep <> [] -> ~ occurs sep a.
Proof.
  induction s as [|c s IH]; intros a rest H Hsep.
  - simpl in H. destruct sep; [congruence | discriminate].
  - cbn [find_sub] in H.
    destruct (strip_prefix sep (c :: s)) as [r|] eqn:Hp.
    + inversion H; subst. intros (x & y & Hxy).
      destruct x; destruct sep; try discriminate; congruence.
    + destruct (find_sub sep s) as [[a' r']|] eqn:Hf; [|discriminate].
      injection H as <- <-. intros Hocc.
      apply occurs_head_inv in Hocc. destruct Hocc as [[r Hr]|Hocc].
      * apply find_sub_sound in Hf.
        assert (Hpre : strip_prefix sep (c :: s) = Some (r ++ sep ++ r')).
        { rewrite Hf. change (c :: a' ++ sep ++ r') with ((c :: a') ++ sep ++ r').
          rewrite Hr, <- app_assoc. apply strip_prefix_app. }
        congruence.
      * exact (IH _ _ eq_refl Hsep Hocc).
Qed.

Lemma find_sub_none sep s : find_sub sep s = None -> ~ occurs sep s.
Proof.
  induction s as [|c s IH]; intros H Hocc.
  - simpl in H. destruct sep; [discriminate|].
    destruct Hocc as (x & y & Hxy). destruct x; discriminate.
  - cbn [find_sub] in H.
    destruct (strip_prefix sep (c :: s)) as [r|] eqn:Hp; [discriminate|].
    destruct (find_sub sep s) as [[a' r']|]; [discriminate|].
    apply occurs_head_inv in Hocc. destruct Hocc as [[r Hr]|Hocc].
    + rewrite Hr, strip_prefix_app in Hp. discriminate.
    + now apply IH.
Qed.

(** Every piece of [split] is a piece of the text and free of the
    separator. *)
Lemma split_loop_pieces sep : sep <> [] -> forall fuel s,
  length s < fuel ->
  Forall (fun p => occurs p s /\ ~ occurs sep p) (split_loop fuel sep s).
Proof.
  intros Hsep. induction fuel as [|fuel IH]; intros s Hf; [lia|].
  cbn [split_loop]. destruct (find_sub sep s) as [[a rest]|] eqn:Hfind.
  - pose proof (find_sub_sound _ _ _ _ Hfind) as Hs.
    constructor.
    + split; [|eapply find_sub_first; eauto].
      exists [], (sep ++ rest). exact Hs.
    + assert (Hlen : length rest < fuel).
      { apply (f_equal (@length char)) in Hs. rewrite !length_app in Hs.
        assert (0 < length sep) by (destruct sep; [congruence | simpl; lia]).
        lia. }
      eapply Forall_impl; [|apply (IH rest Hlen)].
      intros p [Hp Hn]. split; [|exact Hn].
      eapply occurs_trans; [exact Hp|].
      exists (a ++ sep), []. rewrite Hs, app_nil_r, <- app_assoc. reflexivity.
  - constructor; [|constructor]. split.
    + exists [], []. now rewrite app_nil_r.
    + now apply find_sub_none.
Qed.

(** A word without the code unit [d] that occurs in [a ++ d :: b] occurs
    in [a] or in [b]. *)
Lemma occurs_across_delim w d a b :
  ~ In d w -> occurs w (a ++ d :: b) -> occurs w a \/ occurs w b.
Proof.
  intros Hd (x & y & H).
  apply app_eq_app in H. destruct H as (l & [[Ha Hw]|[Hx Hb]]).
  - symmetry in Hw. apply app_eq_app in Hw.
    destruct Hw as (l2 & [[Hl Hy]|[Hw Hy]]).
    + left. exists x, l2. rewrite Ha, Hl. reflexivity.
    + destruct l2 as [|e l2].
      * left. exists x, []. rewrite Ha, Hw, !app_nil_r. reflexivity.
      * inversion Hy; subst. exfalso. apply Hd.
        apply in_or_app. right. left. reflexivity.
  - destruct l as [|e l].
    + simpl in Hb. destruct w as [|e w].
      * left. exists a, []. now rewrite app_nil_r.
      * inversion Hb; subst. exfalso. apply Hd. left. reflexivity.
    + inversion Hb; subst. right. exists l, y. reflexivity.
Qed.

Lemma occurs_join w r mid ps :
  angle_free w -> wrapped r mid ->
  occurs w (join r ps) -> Exists (occurs w) ps \/ occurs w mid.
Proof.
  intros [Hlt Hgt] ->. induction ps as [|p ps IH]; intros Hocc.
  - right. destruct Hocc as (x & y & Hxy).
    symmetry in Hxy. apply app_eq_nil in Hxy. destruct Hxy as [_ Hxy].
    apply app_eq_nil in Hxy. destruct Hxy as [-> _].
    exists [], mid. reflexivity.
  - cbn [join] in Hocc. destruct ps as [|q ps].
    + left. constructor. exact Hocc.
    + cbn [app] in Hocc.
      apply occurs_across_delim in Hocc; [|exact Hlt].
      destruct Hocc as [Hp|Hocc]; [left; constructor; exact Hp|].
      rewrite <- app_assoc in Hocc. cbn [app] in Hocc.
      apply occurs_across_delim in Hocc; [|exact Hgt].
      destruct Hocc as [Hm|Hocc]; [right; exact Hm|].
      destruct (IH Hocc) as [He|Hm]; [left; now constructor | right; exact Hm].
Qed.

Lemma mathPlaceholder_nonempty id : mathPlaceholder id <> [].
Proof. discriminate. Qed.

Lemma mathPlaceholder_angle_free id :
  angle_free id -> angle_free (mathPlaceholder id).
Proof.
  intros [Hlt Hgt]. unfold mathPlaceholder. split; intros Hin;
    apply in_app_or in Hin; destruct Hin as [Hin|Hin];
    try (apply in_app_or in Hin; destruct Hin as [Hin|Hin]);
    try contradiction;
    simpl in Hin; repeat (destruct Hin as [Hin|Hin]; [discriminate Hin|]);
    exact Hin.
Qed.

(** One [out.split(ph).join(repl)]: a word free of angle brackets that is
    not in the replacement occurs afterwards only if it occurred before,
    and the placeholder itself never does. *)
Lemma split_join_step w ph r mid out :
  ph <> [] -> angle_free w -> wrapped r mid -> ~ occurs w r ->
  ~ occurs w out \/ w = ph ->
  ~ occurs w (join r (split ph out)).
Proof.
  intros Hph Hw Hr Hwr Hout Hocc.
  assert (Hsplit : split ph out = split_loop (S (length out)) ph out)
    by (destruct ph; [congruence | reflexivity]).
  rewrite Hsplit in Hocc.
  pose proof (split_loop_pieces ph Hph (S (length out)) out (Nat.lt_succ_diag_r _))
    as Hpieces.
  destruct (occurs_join _ _ _ _ Hw Hr Hocc) as [Hex|Hmid].
  - apply Exists_exists in Hex. destruct Hex as (p & Hin & Hwp).
    rewrite Forall_forall in Hpieces. destruct (Hpieces p Hin) as [Hp Hn].
    destruct Hout as [Hout| ->].
    + apply Hout. eapply occurs_trans; eauto.
    + contradiction.
  - apply Hwr. rewrite Hr. apply occurs_app_r, occurs_app_l. exact Hmid.
Qed.

Section WeaverFacts.
Variable marked_parse : str -> str.
Variable replacer : MathToken -> str.

Lemma render_unfold toks :
  renderMarkdownWithPlaceholders marked_parse toks replacer
  = fold_left (substitute replacer) toks (marked_parse (weaver_combined toks)).
Proof. reflexivity. Qed.

Lemma substitute_all toks : replacer_sealed replacer toks ->
  forall todo out, incl todo toks ->
  forall u, In (MathTok u) toks ->
    ~ occurs (mathPlaceholder (math_ident u)) out \/ In (MathTok u) todo ->
    ~ occurs (mathPlaceholder (math_ident u)) (fold_left (substitute replacer) todo out).
Proof.
  intros Hsealed. induction todo as [|t todo IH]; intros out Hincl u Hu Hstart.
  - destruct Hstart as [H|[]]. exact H.
  - cbn [fold_left]. apply IH; [eapply incl_cons_inv; eauto | exact Hu|].
    assert (Ht : In t toks) by (apply Hincl; left; reflexivity).
    destruct t as [id text|m]; cbn [substitute].
    + destruct Hstart as [H|[H|H]]; [left; exact H | discriminate | right; exact H].
    + destruct (Hsealed m Ht) as (_ & [mid Hmid] & Hfree).
      destruct (Hsealed u Hu) as (Hid & _ & _).
      destruct Hstart as [H|[H|H]]; [| |right; exact H]; left.
      * eapply split_join_step; eauto using mathPlaceholder_nonempty,
          mathPlaceholder_angle_free.
      * injection H as ->.
        eapply split_join_step; eauto using mathPlaceholder_nonempty,
          mathPlaceholder_angle_free.
Qed.

End WeaverFacts.

(** C5, counterexample: with the preview replacer itself, a token whose
    rendered HTML echoes its source leaves its own placeholder in the
    woven HTML. *)
Lemma placeholder_survives_weaving :
  occurs (mathPlaceholder (math_ident echo_token))
    (renderMarkdownWithPlaceholders one_paragraph [MathTok echo_token]
       previewReplacer).
Proof. apply occursb_spec. vm_compute. reflexivity. Qed.

(* ================================================================== *)
(** * Properties of the document builder *)
(* ================================================================== *)

Example emitStyledRuns_toggles :
  emitStyledRuns (lit "a **b** *c*") no_style
  = [TextRun (lit "a ") false false; TextRun (lit "b") true false;
     TextRun (lit " ") false false; TextRun (lit "c") false true].
Proof. reflexivity. Qed.

Example isOmmlPlain_text_only :
  isOmmlPlain (lit "<m:oMath><m:r><m:rPr/><m:t>x</m:t></m:r></m:oMath>") = true
  /\ isOmmlPlain (lit "<m:oMath><m:f><m:num/><m:den/></m:f></m:oMath>") = false.
Proof. split; reflexivity. Qed.

Example extractTextFromOmml_two_runs :
  extractTextFromOmml
    (lit "<m:oMath><m:r><m:t>x</m:t></m:r><m:r><m:t xml:space=preserve>=1</m:t></m:r></m:oMath>")
  = lit "x=1".
Proof. reflexivity. Qed.

Example splitInlineByMath_known_id :
  splitInlineByMath (build_mathMap [MathTok plain_token])
    (lit "x=MATHPHm-1PHMATH y")
  = [PString (lit "x="); PMath plain_token; PString (lit " y")].
Proof. reflexivity. Qed.

(** Neither delimiter of the placeholder overlaps itself: after a piece
    [u] that does not hold it, the delimiter cannot start inside [u]. *)
Lemma MATHPH_not_early u r :
  u <> [] -> ~ occurs MATHPH u -> strip_prefix MATHPH (u ++ MATHPH ++ r) = None.
Proof.
  intros Hu Hno.
  destruct (strip_prefix MATHPH (u ++ MATHPH ++ r)) as [r0|] eqn:E;
    [exfalso | reflexivity].
  apply strip_prefix_sound in E.
  destruct u as [|c1 [|c2 [|c3 [|c4 [|c5 [|c6 u]]]]]]; [congruence| | | | | |];
    cbn in E; try (injection E; intros; subst; discriminate).
  apply Hno. injection E; intros; subst.
  exists [], u. reflexivity.
Qed.

Lemma PHMATH_not_early u r :
  u <> [] -> ~ occurs PHMATH u -> strip_prefix PHMATH (u ++ PHMATH ++ r) = None.
Proof.
  intros Hu Hno.
  destruct (strip_prefix PHMATH (u ++ PHMATH ++ r)) as [r0|] eqn:E;
    [exfalso | reflexivity].
  apply strip_prefix_sound in E.
  destruct u as [|c1 [|c2 [|c3 [|c4 [|c5 [|c6 u]]]]]]; [congruence| | | | | |];
    cbn in E; try (injection E; intros; subst; discriminate).
  apply Hno. injection E; intros; subst.
  exists [], u. reflexivity.
Qed.

Lemma lazy_id_sound s : forall x rest,
  lazy_id s = Some (x, rest) -> s = x ++ PHMATH ++ rest.
Proof.
  induction s as [|c s IH]; intros x rest H; [discriminate|].
  cbn [lazy_id] in H.
  destruct (strip_prefix (lit "PHMATH") (c :: s)) as [r|] eqn:Hp.
  - injection H as <- <-. now apply strip_prefix_sound in Hp.
  - destruct (is_line_terminator c); [discriminate|].
    destruct (lazy_id s) as [[x' r']|]; [|discriminate].
    injection H as <- <-. simpl. f_equal. now apply IH.
Qed.

Lemma match_placeholder_sound s id rest :
  match_placeholder s = Some (id, rest) ->
  s = mathPlaceholder id ++ rest.
Proof.
  unfold match_placeholder. intros H.
  destruct (strip_prefix (lit "MATHPH") s) as [[|c s']|] eqn:Hp;
    try discriminate.
  destruct (is_line_terminator c); [discriminate|].
  destruct (lazy_id s') as [[x r]|] eqn:Hl; [|discriminate].
  injection H as <- <-.
  apply strip_prefix_sound in Hp. apply lazy_id_sound in Hl. subst.
  unfold mathPlaceholder, PHMATH. now rewrite <- !app_assoc.
Qed.

Lemma placeholder_exec_sound s : forall pre id rest,
  placeholder_exec s = Some (pre, id, rest) ->
  s = pre ++ mathPlaceholder id ++ rest.
Proof.
  induction s as [|c s IH]; intros pre id rest H; [discriminate|].
  cbn [placeholder_exec] in H.
  destruct (match_placeholder (c :: s)) as [[i r]|] eqn:Hm.
  - injection H as <- <- <-. now apply match_placeholder_sound in Hm.
  - destruct (placeholder_exec s) as [[[p i] r]|]; [|discriminate].
    injection H as <- <- <-. simpl. f_equal. now apply IH.
Qed.

Lemma placeholder_exec_length s pre id rest :
  placeholder_exec s = Some (pre, id, rest) -> length rest < length s.
Proof.
  intros H. apply placeholder_exec_sound in H.
  apply (f_equal (@length char)) in H.
  unfold mathPlaceholder in H. rewrite !length_app in H. simpl in H. lia.
Qed.

Lemma splitInlineByMath_fuel mm : forall f1 f2 s,
  length s < f1 -> length s < f2 ->
  splitInlineByMath_loop mm f1 s = splitInlineByMath_loop mm f2 s.
Proof.
  induction f1 as [|f1 IH]; intros f2 s H1 H2; [lia|].
  destruct f2 as [|f2]; [lia|]. cbn [splitInlineByMath_loop].
  destruct (placeholder_exec s) as [[[pre id] rest]|] eqn:He; [|reflexivity].
  apply placeholder_exec_length in He.
  do 2 f_equal. apply IH; lia.
Qed.

(** The loop of [splitInlineByMath], one turn at a time. *)
Lemma splitInlineByMath_unfold mm s :
  splitInlineByMath mm s
  = match placeholder_exec s with
    | Some (pre, id, rest) =>
        (match pre with [] => [] | _ :: _ => [PString pre] end)
          ++ (match mathMap_get mm id with
              | Some mt => [PMath mt]
              | None => []
              end)
          ++ splitInlineByMath mm rest
    | None => match s with [] => [] | _ :: _ => [PString s] end
    end.
Proof.
  unfold splitInlineByMath at 1. cbn [splitInlineByMath_loop].
  destruct (placeholder_exec s) as [[[pre id] rest]|] eqn:He; [|reflexivity].
  apply placeholder_exec_length in He.
  do 2 f_equal. unfold splitInlineByMath. apply splitInlineByMath_fuel; lia.
Qed.

Lemma occurs_tail p c s : ~ occurs p (c :: s) -> ~ occurs p s.
Proof. intros H Hocc. apply H. now apply occurs_cons. Qed.

(** The scan walks over text that does not hold [MATHPH]. *)
Lemma placeholder_exec_skip pre r :
  ~ occurs MATHPH pre ->
  placeholder_exec (pre ++ MATHPH ++ r)
  = match placeholder_exec (MATHPH ++ r) with
    | Some (p, id, rest) => Some (pre ++ p, id, rest)
    | None => None
    end.
Proof.
  induction pre as [|c pre IH]; intros Hno.
  - change ([] ++ MATHPH ++ r) with (MATHPH ++ r).
    destruct (placeholder_exec (MATHPH ++ r)) as [[[p i] t]|]; reflexivity.
  - cbn [app placeholder_exec].
    assert (Hm : match_placeholder (c :: pre ++ MATHPH ++ r) = None).
    { unfold match_placeholder.
      change (c :: pre ++ MATHPH ++ r) with ((c :: pre) ++ MATHPH ++ r).
      fold MATHPH. rewrite MATHPH_not_early; [reflexivity | discriminate | exact Hno]. }
    rewrite Hm, IH by (eapply occurs_tail; eauto).
    destruct (placeholder_exec (MATHPH ++ r)) as [[[p i] t]|]; reflexivity.
Qed.

Lemma lazy_id_exact x : forall post,
  id_content x -> ~ occurs PHMATH x ->
  lazy_id (x ++ PHMATH ++ post) = Some (x, post).
Proof.
  induction x as [|c x IH]; intros post Hx Hno; [reflexivity|].
  inversion Hx as [|? ? Hc Hx']; subst.
  cbn [app lazy_id].
  change (c :: x ++ PHMATH ++ post) with ((c :: x) ++ PHMATH ++ post).
  fold PHMATH. rewrite PHMATH_not_early; [|discriminate | exact Hno].
  rewrite Hc, IH; [reflexivity | assumption | eapply occurs_tail; eauto].
Qed.

Lemma match_placeholder_exact id post :
  id <> [] -> id_content id -> ~ occurs PHMATH id ->
  match_placeholder (mathPlaceholder id ++ post) = Some (id, post).
Proof.
  intros Hne Hid Hno. destruct id as [|c x]; [congruence|].
  inversion Hid as [|? ? Hc Hx]; subst.
  unfold match_placeholder, mathPlaceholder.
  rewrite <- !app_assoc, strip_prefix_app. cbn [app]. rewrite Hc.
  fold PHMATH. rewrite lazy_id_exact; [reflexivity | assumption|].
  eapply occurs_tail; eauto.
Qed.

Lemma placeholder_exec_exact pre id post :
  ~ occurs MATHPH pre -> id <> [] -> id_content id -> ~ occurs PHMATH id ->
  placeholder_exec (pre ++ mathPlaceholder id ++ post) = Some (pre, id, post).
Proof.
  intros Hpre Hne Hid Hno.
  pose proof (match_placeholder_exact id post Hne Hid Hno) as Hm.
  unfold mathPlaceholder in *. fold MATHPH in *.
  rewrite <- !app_assoc in *.
  rewrite placeholder_exec_skip by assumption.
  assert (He : placeholder_exec (MATHPH ++ id ++ lit "PHMATH" ++ post)
               = Some ([], id, post)).
  { unfold MATHPH in *. cbn [lit app] in *. cbn [placeholder_exec].
    now rewrite Hm. }
  rewrite He, app_nil_r. reflexivity.
Qed.

(** C10. In the document builder, a placeholder-shaped piece
    [MATHPH<id>PHMATH] of a plain-text span whose id is not the id of a
    math token is dropped: the parts are the text before it (if any)
    followed by the parts of the text after it, and the piece itself is in
    neither a string part nor a math part.  Here the piece is the next
    match of the builder's pattern: [MATHPH] does not occur before it, and
    the id is not empty, free of line terminators and of [PHMATH]. *)
Theorem unknown_placeholder_dropped (mm : MathMap) (pre id post : str) :
  ~ occurs MATHPH pre -> id <> [] -> id_content id -> ~ occurs PHMATH id ->
  mathMap_get mm id = None ->
  splitInlineByMath mm (pre ++ mathPlaceholder id ++ post)
  = match pre with [] => [] | _ :: _ => [PString pre] end
      ++ splitInlineByMath mm post.
Proof.
  intros Hpre Hne Hid Hno Hget. rewrite splitInlineByMath_unfold.
  rewrite placeholder_exec_exact by assumption. rewrite Hget. reflexivity.
Qed.

Lemma unknown_placeholder_dropped_witness :
  splitInlineByMath (build_mathMap [MathTok plain_token])
    (lit "see " ++ mathPlaceholder (lit "m-7") ++ lit " here")
  = [PString (lit "see "); PString (lit " here")].
Proof.
  apply (unknown_placeholder_dropped (build_mathMap [MathTok plain_token])
           (lit "see ") (lit "m-7") (lit " here")).
  - intros Hocc. apply occursb_spec in Hocc. discriminate Hocc.
  - discriminate.
  - repeat constructor.
  - intros Hocc. apply occursb_spec in Hocc. discriminate Hocc.
  - reflexivity.
Defined.

(** ** Bold across a formula *)

Lemma emitStyledRuns_loop_plain t : forall buf b i,
  ~ In asterisk t ->
  emitStyledRuns_loop t buf b i = flush (buf ++ t) b i.
Proof.
  induction t as [|c t IH]; intros buf b i Hno; cbn [emitStyledRuns_loop].
  - now rewrite app_nil_r.
  - destruct (N.eqb_spec c asterisk) as [->|_].
    + exfalso. apply Hno. left. reflexivity.
    + rewrite IH by (intros H; apply Hno; right; exact H).
      now rewrite <- app_assoc.
Qed.

Lemma emitStyledRuns_plain t st :
  t <> [] -> ~ In asterisk t ->
  emitStyledRuns t st = [TextRun t (bold st) (italics st)].
Proof.
  intros Hne Hno. unfold emitStyledRuns.
  rewrite emitStyledRuns_loop_plain by assumption.
  destruct t; [congruence | reflexivity].
Qed.

Lemma runs_of_strong M mm fuel t ts its o d st :
  inlineTokensToRuns M mm (S fuel) [mkTok ty_strong t (Some ts) its o d] st
  = match inlineTokensToRuns M mm fuel ts (mkStyle true (italics st)) with
    | Some r => Some (r ++ [])
    | None => None
    end.
Proof. reflexivity. Qed.

Lemma runs_of_plain_text M mm fuel s s' st :
  inlineTokensFromText M s = [text_node s'] ->
  inlineTokensToRuns M mm (S fuel) [text_node s] st
  = Some (flat_map (part_runs st) (splitInlineByMath mm s') ++ []).
Proof.
  intros H. cbn [inlineTokensToRuns collect type text_node text]. rewrite H.
  reflexivity.
Qed.

Lemma bold_tokens R :
  tokenizeAndConvert R bold_input
  = [TextToken (lit "t-0") (lit "**x=");
     MathTok (mkMath (lit "m-1") (lit "1") false
                (katex_renderToString R (lit "1") false)
                (temml_renderToString R (lit "1") false)
                (mml2omml R (temml_renderToString R (lit "1") false)));
     TextToken (lit "t-2") (lit " y**")].
Proof. reflexivity. Qed.

(** C7. For the input [**x=$1$ y**], when [marked] lexes the combined
    string as one paragraph with one [strong] node around one text node and
    the inline lexer finds no markup in that text, the builder emits one
    paragraph of exactly three runs: bold [x=], the run of the formula (a
    math object, or its text as a bold run when the fragment is only text
    that is not empty and has no asterisk), and bold [ y]. *)
Theorem bold_carried_across_formula (M : Marked) (R : Renderers) :
  let o := mml2omml R (temml_renderToString R (lit "1") false) in
  lexer M bold_combined = bold_blocks ->
  inlineTokensFromText M bold_inner = [text_node bold_inner] ->
  (isOmmlPlain o = true ->
   extractTextFromOmml o <> [] /\ ~ In asterisk (extractTextFromOmml o)) ->
  forall fuel, 2 <= fuel ->
    generateDocx M fuel (tokenizeAndConvert R bold_input)
    = Some [mkPara [TextRun (lit "x=") true false;
                    bold_formula_run o;
                    TextRun (lit " y") true false]
              None None false].
Proof.
  intros o Hlex Hinline Hplain fuel Hfuel.
  destruct fuel as [|[|fuel]]; [lia | lia |].
  rewrite bold_tokens. unfold generateDocx.
  change (docx_combined _) with bold_combined. rewrite Hlex.
  unfold bold_blocks. cbn [collect]. unfold block_paragraphs.
  cbn [type tokens block_inline].
  rewrite runs_of_strong, (runs_of_plain_text _ _ _ _ _ _ Hinline).
  change (splitInlineByMath _ bold_inner)
    with [PString (lit "x=");
          PMath (mkMath (lit "m-1") (lit "1") false
                   (katex_renderToString R (lit "1") false)
                   (temml_renderToString R (lit "1") false) o);
          PString (lit " y")].
  cbn [flat_map part_runs omml italics no_style]. unfold bold_formula_run.
  destruct (isOmmlPlain o) eqn:Ho.
  - destruct (Hplain eq_refl) as [Hne Hno].
    destruct (extractTextFromOmml o) as [|c t] eqn:He; [congruence|].
    rewrite (emitStyledRuns_plain (c :: t)) by assumption.
    reflexivity.
  - reflexivity.
Qed.

Lemma bold_carried_across_formula_witness :
  generateDocx (one_block_marked bold_blocks) 2
    (tokenizeAndConvert formula_renderers bold_input)
  = Some [mkPara [TextRun (lit "x=") true false;
                  TextRun (lit "1") true false;
                  TextRun (lit " y") true false]
            None None false].
Proof.
  refine (bold_carried_across_formula (one_block_marked bold_blocks)
            formula_renderers eq_refl eq_refl _ 2 (le_n 2)).
  intros _. split; [discriminate|].
  intros [H|[]]. discriminate H.
Defined.

(** ** Lists *)

(** Induction on a markdown token with the hypothesis for every token
    below it, in [tokens] and in [items]. *)
Lemma MdToken_ind_nested (P : MdToken -> Prop) :
  (forall ty t toks its o d,
     match toks with Some ts => Forall P ts | None => True end ->
     Forall P its -> P (mkTok ty t toks its o d)) ->
  forall t, P t.
Proof.
  intros H. fix IH 1. intros [ty t toks its o d]. apply H.
  - destruct toks as [ts|]; [|exact I].
    induction ts as [|x ts IHts]; constructor; [apply IH | exact IHts].
  - induction its as [|x its IHits]; constructor; [apply IH | exact IHits].
Qed.

Section ListFacts.
Variable M : Marked.
Variable mm : MathMap.

Lemma listParas_cons fuel li rest ord :
listParas M mm fuel (li :: rest) ord
= match itemParas M mm fuel li ord with
  | Some r =>
      match listParas M mm fuel rest ord with
      | Some rs => Some (r ++ rs)
      | None => None
      end
  | None => None
  end.
Proof. reflexivity. Qed.

(** The body of the loop of [listParas], with the recursive call written
  as in the source: [listParas(sub.items, sub.ordered)]. *)
Lemma itemParas_unfold fuel li ord :
itemParas M mm fuel li ord
= match inlineTokensToRuns M mm fuel (inlineTokensFromText M (text li)) no_style with
  | None => None
  | Some runs =>
      match
        match nested_list li with
        | Some sub => listParas M mm fuel (items sub) (ordered sub)
        | None => Some []
        end
      with
      | None => None
      | Some sub =>
          Some (mkPara runs None (Some (list_numbering ord)) false :: sub)
      end
  end.
Proof.
  destruct li as [ty t toks its o d]. cbn [itemParas text].
  destruct (inlineTokensToRuns M mm fuel (inlineTokensFromText M t) no_style)
    as [runs|]; [|reflexivity].
  unfold nested_list. cbn [tokens].
  destruct toks as [ts|]; [|reflexivity].
  match goal with
  | |- match ?a with _ => _ end = match ?b with _ => _ end =>
      replace a with b; [reflexivity|]
  end.
  induction ts as [|x ts IH]; [reflexivity|].
  cbn [find_list]. destruct x as [xty xt xtoks xits xo xd]. cbn [type].
  destruct xty; try exact IH.
  cbn [items ordered]. clear IH.
  induction xits as [|i xits IHi]; [reflexivity|].
  rewrite listParas_cons, IHi. reflexivity.
Qed.

Lemma find_list_In ts sub : find_list ts = Some sub -> In sub ts.
Proof.
  induction ts as [|x ts IH]; [discriminate|]. cbn [find_list].
  destruct (type x); try (intros H; right; exact (IH H)).
  intros H. injection H as <-. left. reflexivity.
Qed.

Lemma numberings_single_inv li ord l :
list_numberings [li] ord l ->
forall rest more, list_numberings rest ord more ->
list_numberings (li :: rest) ord (l ++ more).
Proof.
  intros H rest more Hrest.
  inversion H as [|? ? ? more0 Hleaf Hnil|? sub ? ? inner more0 Hsub Hinner Hnil];
    subst; inversion Hnil; subst.
  - simpl. now constructor.
  - rewrite app_nil_r. simpl. now apply numberings_nested with (sub := sub).
Qed.

(** A result of [collect] stays when the function returns the same where
  it returned before. *)
Lemma collect_mono (A B : Type) (f g : A -> option (list B)) l :
(forall x r, f x = Some r -> g x = Some r) ->
forall rs, collect f l = Some rs -> collect g l = Some rs.
Proof.
  intros Hfg. induction l as [|x l IH]; intros rs; [exact (fun H => H)|].
  cbn [collect]. destruct (f x) as [r|] eqn:Hf; [|discriminate].
  rewrite (Hfg _ _ Hf).
  destruct (collect f l) as [rs'|]; [|discriminate].
  rewrite (IH _ eq_refl). exact (fun H => H).
Qed.

(** Once the run expansion returns, it returns the same at every greater
  depth. *)
Lemma runs_fuel_mono : forall fuel inline st r,
inlineTokensToRuns M mm fuel inline st = Some r ->
forall fuel', fuel <= fuel' ->
inlineTokensToRuns M mm fuel' inline st = Some r.
Proof.
  induction fuel as [|fuel IH]; intros inline st r Hr fuel' Hle;
    [discriminate|].
  destruct fuel' as [|fuel']; [lia|].
  cbn [inlineTokensToRuns] in Hr |- *.
  revert Hr. apply collect_mono. intros it r0.
  assert (Hle' : fuel <= fuel') by lia.
  destruct (type it).
  all: repeat match goal with
       | |- context [match ?x with _ => _ end] => destruct x
       end.
  all: intros Hit; first [exact Hit | exact (IH _ _ _ Hit _ Hle')].
Qed.

Lemma visited_incl its its' x :
(forall y, In y its -> In y its') -> visited its x -> visited its' x.
Proof.
  intros Hincl H. destruct H as [li its Hin|li sub its x Hin Hsub Hx].
  - apply visited_here. auto.
  - apply (visited_below li sub); auto.
Qed.

Lemma items_ok_of_each its : Forall (item_ok M mm) its -> items_ok M mm its.
Proof.
  induction 1 as [|li its Hli _ IH]; intros Hret.
  - exists 0. intros fuel _ ord. exists []. repeat split; constructor.
  - destruct Hli as (f1 & H1).
    { intros x Hx. apply Hret. revert Hx. apply visited_incl.
      intros y [<-|[]]. now left. }
    destruct IH as (f2 & H2).
    { intros x Hx. apply Hret. revert Hx. apply visited_incl.
      intros y Hy. now right. }
    exists (Nat.max f1 f2). intros fuel Hfuel ord.
    destruct (H1 fuel ltac:(lia) ord) as (r & Hr & Hnum & Hlev).
    destruct (H2 fuel ltac:(lia) ord) as (rs & Hrs & Hnums & Hlevs).
    exists (r ++ rs). rewrite listParas_cons, Hr, Hrs. split; [reflexivity|].
    split.
    + rewrite map_app. now apply numberings_single_inv.
    + apply Forall_app. now split.
Qed.

Lemma every_item_ok : forall t, item_ok M mm t /\ Forall (item_ok M mm) (items t).
Proof.
  apply MdToken_ind_nested. intros ty t toks its o d Htoks Hits.
  assert (Hsub : Forall (item_ok M mm) its).
  { eapply Forall_impl; [|exact Hits]. intros x [Hx _]. exact Hx. }
  split; [|exact Hsub].
  intros Hret.
  destruct (Hret (mkTok ty t toks its o d)) as (f1 & Hf1).
  { apply visited_here. now left. }
  unfold item_text_returns in Hf1. cbn [text] in Hf1.
  destruct (inlineTokensToRuns M mm f1 (inlineTokensFromText M t) no_style)
    as [runs|] eqn:Hruns; [clear Hf1 | congruence].
  destruct (nested_list (mkTok ty t toks its o d)) as [sub|] eqn:Hnested.
  - assert (Hin : Forall (item_ok M mm) (items sub)).
    { unfold nested_list in Hnested. cbn [tokens] in Hnested.
      destruct toks as [ts|]; [|discriminate].
      apply find_list_In in Hnested. rewrite Forall_forall in Htoks.
      exact (proj2 (Htoks sub Hnested)). }
    destruct (items_ok_of_each _ Hin) as (f2 & Hf2).
    { intros x Hx. apply Hret.
      apply (visited_below (mkTok ty t toks its o d) sub);
        [now left | exact Hnested | exact Hx]. }
    exists (Nat.max f1 f2). intros fuel Hfuel ord.
    rewrite itemParas_unfold. cbn [text].
    rewrite (runs_fuel_mono _ _ _ _ Hruns fuel) by lia. rewrite Hnested.
    destruct (Hf2 fuel ltac:(lia) (ordered sub)) as (ps & Hps & Hnum & Hlev).
    rewrite Hps. eexists. split; [reflexivity|]. split.
    + cbn [map numbering]. rewrite <- (app_nil_r (map numbering ps)).
      eapply numberings_nested; eauto. constructor.
    + constructor; [|exact Hlev]. eexists. split; reflexivity.
  - exists f1. intros fuel Hfuel ord.
    rewrite itemParas_unfold. cbn [text].
    rewrite (runs_fuel_mono _ _ _ _ Hruns fuel) by lia. rewrite Hnested.
    eexists. split; [reflexivity|]. split.
    + cbn [map numbering]. apply numberings_leaf; [exact Hnested | constructor].
    + constructor; [|constructor]. eexists. split; reflexivity.
Qed.

(** C8 (as the code has it). Whenever the run expansion of the text of
  each item that [listParas] visits returns (at some depth of its calls to
  itself), [listParas] returns, from some depth on, for that list: one
  paragraph per item, in order, numbered with the reference of the item's
  own list ([numbered-list] for an ordered list, [bullet-list] otherwise),
  each followed by the paragraphs of the first list found among the item's
  tokens; and every one of these paragraphs has numbering level 0, at any
  nesting depth. *)
Theorem list_paragraphs_numbering (its : list MdToken) (ord : bool) :
(forall x, visited its x -> exists f, item_text_returns M mm f x) ->
exists fuel0, forall fuel, fuel0 <= fuel ->
exists ps,
  listParas M mm fuel its ord = Some ps
  /\ list_numberings its ord (map numbering ps)
  /\ Forall level_zero ps.
Proof.
  intros Hret.
  assert (Hall : items_ok M mm its).
  { apply items_ok_of_each. apply Forall_forall. intros li _.
    exact (proj1 (every_item_ok li)). }
  destruct (Hall Hret) as (fuel0 & H). exists fuel0.
  intros fuel Hfuel. exact (H fuel Hfuel ord).
Qed.

End ListFacts.

Lemma list_paragraphs_numbering_witness :
  exists fuel0, forall fuel, fuel0 <= fuel ->
  exists ps,
    listParas (one_block_marked []) [] fuel [outer_item] false = Some ps
    /\ list_numberings [outer_item] false (map numbering ps)
    /\ Forall level_zero ps.
Proof.
  apply (list_paragraphs_numbering (one_block_marked []) [] [outer_item] false).
  intros x _. exists 1. unfold item_text_returns.
  change (inlineTokensFromText (one_block_marked []) (text x))
    with [text_node (text x)].
  rewrite (runs_of_plain_text (one_block_marked []) [] 0 (text x) (text x)
             no_style eq_refl).
  discriminate.
Defined.

(** C8, counterexample: the item [b] of the nested list sits one level
    below the item [a], and its paragraph has numbering level 0 like the
    paragraph of [a]. *)
Lemma nested_item_numbered_at_level_zero :
  option_map (map numbering)
    (listParas (one_block_marked []) [] 1 [outer_item] false)
  = Some [Some (mkNumbering "bullet-list" 0);
          Some (mkNumbering "numbered-list" 0)].
Proof. reflexivity. Qed.

(* ================================================================== *)
(** * Further properties of the accent normaliser *)
(* ================================================================== *)

Lemma no_backslash_clean name table s :
  Forall (fun c => c <> backslash) s -> clean name table s.
Proof.
  intros Hs t [p ->] l rest Hm. apply Forall_app in Hs. destruct Hs as [_ Ht].
  destruct t as [|c t]; [discriminate|]. inversion Ht; subst.
  rewrite match_here_head in Hm by assumption. discriminate.
Qed.

(** X1. A text without backslash is left as it is by the normaliser. *)
Theorem normalize_without_backslash (s : str) :
  Forall (fun c => c <> backslash) s -> normalizeAccentsToUnicode s = s.
Proof.
  intros Hs. apply normal_fixed.
  split; [|split; [|split]]; now apply no_backslash_clean.
Qed.

Lemma normalize_without_backslash_witness :
  normalizeAccentsToUnicode (lit "x^2 {a} $y$") = lit "x^2 {a} $y$".
Proof.
  apply (normalize_without_backslash (lit "x^2 {a} $y$")).
  repeat constructor; discriminate.
Defined.

Lemma space_not_backslash ws :
  forallb is_space ws = true -> Forall (fun c => c <> backslash) ws.
Proof.
  intros H. rewrite forallb_forall in H. apply Forall_forall.
  intros c Hc ->. apply H in Hc. discriminate Hc.
Qed.

(** The pattern of a macro matches the macro applied to a letter. *)
Lemma run_application p : forall ws l rest,
  forallb is_space ws = true -> is_letter l = true ->
  run (AtName p) (p ++ ws ++ [lbrace; l; rbrace] ++ rest) = Some (l, rest).
Proof.
  induction p as [|a p IH]; intros ws l rest Hws Hl.
  - cbn [app]. induction ws as [|w ws IHws].
    + cbn [app run step].
      replace (is_space lbrace) with false by reflexivity.
      rewrite N.eqb_refl. cbn [run step]. rewrite Hl. cbn [run step].
      now rewrite N.eqb_refl.
    + cbn [forallb] in Hws. apply andb_true_iff in Hws. destruct Hws as [Hw Hws].
      cbn [app run step]. rewrite Hw. now apply IHws.
  - cbn [app run step]. rewrite N.eqb_refl. now apply IH.
Qed.

Lemma match_here_application name ws l :
  forallb is_space ws = true -> is_letter l = true ->
  match_here name (macro_application (backslash :: name) ws l) = Some (l, []).
Proof.
  intros Hws Hl. unfold macro_application. cbn [app match_here].
  unfold backslash at 1. rewrite N.eqb_refl.
  now apply (run_application name ws l []).
Qed.

Lemma application_body name ws l :
  forallb is_letter name = true -> forallb is_space ws = true ->
  is_letter l = true ->
  Forall (fun c => c <> backslash) (name ++ ws ++ [lbrace; l; rbrace]).
Proof.
  intros Hn Hws Hl. apply Forall_app. split.
  - rewrite forallb_forall in Hn. apply Forall_forall.
    intros c Hc ->. apply Hn in Hc. discriminate Hc.
  - apply Forall_app. split; [now apply space_not_backslash|].
    repeat constructor; try discriminate. intros ->. discriminate Hl.
Qed.

(** The pass of a macro on an application of itself. *)
Lemma replace_all_own name table ws l :
  forallb is_letter name = true -> forallb is_space ws = true ->
  is_letter l = true ->
  replace_all name table (macro_application (backslash :: name) ws l)
  = match lookup table l with
    | Some r => r
    | None => macro_application (backslash :: name) ws l
    end.
Proof.
  intros Hn Hws Hl.
  rewrite (replace_all_hit _ _ _ _ _ (match_here_application name ws l Hws Hl)).
  rewrite replace_all_nil, app_nil_r. cbn [length]. rewrite Nat.sub_0_r.
  now rewrite firstn_all.
Qed.

(** The pass of a macro on a text that holds a single backslash, at its
    head, where the pattern does not match. *)
Lemma replace_all_other name table t :
  match_here name (backslash :: t) = None ->
  Forall (fun c => c <> backslash) t ->
  replace_all name table (backslash :: t) = backslash :: t.
Proof.
  intros Hm Ht. rewrite replace_all_miss by assumption. f_equal.
  rewrite <- (app_nil_r t) at 1. rewrite replace_all_inside by assumption.
  now rewrite replace_all_nil, app_nil_r.
Qed.

Lemma replace_all_no_backslash name table r :
  Forall (fun c => c <> backslash) r -> replace_all name table r = r.
Proof.
  intros Hr. rewrite <- (app_nil_r r) at 1.
  rewrite replace_all_inside by assumption.
  now rewrite replace_all_nil, app_nil_r.
Qed.

Lemma entry_no_backslash table l r :
  table_ok table = true -> lookup table l = Some r ->
  Forall (fun c => c <> backslash) r.
Proof.
  intros Hok Hl. pose proof (lookup_ok _ _ _ Hok Hl) as Hsafe.
  apply andb_true_iff in Hsafe. destruct Hsafe as [_ Hall].
  rewrite forallb_forall in Hall. apply Forall_forall.
  intros c Hc ->. apply Hall in Hc. discriminate Hc.
Qed.

Ltac pass_elsewhere ws l Hws Hl :=
  match goal with
  | |- context [replace_all ?n ?t (backslash :: ?m ++ ws ++ [lbrace; l; rbrace])] =>
      rewrite (replace_all_other n t (m ++ ws ++ [lbrace; l; rbrace]) eq_refl
                 (application_body m ws l eq_refl Hws Hl))
  end.

Ltac pass_own ws l Hws Hl :=
  match goal with
  | |- context [replace_all ?n ?t (backslash :: ?n ++ ws ++ [lbrace; l; rbrace])] =>
      change (backslash :: n ++ ws ++ [lbrace; l; rbrace])
        with (macro_application (backslash :: n) ws l);
      rewrite (replace_all_own n t ws l eq_refl Hws Hl);
      unfold macro_application; cbn [app]
  end.

(** X2. For every macro of the table, a macro applied to a letter, with
    any blanks before the brace, is rewritten to the entry of the letter in
    the macro's table; when the letter has no entry the text is left as it
    is, macro and braces included. *)
Theorem accent_macro_applied (macro : str) (table : list (char * str))
  (ws : str) (l : char) :
  In (macro, table) LATEX_ACCENT_MAP ->
  forallb is_space ws = true -> is_letter l = true ->
  normalizeAccentsToUnicode (macro_application macro ws l)
  = match lookup table l with
    | Some r => r
    | None => macro_application macro ws l
    end.
Proof.
  intros Hin Hws Hl. rewrite normalize_unfold.
  pose proof hat_ok as Hh. pose proof bar_ok as Hb.
  pose proof tilde_ok as Ht. pose proof dot_ok as Hd.
  destruct Hin as [H|[H|[H|[H|[]]]]]; injection H as <- <-.
  - change (macro_application _ ws l)
      with (backslash :: lit "hat" ++ ws ++ [lbrace; l; rbrace]).
    pass_own ws l Hws Hl.
    destruct (lookup hat_table l) as [r|] eqn:Hlook.
    + now rewrite !(replace_all_no_backslash _ _ r)
        by exact (entry_no_backslash _ _ _ Hh Hlook).
    + now repeat pass_elsewhere ws l Hws Hl.
  - change (macro_application _ ws l)
      with (backslash :: lit "bar" ++ ws ++ [lbrace; l; rbrace]).
    pass_elsewhere ws l Hws Hl. pass_own ws l Hws Hl.
    destruct (lookup bar_table l) as [r|] eqn:Hlook.
    + now rewrite !(replace_all_no_backslash _ _ r)
        by exact (entry_no_backslash _ _ _ Hb Hlook).
    + now repeat pass_elsewhere ws l Hws Hl.
  - change (macro_application _ ws l)
      with (backslash :: lit "tilde" ++ ws ++ [lbrace; l; rbrace]).
    do 2 pass_elsewhere ws l Hws Hl. pass_own ws l Hws Hl.
    destruct (lookup tilde_table l) as [r|] eqn:Hlook.
    + now rewrite !(replace_all_no_backslash _ _ r)
        by exact (entry_no_backslash _ _ _ Ht Hlook).
    + now repeat pass_elsewhere ws l Hws Hl.
  - change (macro_application _ ws l)
      with (backslash :: lit "dot" ++ ws ++ [lbrace; l; rbrace]).
    do 3 pass_elsewhere ws l Hws Hl. pass_own ws l Hws Hl.
    now destruct (lookup dot_table l).
Qed.

Lemma accent_macro_applied_witness :
  normalizeAccentsToUnicode (macro_application (lit "\bar") (lit "  ") (chr "x"))
  = [120%N; 772%N].
Proof.
  exact (accent_macro_applied (lit "\bar") bar_table (lit "  ") (chr "x")
           (or_intror (or_introl eq_refl)) eq_refl eq_refl).
Defined.

Lemma count_dollar_app a b :
  count_dollar (a ++ b) = count_dollar a + count_dollar b.
Proof. unfold count_dollar. now rewrite filter_app, length_app. Qed.

Lemma count_dollar_none s :
  Forall (fun c => c <> dollar) s -> count_dollar s = 0.
Proof.
  unfold count_dollar. induction 1 as [|c s Hc _ IH]; [reflexivity|].
  cbn [filter]. destruct (N.eqb_spec c dollar); [contradiction | exact IH].
Qed.

(** What a run of the matcher consumes holds no dollar. *)
Lemma run_no_dollar s : forall st l rest,
  stage_ok st -> run st s = Some (l, rest) ->
  exists b, s = b ++ rest /\ b <> [] /\ Forall (fun c => c <> dollar) b.
Proof.
  induction s as [|c s IH]; simpl; intros st l rest Hok H; [discriminate|].
  assert (Hc : c <> dollar).
  { intros ->. rewrite (foreign_reject st dollar Hok eq_refl) in H. discriminate. }
  destruct (step st c) as [st'|l'|] eqn:Hs; [| |discriminate].
  - destruct (IH _ _ _ (step_ok _ _ _ Hok Hs) H) as (b & -> & _ & Hb).
    exists (c :: b). repeat split; [discriminate | now constructor].
  - inversion H; subst. exists [c]. repeat split; [discriminate|].
    now repeat constructor.
Qed.

Lemma match_here_no_dollar name s l rest :
  forallb is_letter name = true ->
  match_here name s = Some (l, rest) ->
  exists b, s = backslash :: b ++ rest /\ b <> []
            /\ Forall (fun c => c <> dollar) b.
Proof.
  intros Hn H. destruct s as [|c s]; simpl in H; [discriminate|].
  destruct (N.eqb_spec c backslash) as [->|]; [|discriminate].
  destruct (run_no_dollar s (AtName name) l rest Hn H) as (b & -> & Hne & Hb).
  exists b. auto.
Qed.

Section PassMeasures.
Variable name : str.
Variable table : list (char * str).
Hypothesis name_letters : forallb is_letter name = true.
Hypothesis table_safe : table_ok table = true.
Hypothesis table_is_short : table_short table = true.

Lemma lookup_short l r : lookup table l = Some r -> length r <= 2.
Proof.
  clear table_safe. unfold table_short in table_is_short.
  induction table as [|[k v] tbl IH]; simpl; [discriminate|].
  simpl in table_is_short. apply andb_true_iff in table_is_short.
  destruct table_is_short as [Hv Ht].
  destruct (l =? k)%N.
  - intros H. inversion H; subst. now apply Nat.leb_le.
  - now apply IH.
Qed.

Lemma replace_all_count_dollar : forall n s, length s <= n ->
  count_dollar (replace_all name table s) = count_dollar s.
Proof.
  induction n as [|n IH]; intros s Hn.
  - destruct s; [reflexivity | simpl in Hn; lia].
  - destruct s as [|c tl]; [reflexivity|].
    destruct (unmapped_dec name table (c :: tl))
      as [Hu|(l & rest & r & Hm & Hl)].
    + rewrite (replace_all_copy _ _ name_letters _ _ Hu).
      change (c :: replace_all name table tl)
        with ([c] ++ replace_all name table tl).
      change (c :: tl) with ([c] ++ tl).
      rewrite !count_dollar_app, IH by (simpl in Hn; lia). reflexivity.
    + rewrite (replace_all_mapped _ _ _ _ _ _ Hm Hl).
      pose proof (match_here_length _ _ _ _ Hm) as Hlen.
      destruct (match_here_no_dollar _ _ _ _ name_letters Hm)
        as (b & Hs & _ & Hb).
      rewrite Hs.
      change (backslash :: b ++ rest) with ([backslash] ++ b ++ rest).
      rewrite !count_dollar_app, IH by (simpl in Hn, Hlen; lia).
      rewrite (count_dollar_none b Hb).
      rewrite (count_dollar_none r); [reflexivity|].
      pose proof (lookup_ok _ _ _ table_safe Hl) as Hsafe.
      apply andb_true_iff in Hsafe. destruct Hsafe as [_ Hall].
      rewrite forallb_forall in Hall. apply Forall_forall.
      intros y Hy ->. apply Hall in Hy. discriminate Hy.
Qed.

Lemma replace_all_length : forall n s, length s <= n ->
  length (replace_all name table s) <= length s.
Proof.
  induction n as [|n IH]; intros s Hn.
  - destruct s; [apply le_n | simpl in Hn; lia].
  - destruct s as [|c tl]; [apply le_n|].
    destruct (unmapped_dec name table (c :: tl))
      as [Hu|(l & rest & r & Hm & Hl)].
    + rewrite (replace_all_copy _ _ name_letters _ _ Hu). simpl.
      specialize (IH tl). simpl in Hn. lia.
    + rewrite (replace_all_mapped _ _ _ _ _ _ Hm Hl).
      pose proof (match_here_length _ _ _ _ Hm) as Hlen.
      destruct (match_here_no_dollar _ _ _ _ name_letters Hm)
        as (b & Hs & Hne & _).
      pose proof (lookup_short _ _ Hl) as Hr.
      specialize (IH rest). rewrite Hs in *. simpl in *.
      rewrite length_app in *.
      assert (0 < length b) by (destruct b; [congruence | simpl; lia]).
      rewrite ?length_app. lia.
Qed.
End PassMeasures.

Lemma hat_short : table_short hat_table = true. Proof. reflexivity. Qed.
Lemma bar_short : table_short bar_table = true. Proof. reflexivity. Qed.
Lemma tilde_short : table_short tilde_table = true. Proof. reflexivity. Qed.
Lemma dot_short : table_short dot_table = true. Proof. reflexivity. Qed.

(** X3. Normalisation neither removes nor adds a dollar sign: the text
    keeps the number of its math delimiters. *)
Theorem normalize_keeps_dollars (s : str) :
  count_dollar (normalizeAccentsToUnicode s) = count_dollar s.
Proof.
  rewrite normalize_unfold.
  rewrite (replace_all_count_dollar _ _ dot_letters dot_ok _ _ (le_n _)).
  rewrite (replace_all_count_dollar _ _ tilde_letters tilde_ok _ _ (le_n _)).
  rewrite (replace_all_count_dollar _ _ bar_letters bar_ok _ _ (le_n _)).
  apply (replace_all_count_dollar _ _ hat_letters hat_ok _ _ (le_n _)).
Qed.

(** X4. Normalisation never makes a text longer. *)
Theorem normalize_not_longer (s : str) :
  length (normalizeAccentsToUnicode s) <= length s.
Proof.
  rewrite normalize_unfold.
  pose proof (replace_all_length _ _ hat_letters hat_short _ s (le_n _)) as H1.
  pose proof (replace_all_length _ _ bar_letters bar_short _ _ (le_n _)
    : length (replace_all (lit "bar") bar_table
                (replace_all (lit "hat") hat_table s)) <= _) as H2.
  pose proof (replace_all_length _ _ tilde_letters tilde_short _ _ (le_n _)
    : length (replace_all (lit "tilde") tilde_table
                (replace_all (lit "bar") bar_table
                   (replace_all (lit "hat") hat_table s))) <= _) as H3.
  pose proof (replace_all_length _ _ dot_letters dot_short _ _ (le_n _)
    : length (replace_all (lit "dot") dot_table
                (replace_all (lit "tilde") tilde_table
                   (replace_all (lit "bar") bar_table
                      (replace_all (lit "hat") hat_table s)))) <= _) as H4.
  lia.
Qed.

(* ================================================================== *)
(** * Further properties of the segmenter *)
(* ================================================================== *)

Lemma digits_inj u : forall v, digits u = digits v -> u = v.
Proof.
  induction u; intros v H; destruct v; simpl in H;
    try discriminate; try reflexivity;
    injection H as H; f_equal; auto.
Qed.

Lemma decimal_inj j k : decimal j = decimal k -> j = k.
Proof.
  intros H. apply digits_inj in H.
  now apply DecimalNat.Unsigned.to_uint_inj.
Qed.

Lemma counters_distinct j k a b :
  counter_ok j a -> counter_ok k b -> raw_id a = raw_id b -> j = k.
Proof.
  destruct a, b; simpl; intros -> -> H; unfold text_id, math_id in H;
    try discriminate H;
    apply app_inv_head in H; now apply decimal_inj.
Qed.

Lemma tokenize_loop_counters : forall fuel i s k tok,
  nth_error (tokenize_loop fuel i s) k = Some tok -> counter_ok (i + k) tok.
Proof.
  induction fuel as [|fuel IH]; intros i s k tok H.
  - destruct k; discriminate.
  - cbn [tokenize_loop] in H. destruct (regex_exec s) as [m|].
    + destruct (before m) as [|c pre].
      * destruct k as [|k]; simpl in H.
        -- injection H as <-. simpl. now rewrite Nat.add_0_r.
        -- apply IH in H. now rewrite Nat.add_succ_r.
      * destruct k as [|[|k]]; simpl in H.
        -- injection H as <-. simpl. now rewrite Nat.add_0_r.
        -- injection H as <-. simpl. now rewrite Nat.add_1_r.
        -- apply IH in H. now rewrite !Nat.add_succ_r.
    + destruct s as [|c s]; [destruct k; discriminate|].
      destruct k as [|k]; simpl in H; [|destruct k; discriminate].
      injection H as <-. simpl. now rewrite Nat.add_0_r.
Qed.

(** X5. The ids of the segmenter follow one counter: the token at
    position [k] has id [t-k] or [m-k] according to its kind; so no two
    tokens of one run share an id. *)
Theorem tokenize_ids (s : str) :
  (forall k tok, nth_error (tokenize s) k = Some tok -> counter_ok k tok)
  /\ NoDup (map raw_id (tokenize s)).
Proof.
  assert (Hc : forall k tok,
             nth_error (tokenize s) k = Some tok -> counter_ok k tok).
  { intros k tok H. exact (tokenize_loop_counters _ 0 s k tok H). }
  split; [exact Hc|].
  apply NoDup_nth_error. intros i j Hi Heq.
  rewrite !nth_error_map in Heq. rewrite length_map in Hi.
  destruct (nth_error (tokenize s) i) as [a|] eqn:Ha.
  - destruct (nth_error (tokenize s) j) as [b|] eqn:Hb; [|discriminate].
    injection Heq as Heq.
    exact (counters_distinct i j a b (Hc _ _ Ha) (Hc _ _ Hb) Heq).
  - apply nth_error_None in Ha. lia.
Qed.

Lemma strip_prefix_app_some p : forall s r y,
  strip_prefix p s = Some r -> strip_prefix p (s ++ y) = Some (r ++ y).
Proof.
  induction p as [|a p IH]; simpl; intros s r y H.
  - now injection H as <-.
  - destruct s as [|c s]; [discriminate|]. simpl.
    destruct (c =? a)%N; [auto | discriminate].
Qed.

Lemma lazy_block_app s : forall x rest y,
  lazy_block s = Some (x, rest) -> lazy_block (s ++ y) = Some (x, rest ++ y).
Proof.
  induction s as [|c s IH]; intros x rest y H; [discriminate|].
  cbn [lazy_block] in H. cbn [app lazy_block].
  destruct (strip_prefix [dollar; dollar] (c :: s)) as [r|] eqn:Hp.
  - injection H as <- <-.
    change (c :: s ++ y) with ((c :: s) ++ y).
    now rewrite (strip_prefix_app_some _ _ _ y Hp).
  - destruct (lazy_block s) as [[x' r']|] eqn:Hl; [|discriminate].
    injection H as <- <-. rewrite (IH _ _ y eq_refl).
    destruct s as [|d s]; [discriminate|].
    simpl in Hp |- *.
    destruct (c =? dollar)%N; [|reflexivity].
    destruct (d =? dollar)%N; [discriminate | reflexivity].
Qed.

Lemma match_block_app s x rest y :
  match_block s = Some (x, rest) -> match_block (s ++ y) = Some (x, rest ++ y).
Proof.
  unfold match_block. intros H.
  destruct (strip_prefix [dollar; dollar] s) as [[|c s']|] eqn:Hp;
    try discriminate.
  rewrite (strip_prefix_app_some _ _ _ y Hp). cbn [app].
  destruct (lazy_block s') as [[x' r']|] eqn:Hl; [|discriminate].
  injection H as <- <-. now rewrite (lazy_block_app _ _ _ y Hl).
Qed.

Lemma lazy_inline_app s : forall x rest y,
  lazy_inline s = Some (x, rest) -> lazy_inline (s ++ y) = Some (x, rest ++ y).
Proof.
  induction s as [|c s IH]; intros x rest y H; [discriminate|].
  cbn [lazy_inline] in H. cbn [app lazy_inline].
  destruct (c =? dollar)%N; [now injection H as <- <-|].
  destruct (inline_char c); [|discriminate].
  destruct (lazy_inline s) as [[x' r']|] eqn:Hl; [|discriminate].
  injection H as <- <-. now rewrite (IH _ _ y eq_refl).
Qed.

Lemma match_inline_app s x rest y :
  match_inline s = Some (x, rest) -> match_inline (s ++ y) = Some (x, rest ++ y).
Proof.
  unfold match_inline. intros H.
  destruct s as [|d [|c s']]; try discriminate. cbn [app].
  destruct ((d =? dollar)%N && inline_char c); [|discriminate].
  destruct (lazy_inline s') as [[x' r']|] eqn:Hl; [|discriminate].
  injection H as <- <-. now rewrite (lazy_inline_app _ _ _ y Hl).
Qed.

(** No span lies in the text before the leftmost match. *)
Lemma regex_exec_before s : forall m,
  regex_exec s = Some m -> regex_exec (before m) = None.
Proof.
  induction s as [|c s IH]; intros m H; [discriminate|].
  pose proof (regex_exec_sound _ _ H) as Hs.
  cbn [regex_exec] in H.
  destruct (match_block (c :: s)) as [[x rest]|] eqn:Hb.
  { injection H as <-. reflexivity. }
  destruct (match_inline (c :: s)) as [[x rest]|] eqn:Hi.
  { injection H as <-. reflexivity. }
  destruct (regex_exec s) as [m'|] eqn:Hm; [|discriminate].
  injection H as <-. cbn [before] in *.
  cbn [regex_exec]. rewrite (IH m' eq_refl).
  destruct (match_block (c :: before m')) as [[x rest]|] eqn:Hb'.
  { apply (match_block_app _ _ _ (match_source m' ++ after m')) in Hb'.
    cbn [group1 group2 after] in Hs. unfold match_source in Hs.
    cbn [group1 group2] in Hs. fold (match_source m') in Hs.
    rewrite <- Hs in Hb'. congruence. }
  destruct (match_inline (c :: before m')) as [[x rest]|] eqn:Hi'.
  { apply (match_inline_app _ _ _ (match_source m' ++ after m')) in Hi'.
    cbn [group1 group2 after] in Hs. unfold match_source in Hs.
    cbn [group1 group2] in Hs. fold (match_source m') in Hs.
    rewrite <- Hs in Hi'. congruence. }
  reflexivity.
Qed.

Lemma lazy_inline_content s : forall x rest,
  lazy_inline s = Some (x, rest) -> inline_content x.
Proof.
  induction s as [|c s IH]; intros x rest H; [discriminate|].
  cbn [lazy_inline] in H.
  destruct (N.eqb_spec c dollar) as [->|Hd].
  - injection H as <- <-. constructor.
  - destruct (inline_char c) eqn:Hc; [|discriminate].
    destruct (lazy_inline s) as [[x' r']|] eqn:Hl; [|discriminate].
    injection H as <- <-. constructor; [|eapply IH; eauto].
    split; [|exact Hd]. intros ->. discriminate Hc.
Qed.

Lemma match_inline_content s x rest :
  match_inline s = Some (x, rest) -> inline_content x.
Proof.
  unfold match_inline. intros H.
  destruct s as [|d [|c s']]; try discriminate.
  destruct (N.eqb_spec d dollar) as [->|]; [|discriminate].
  destruct (inline_char c) eqn:Hc; [|discriminate]. simpl in H.
  destruct (lazy_inline s') as [[x' r']|] eqn:Hl; [|discriminate].
  injection H as <- <-. constructor; [|eapply lazy_inline_content; eauto].
  unfold inline_char in Hc. apply negb_true_iff, orb_false_iff in Hc.
  destruct Hc as [Hn Hd]. split; intros ->; discriminate.
Qed.

(** The lazy content of a block span stops at the first [$$]. *)
Lemma lazy_block_minimal s : forall x rest,
  lazy_block s = Some (x, rest) -> ~ occurs [dollar; dollar] (x ++ [dollar]).
Proof.
  induction s as [|c s IH]; intros x rest H; [discriminate|].
  cbn [lazy_block] in H.
  destruct (strip_prefix [dollar; dollar] (c :: s)) as [r|] eqn:Hp.
  - injection H as <- <-. intros Hocc. apply occursb_spec in Hocc.
    discriminate Hocc.
  - destruct (lazy_block s) as [[x' r']|] eqn:Hl; [|discriminate].
    injection H as <- <-. intros Hocc. cbn [app] in Hocc.
    apply occurs_head_inv in Hocc. destruct Hocc as [[r Hr]|Hocc].
    + apply lazy_block_sound in Hl. subst s.
      injection Hr as -> Hr.
      destruct x' as [|d x']; simpl in Hr, Hp.
      * discriminate Hp.
      * injection Hr as -> _. discriminate Hp.
    + exact (IH _ _ eq_refl Hocc).
Qed.

Lemma match_block_minimal s x rest :
  match_block s = Some (x, rest) ->
  ~ occurs [dollar; dollar] (tl x ++ [dollar]).
Proof.
  unfold match_block. intros H.
  destruct (strip_prefix [dollar; dollar] s) as [[|c s']|]; try discriminate.
  destruct (lazy_block s') as [[x' r']|] eqn:Hl; [|discriminate].
  injection H as <- <-. cbn [tl]. eapply lazy_block_minimal; eauto.
Qed.

(** The latex token a match gives is well formed. *)
Lemma regex_exec_wellformed s : forall m id,
  regex_exec s = Some m ->
  raw_wellformed
    (RawLatex id (coalesce (group1 m) (group2 m)) (truthy (group1 m))).
Proof.
  induction s as [|c s IH]; intros m id H; [discriminate|].
  cbn [regex_exec] in H.
  destruct (match_block (c :: s)) as [[x rest]|] eqn:Hb.
  { injection H as <-. cbn [group1 group2 coalesce].
    pose proof (match_block_sound _ _ _ Hb) as [Hx _].
    destruct x as [|d x]; [congruence|]. cbn [truthy raw_wellformed].
    split; [discriminate|]. exact (match_block_minimal _ _ _ Hb). }
  destruct (match_inline (c :: s)) as [[x rest]|] eqn:Hi.
  { injection H as <-. cbn [group1 group2 coalesce truthy raw_wellformed].
    pose proof (match_inline_sound _ _ _ Hi) as [Hx _].
    split; [exact Hx | exact (match_inline_content _ _ _ Hi)]. }
  destruct (regex_exec s) as [m'|]; [|discriminate].
  injection H as <-. cbn [group1 group2]. now apply IH.
Qed.

Lemma tokenize_loop_wellformed : forall fuel i s,
  Forall raw_wellformed (tokenize_loop fuel i s).
Proof.
  induction fuel as [|fuel IH]; intros i s; [constructor|].
  cbn [tokenize_loop]. destruct (regex_exec s) as [m|] eqn:Hm.
  - pose proof (regex_exec_before _ _ Hm) as Hbefore.
    destruct (before m) as [|c pre]; repeat constructor;
      try discriminate; try exact Hbefore;
      try (now apply (regex_exec_wellformed s)); apply IH.
  - destruct s as [|c s]; repeat constructor; [discriminate | exact Hm].
Qed.

(** X6. The source of every math token of the segmenter is not empty;
    that of an inline token holds no newline and no dollar; that of a block
    token ends at the first [$$] that can close the span. *)
Theorem math_tokens_wellformed (s id l : str) (dm : bool) :
  In (RawLatex id l dm) (tokenize s) ->
  l <> []
  /\ (dm = false -> inline_content l)
  /\ (dm = true -> ~ occurs [dollar; dollar] (tl l ++ [dollar])).
Proof.
  intros Hin.
  pose proof (tokenize_loop_wellformed (S (length s)) 0 s) as Hall.
  rewrite Forall_forall in Hall. specialize (Hall _ Hin).
  destruct dm; simpl in Hall; destruct Hall as [Hne Hc];
    (split; [exact Hne|]); split; intros Hdm;
    try discriminate Hdm; exact Hc.
Qed.

Lemma math_tokens_wellformed_witness :
  lit "5 and " <> []
  /\ (false = false -> inline_content (lit "5 and "))
  /\ (false = true -> ~ occurs [dollar; dollar] (tl (lit "5 and ") ++ [dollar])).
Proof.
  apply (math_tokens_wellformed (lit "cost $5 and $$x$$") (lit "m-1")
           (lit "5 and ") false).
  right. left. reflexivity.
Defined.

(** X7. A text token of the segmenter is not empty and holds no math
    span: segmenting its text again gives that text back as one text
    token. *)
Theorem text_tokens_stable (s id t : str) :
  In (RawText id t) (tokenize s) ->
  t <> [] /\ tokenize t = [RawText (text_id 0) t].
Proof.
  intros Hin.
  pose proof (tokenize_loop_wellformed (S (length s)) 0 s) as Hall.
  rewrite Forall_forall in Hall. specialize (Hall _ Hin).
  destruct Hall as [Hne Hnone]. split; [exact Hne|].
  rewrite (tokenize_none _ Hnone). destruct t; [congruence | reflexivity].
Qed.

Lemma text_tokens_stable_witness :
  lit "$" <> [] /\ tokenize (lit "$") = [RawText (text_id 0) (lit "$")].
Proof.
  apply (text_tokens_stable (lit "cost $5 and $$x$$") (lit "t-3") (lit "$")).
  right. right. right. left. reflexivity.
Defined.

(* ================================================================== *)
(** * Further properties of the weaver *)
(* ================================================================== *)

Lemma split_loop_nonempty fuel sep s : split_loop fuel sep s <> [].
Proof.
  destruct fuel; cbn [split_loop]; [discriminate|].
  destruct (find_sub sep s) as [[a rest]|]; discriminate.
Qed.

Lemma join_cons sep p ps :
  ps <> [] -> join sep (p :: ps) = p ++ sep ++ join sep ps.
Proof. destruct ps; [congruence | reflexivity]. Qed.

Lemma find_sub_length sep s a rest :
  sep <> [] -> find_sub sep s = Some (a, rest) -> length rest < length s.
Proof.
  intros Hsep H. apply find_sub_sound in H.
  apply (f_equal (@length char)) in H. rewrite !length_app in H.
  assert (0 < length sep) by (destruct sep; [congruence | simpl; lia]). lia.
Qed.

Lemma split_loop_join sep : sep <> [] -> forall fuel s,
  length s < fuel -> join sep (split_loop fuel sep s) = s.
Proof.
  intros Hsep. induction fuel as [|fuel IH]; intros s Hf; [lia|].
  cbn [split_loop]. destruct (find_sub sep s) as [[a rest]|] eqn:Hfind.
  - rewrite join_cons by apply split_loop_nonempty.
    pose proof (find_sub_length _ _ _ _ Hsep Hfind).
    rewrite IH by lia. symmetry. now apply find_sub_sound.
  - reflexivity.
Qed.

Lemma join_units s : join [] (map (fun c : char => [c]) s) = s.
Proof.
  induction s as [|c s IH]; [reflexivity|]. cbn [map].
  destruct s as [|d s]; [reflexivity|].
  rewrite join_cons by discriminate. now rewrite IH.
Qed.

(** X8. Splitting a string at a separator and joining the pieces with the
    same separator gives the string back, for every separator, the empty
    one included. *)
Theorem split_join_roundtrip (sep s : str) : join sep (split sep s) = s.
Proof.
  destruct sep as [|c sep]; [apply join_units|].
  apply split_loop_join; [discriminate | lia].
Qed.

Lemma find_sub_absent sep s : ~ occurs sep s -> find_sub sep s = None.
Proof.
  intros Hno. destruct (find_sub sep s) as [[a rest]|] eqn:H; [|reflexivity].
  exfalso. apply Hno. apply find_sub_sound in H. now exists a, rest.
Qed.

(** Where the placeholder does not occur, [split] and [join] change nothing. *)
Lemma split_join_absent ph r s :
  ph <> [] -> ~ occurs ph s -> join r (split ph s) = s.
Proof.
  intros Hph Hno. destruct ph as [|c ph]; [congruence|].
  unfold split. cbn [split_loop]. now rewrite (find_sub_absent _ _ Hno).
Qed.

(** X9. When the HTML that [marked] returns holds the placeholder of no
    math token, the weaver returns that HTML unchanged, whatever the
    replacer. *)
Theorem weaver_without_placeholder (marked_parse : str -> str)
  (replacer : MathToken -> str) (toks : list Token) :
  (forall t, In (MathTok t) toks ->
     ~ occurs (mathPlaceholder (math_ident t))
         (marked_parse (weaver_combined toks))) ->
  renderMarkdownWithPlaceholders marked_parse toks replacer
  = marked_parse (weaver_combined toks).
Proof.
  rewrite render_unfold. generalize (marked_parse (weaver_combined toks)).
  intros html. induction toks as [|t toks IH]; intros Hno; [reflexivity|].
  cbn [fold_left]. destruct t as [id text|m]; cbn [substitute].
  - apply IH. intros t Ht. apply Hno. now right.
  - rewrite split_join_absent;
      [|apply mathPlaceholder_nonempty | apply Hno; now left].
    apply IH. intros t Ht. apply Hno. now right.
Qed.

Lemma weaver_without_placeholder_witness :
  renderMarkdownWithPlaceholders (fun _ => lit "<p>lost</p>")
    [TextToken (lit "t-0") (lit "a "); MathTok plain_token] previewReplacer
  = lit "<p>lost</p>".
Proof.
  apply (weaver_without_placeholder (fun _ => lit "<p>lost</p>") previewReplacer
           [TextToken (lit "t-0") (lit "a "); MathTok plain_token]).
  intros t [H|[H|[]]]; [discriminate H|]. injection H as <-.
  intros Hocc. apply occursb_spec in Hocc. discriminate Hocc.
Defined.

Lemma occurs_length p s : occurs p s -> length p <= length s.
Proof. intros (a & b & ->). rewrite !length_app. lia. Qed.

(** The preview replacer wraps the rendered HTML in a tag, so it holds a
    placeholder only if the rendered HTML does. *)
Lemma previewReplacer_wrapped t :
  exists mid, wrapped (previewReplacer t) mid.
Proof.
  unfold previewReplacer, wrapped. destruct (displayMode t).
  - exists (lit "div>" ++ katexHtml t ++ lit "</div").
    cbn [lit app]. rewrite <- !app_assoc. reflexivity.
  - exists (lit "span>" ++ katexHtml t ++ lit "</span").
    cbn [lit app]. rewrite <- !app_assoc. reflexivity.
Qed.

Lemma previewReplacer_occurs id t :
  angle_free id ->
  occurs (mathPlaceholder id) (previewReplacer t) ->
  occurs (mathPlaceholder id) (katexHtml t).
Proof.
  intros Hid Hocc.
  destruct (mathPlaceholder_angle_free id Hid) as [Hlt Hgt].
  assert (Hlen : 12 <= length (mathPlaceholder id)).
  { unfold mathPlaceholder. rewrite !length_app. simpl. lia. }
  remember (mathPlaceholder id) as w eqn:Hw. clear Hw.
  unfold previewReplacer in Hocc. destruct (displayMode t).
  - change (lit "<div>" ++ katexHtml t ++ lit "</div>")
      with (lit "<div" ++ gt_sign :: (katexHtml t ++ lt_sign :: lit "/div>"))
      in Hocc.
    apply occurs_across_delim in Hocc; [|exact Hgt].
    destruct Hocc as [H|H]; [apply occurs_length in H; simpl in H; lia|].
    apply occurs_across_delim in H; [|exact Hlt].
    destruct H as [H|H]; [exact H|].
    apply occurs_length in H; simpl in H; lia.
  - change (lit "<span>" ++ katexHtml t ++ lit "</span>")
      with (lit "<span" ++ gt_sign :: (katexHtml t ++ lt_sign :: lit "/span>"))
      in Hocc.
    apply occurs_across_delim in Hocc; [|exact Hgt].
    destruct Hocc as [H|H]; [apply occurs_length in H; simpl in H; lia|].
    apply occurs_across_delim in H; [|exact Hlt].
    destruct H as [H|H]; [exact H|].
    apply occurs_length in H; simpl in H; lia.
Qed.

(** X10. The preview HTML holds the placeholder of no math token of the
    sequence, as soon as the ids hold no angle bracket and no rendered
    formula holds a placeholder of the sequence. *)
Theorem preview_leaves_no_placeholder (marked_parse : str -> str)
  (toks : list Token) (u : MathToken) :
  (forall t, In (MathTok t) toks ->
     angle_free (math_ident t)
     /\ forall v, In (MathTok v) toks ->
          ~ occurs (mathPlaceholder (math_ident v)) (katexHtml t)) ->
  In (MathTok u) toks ->
  ~ occurs (mathPlaceholder (math_ident u))
      (buildPreviewHtmlFromTokens marked_parse toks).
Proof.
  intros Hclean Hu. unfold buildPreviewHtmlFromTokens. rewrite render_unfold.
  apply substitute_all with (toks := toks); auto using incl_refl.
  intros t Ht. destruct (Hclean t Ht) as [Hid Hk].
  split; [exact Hid|]. split; [apply previewReplacer_wrapped|].
  intros v Hv Hocc. apply (Hk v Hv).
  apply previewReplacer_occurs; [|exact Hocc].
  exact (proj1 (Hclean v Hv)).
Qed.

Lemma preview_leaves_no_placeholder_witness :
  ~ occurs (mathPlaceholder (lit "m-1"))
      (buildPreviewHtmlFromTokens one_paragraph
         [TextToken (lit "t-0") (lit "a "); MathTok plain_token]).
Proof.
  apply (preview_leaves_no_placeholder one_paragraph
           [TextToken (lit "t-0") (lit "a "); MathTok plain_token] plain_token).
  - intros t [H|[H|[]]]; [discriminate H|]. injection H as <-. split.
    + split; intros Hin; simpl in Hin;
        repeat (destruct Hin as [Hin|Hin]; [discriminate Hin|]); exact Hin.
    + intros v [H|[H|[]]]; [discriminate H|]. injection H as <-.
      intros Hocc. apply occursb_spec in Hocc. discriminate Hocc.
  - right. left. reflexivity.
Defined.

Lemma prefix_cut (p : str) : forall u v r,
  u ++ v = p ++ r -> length p <= length u -> exists t, u = p ++ t.
Proof.
  induction p as [|x p IH]; intros u v r H Hlen; [now exists u|].
  destruct u as [|y u]; [simpl in Hlen; lia|].
  simpl in H. injection H as -> H.
  destruct (IH u v r H) as [t ->]; [simpl in Hlen; lia|].
  now exists t.
Qed.

Lemma split_last (ph b : str) :
  ph <> [] -> ph ++ b = removelast ph ++ last ph 0%N :: b.
Proof.
  intros Hph. rewrite (app_removelast_last 0%N Hph) at 1.
  now rewrite <- app_assoc.
Qed.

Lemma removelast_length (ph : str) :
  ph <> [] -> length ph = S (length (removelast ph)).
Proof.
  intros Hph. pose proof (app_removelast_last 0%N Hph) as H.
  apply (f_equal (@length N)) in H. rewrite length_app in H.
  simpl in H. unfold str, char in *. lia.
Qed.

(** The first occurrence of [ph] in [a ++ ph ++ b] is the one written,
    when none starts inside [a]. *)
Lemma find_sub_exact ph b : ph <> [] -> forall a,
  ~ occurs ph (a ++ removelast ph) ->
  find_sub ph (a ++ ph ++ b) = Some (a, b).
Proof.
  intros Hph. induction a as [|c a IH]; intros Hno.
  - cbn [app]. destruct (ph ++ b) as [|d s] eqn:Hs.
    + destruct ph; [congruence | discriminate].
    + cbn [find_sub]. rewrite <- Hs. now rewrite strip_prefix_app.
  - cbn [app find_sub].
    destruct (strip_prefix ph (c :: a ++ ph ++ b)) as [r0|] eqn:Hp.
    + exfalso. apply Hno. apply strip_prefix_sound in Hp.
      rewrite (split_last ph b Hph) in Hp.
      change (c :: a ++ removelast ph ++ last ph 0%N :: b)
        with ((c :: a) ++ removelast ph ++ last ph 0%N :: b) in Hp.
      rewrite (app_assoc (c :: a)) in Hp.
      destruct (prefix_cut ph _ _ _ Hp) as [t Ht].
      * rewrite length_app. cbn [length].
        pose proof (removelast_length ph Hph). lia.
      * exists [], t. exact Ht.
    + rewrite IH; [reflexivity|].
      intros Hocc. apply Hno. cbn [app]. now apply occurs_cons.
Qed.

(** X11. One [out.split(ph).join(repl)] puts the replacement where the
    placeholder stood, when the placeholder is written once: none starts
    inside the text before it and none occurs in the text after it. *)
Theorem placeholder_replaced_in_place (ph r a b : str) :
  ph <> [] -> ~ occurs ph (a ++ removelast ph) -> ~ occurs ph b ->
  join r (split ph (a ++ ph ++ b)) = a ++ r ++ b.
Proof.
  intros Hph Ha Hb.
  assert (Hsplit : split ph (a ++ ph ++ b)
                   = split_loop (S (length (a ++ ph ++ b))) ph (a ++ ph ++ b))
    by (destruct ph; [congruence | reflexivity]).
  rewrite Hsplit. cbn [split_loop]. rewrite (find_sub_exact ph b Hph a Ha).
  assert (Hlen : 0 < length (a ++ ph ++ b)).
  { rewrite !length_app. destruct ph; [congruence | simpl; lia]. }
  destruct (length (a ++ ph ++ b)) as [|n]; [lia|].
  cbn [split_loop]. rewrite (find_sub_absent _ _ Hb). reflexivity.
Qed.

Lemma placeholder_replaced_in_place_witness :
  join (lit "<span>x</span>")
    (split (mathPlaceholder (lit "m-1"))
       (lit "<p>a " ++ mathPlaceholder (lit "m-1") ++ lit " b</p>"))
  = lit "<p>a " ++ lit "<span>x</span>" ++ lit " b</p>".
Proof.
  apply (placeholder_replaced_in_place (mathPlaceholder (lit "m-1"))
           (lit "<span>x</span>") (lit "<p>a ") (lit " b</p>")).
  - discriminate.
  - intros Hocc. apply occursb_spec in Hocc. discriminate Hocc.
  - intros Hocc. apply occursb_spec in Hocc. discriminate Hocc.
Defined.

(* ================================================================== *)
(** * Further properties of the document builder *)
(* ================================================================== *)

Lemma str_eqb_spec a : forall b, str_eqb a b = true <-> a = b.
Proof.
  induction a as [|x a IH]; intros [|y b]; simpl; split;
    try discriminate; try reflexivity.
  - intros H. apply andb_true_iff in H. destruct H as [Hx Ha].
    apply N.eqb_eq in Hx. apply IH in Ha. congruence.
  - intros H. injection H as -> ->. rewrite N.eqb_refl. now apply IH.
Qed.

Lemma str_eqb_refl a : str_eqb a a = true.
Proof. now apply str_eqb_spec. Qed.

Lemma str_eqb_sym a b : str_eqb a b = str_eqb b a.
Proof.
  destruct (str_eqb a b) eqn:H1.
  - apply str_eqb_spec in H1. subst. now rewrite str_eqb_refl.
  - destruct (str_eqb b a) eqn:H2; [|reflexivity].
    apply str_eqb_spec in H2. subst. now rewrite str_eqb_refl in H1.
Qed.

Lemma mathMap_get_set m : forall k v k',
  mathMap_get (mathMap_set m k v) k'
  = if str_eqb k' k then Some v else mathMap_get m k'.
Proof.
  induction m as [|[k0 v0] m IH]; intros k v k'; simpl.
  - reflexivity.
  - destruct (str_eqb k k0) eqn:Hk; simpl.
    + apply str_eqb_spec in Hk. subst k0.
      destruct (str_eqb k' k); reflexivity.
    + destruct (str_eqb k' k0) eqn:Hk'.
      * apply str_eqb_spec in Hk'. subst k0.
        destruct (str_eqb k' k) eqn:H; [|reflexivity].
        apply str_eqb_spec in H. subst. now rewrite str_eqb_refl in Hk.
      * apply IH.
Qed.

Lemma build_mathMap_from toks : forall m acc k,
  mathMap_get m k = acc ->
  mathMap_get
    (fold_left
       (fun m t =>
          match t with
          | MathTok mt => mathMap_set m (math_ident mt) mt
          | TextToken _ _ => m
          end) toks m) k
  = fold_left
      (fun acc t =>
         match t with
         | MathTok mt => if str_eqb k (math_ident mt) then Some mt else acc
         | TextToken _ _ => acc
         end) toks acc.
Proof.
  induction toks as [|t toks IH]; intros m acc k Hm; [exact Hm|].
  cbn [fold_left]. apply IH. destruct t as [id text|mt]; [exact Hm|].
  rewrite mathMap_get_set, Hm. reflexivity.
Qed.

Lemma latest_sound toks k : forall acc u,
  fold_left
    (fun acc t =>
       match t with
       | MathTok mt => if str_eqb k (math_ident mt) then Some mt else acc
       | TextToken _ _ => acc
       end) toks acc = Some u ->
  acc = Some u \/ (In (MathTok u) toks /\ math_ident u = k).
Proof.
  induction toks as [|t toks IH]; intros acc u H; [now left|].
  cbn [fold_left] in H. apply IH in H. destruct H as [H|[Hin Hid]].
  - destruct t as [id text|mt]; [now left|].
    destruct (str_eqb k (math_ident mt)) eqn:Hk; [|now left].
    injection H as <-. right. split; [now left|].
    symmetry. now apply str_eqb_spec.
  - right. split; [now right | exact Hid].
Qed.

Lemma latest_found toks k : forall acc,
  (acc <> None \/ exists t, In (MathTok t) toks /\ math_ident t = k) ->
  fold_left
    (fun acc t =>
       match t with
       | MathTok mt => if str_eqb k (math_ident mt) then Some mt else acc
       | TextToken _ _ => acc
       end) toks acc <> None.
Proof.
  induction toks as [|t toks IH]; intros acc H.
  - destruct H as [H|(t & [] & _)]. exact H.
  - cbn [fold_left]. apply IH. destruct H as [H|(u & [Hu|Hu] & Hid)].
    + left. destruct t as [id text|mt]; [exact H|].
      destruct (str_eqb k (math_ident mt)); [discriminate | exact H].
    + left. subst t. rewrite <- Hid, str_eqb_refl. discriminate.
    + right. now exists u.
Qed.

(** X12. The table of math tokens of [generateDocx]: an id resolves to
    the last math token of the sequence that carries it; so what an id
    resolves to is a math token of the sequence with that id, the id of
    every math token resolves, and a token appended last is the one its id
    resolves to. *)
Theorem mathMap_resolves (toks : list Token) (k : str) :
  mathMap_get (build_mathMap toks) k = latest toks k
  /\ (forall u, mathMap_get (build_mathMap toks) k = Some u ->
        In (MathTok u) toks /\ math_ident u = k)
  /\ (forall t, In (MathTok t) toks ->
        mathMap_get (build_mathMap toks) (math_ident t) <> None)
  /\ (forall t, mathMap_get (build_mathMap (toks ++ [MathTok t])) (math_ident t)
                = Some t).
Proof.
  assert (Heq : forall ts q, mathMap_get (build_mathMap ts) q = latest ts q).
  { intros ts q. unfold build_mathMap, latest.
    now apply build_mathMap_from. }
  split; [apply Heq|]. split; [|split].
  - intros u Hu. rewrite Heq in Hu. unfold latest in Hu.
    apply latest_sound in Hu. destruct Hu as [Hu|Hu]; [discriminate | exact Hu].
  - intros t Ht. rewrite Heq. unfold latest. apply latest_found.
    right. now exists t.
  - intros t. rewrite Heq. unfold latest. rewrite fold_left_app.
    cbn [fold_left]. now rewrite str_eqb_refl.
Qed.

Lemma mathMap_resolves_witness :
  mathMap_get
    (build_mathMap [MathTok echo_token; TextToken (lit "t-1") (lit "a");
                    MathTok plain_token]) (lit "m-1")
  = Some plain_token.
Proof.
  exact (proj2 (proj2 (proj2
           (mathMap_resolves [MathTok echo_token; TextToken (lit "t-1") (lit "a")]
              (lit "m-1")))) plain_token).
Defined.

Lemma flush_text buf b i : concat (map run_text (flush buf b i)) = buf.
Proof. destruct buf; [reflexivity|]. simpl. now rewrite app_nil_r. Qed.

Lemma flush_runs buf b i : Forall is_text_run (flush buf b i).
Proof.
  destruct buf as [|c buf]; constructor; [|constructor].
  exists (c :: buf), b, i. split; [reflexivity | discriminate].
Qed.

Lemma emitStyledRuns_loop_text : forall n t, length t <= n ->
  forall buf b i,
    concat (map run_text (emitStyledRuns_loop t buf b i))
    = buf ++ without_asterisks t
    /\ Forall is_text_run (emitStyledRuns_loop t buf b i).
Proof.
  induction n as [|n IH]; intros t Hn buf b i.
  - destruct t; [|simpl in Hn; lia]. cbn [emitStyledRuns_loop].
    split; [rewrite flush_text; now rewrite app_nil_r | apply flush_runs].
  - destruct t as [|c rest].
    { cbn [emitStyledRuns_loop].
      split; [rewrite flush_text; now rewrite app_nil_r | apply flush_runs]. }
    cbn [emitStyledRuns_loop]. unfold without_asterisks. cbn [filter].
    simpl in Hn.
    destruct (N.eqb_spec c asterisk) as [->|Hc]; cbn [negb].
    + destruct rest as [|c2 rest2].
      * destruct (IH [] ltac:(simpl; lia) [] b (negb i)) as [H1 H2].
        rewrite map_app, concat_app, flush_text, H1.
        split; [reflexivity | apply Forall_app; split; [apply flush_runs | exact H2]].
      * destruct (N.eqb_spec c2 asterisk) as [->|Hc2].
        -- destruct (IH rest2 ltac:(simpl in Hn; lia) [] (negb b) i) as [H1 H2].
           rewrite map_app, concat_app, flush_text, H1. cbn [filter].
           rewrite N.eqb_refl. cbn [negb].
           split; [reflexivity | apply Forall_app; split; [apply flush_runs | exact H2]].
        -- destruct (IH (c2 :: rest2) ltac:(lia) [] b (negb i)) as [H1 H2].
           rewrite map_app, concat_app, flush_text, H1.
           split; [reflexivity | apply Forall_app; split; [apply flush_runs | exact H2]].
    + destruct (IH rest ltac:(lia) (buf ++ [c]) b i) as [H1 H2].
      rewrite H1. split; [now rewrite <- app_assoc | exact H2].
Qed.

(** X13. [emitStyledRuns] loses the asterisks and nothing else: the texts
    of its runs, in order, are the text without its asterisks, and no run
    is empty. *)
Theorem emitStyledRuns_keeps_text (t : str) (st : Style) :
  concat (map run_text (emitStyledRuns t st)) = without_asterisks t
  /\ Forall is_text_run (emitStyledRuns t st).
Proof.
  unfold emitStyledRuns.
  exact (emitStyledRuns_loop_text (length t) t (le_n _) [] (bold st) (italics st)).
Qed.

Lemma placeholder_exec_absent s :
  ~ occurs MATHPH s -> placeholder_exec s = None.
Proof.
  induction s as [|c s IH]; intros Hno; [reflexivity|].
  cbn [placeholder_exec].
  assert (Hm : match_placeholder (c :: s) = None).
  { unfold match_placeholder.
    destruct (strip_prefix (lit "MATHPH") (c :: s)) as [r|] eqn:Hp;
      [|reflexivity].
    exfalso. apply Hno. apply strip_prefix_sound in Hp. now exists [], r. }
  rewrite Hm, IH; [reflexivity | eapply occurs_tail; eauto].
Qed.

Lemma splitInlineByMath_plain mm s :
  s <> [] -> ~ occurs MATHPH s -> splitInlineByMath mm s = [PString s].
Proof.
  intros Hne Hno. rewrite splitInlineByMath_unfold.
  rewrite (placeholder_exec_absent _ Hno). destruct s; [congruence | reflexivity].
Qed.

(** X14. A paragraph of pure text gives one paragraph with one unstyled
    run that holds the text: when [marked] lexes the combined string as one
    paragraph around one text node, the inline lexer finds no markup in the
    text, and the text is not empty and holds no asterisk and no
    [MATHPH]. *)
Theorem pure_text_paragraph (M : Marked) (toks : list Token) (raw t : str)
  (fuel : nat) :
  lexer M (docx_combined toks)
  = [mkTok ty_paragraph raw (Some [text_node t]) [] false 0] ->
  inlineTokensFromText M t = [text_node t] ->
  t <> [] -> ~ In asterisk t -> ~ occurs MATHPH t -> 1 <= fuel ->
  generateDocx M fuel toks
  = Some [mkPara [TextRun t false false] None None false].
Proof.
  intros Hlex Hinline Hne Hast Hph Hfuel.
  destruct fuel as [|fuel]; [lia|].
  unfold generateDocx. rewrite Hlex. cbn [collect]. unfold block_paragraphs.
  cbn [type tokens block_inline].
  rewrite (runs_of_plain_text _ _ _ _ _ _ Hinline).
  rewrite (splitInlineByMath_plain _ _ Hne Hph).
  cbn [flat_map part_runs]. destruct t as [|c t]; [congruence|].
  rewrite (emitStyledRuns_plain (c :: t)) by assumption. reflexivity.
Qed.

Lemma pure_text_paragraph_witness :
  generateDocx
    (one_block_marked
       [mkTok ty_paragraph (lit "plain words") (Some [text_node (lit "plain words")])
          [] false 0])
    1 [TextToken (lit "t-0") (lit "plain words")]
  = Some [mkPara [TextRun (lit "plain words") false false] None None false].
Proof.
  apply (pure_text_paragraph _ [TextToken (lit "t-0") (lit "plain words")]
           (lit "plain words") (lit "plain words") 1).
  - reflexivity.
  - reflexivity.
  - discriminate.
  - intros Hin. simpl in Hin.
    repeat (destruct Hin as [Hin|Hin]; [discriminate Hin|]). exact Hin.
  - intros Hocc. apply occursb_spec in Hocc. discriminate Hocc.
  - apply le_n.
Defined.

Lemma in_occurs (c : char) s : In c s -> occurs [c] s.
Proof.
  intros Hin. apply in_split in Hin. destruct Hin as (a & b & ->).
  now exists a, b.
Qed.

(** X15. A code block gives one paragraph per line of its text, each
    with the line as its single plain run: the lines hold no newline and,
    joined by newlines, are the text of the block, so nothing inside a code
    block is substituted or styled. *)
Theorem code_block_lines (M : Marked) (mm : MathMap) (fuel : nat)
  (tk : MdToken) :
  type tk = ty_code ->
  exists lines,
    block_paragraphs M mm fuel tk
    = Some (map (fun line => mkPara [PlainRun line] None None false) lines)
    /\ join [newline] lines = text tk
    /\ Forall (fun line => ~ In newline line) lines.
Proof.
  intros Hty. exists (split [newline] (text tk)).
  unfold block_paragraphs. rewrite Hty. split; [reflexivity|]. split.
  - apply split_loop_join; [discriminate | lia].
  - unfold split.
    pose proof (split_loop_pieces [newline] ltac:(discriminate)
                  (S (length (text tk))) (text tk) ltac:(lia)) as Hp.
    eapply Forall_impl; [|exact Hp].
    intros line [_ Hno] Hin. apply Hno. now apply in_occurs.
Qed.

Lemma code_block_lines_witness :
  exists lines,
    block_paragraphs (one_block_marked []) [] 0
      (mkTok ty_code (lit "a **b**" ++ [newline] ++ lit "$c$") None [] false 0)
    = Some (map (fun line => mkPara [PlainRun line] None None false) lines)
    /\ join [newline] lines = lit "a **b**" ++ [newline] ++ lit "$c$"
    /\ Forall (fun line => ~ In newline line) lines.
Proof.
  exact (code_block_lines (one_block_marked []) [] 0
           (mkTok ty_code (lit "a **b**" ++ [newline] ++ lit "$c$") None [] false 0)
           eq_refl).
Defined.

Lemma structural_tag_absent s :
  ~ occurs (lit "<m:") s -> structural_tag_test s = false.
Proof.
  induction s as [|c s IH]; intros Hno; [reflexivity|].
  cbn [structural_tag_test]. rewrite IH by (eapply occurs_tail; eauto).
  unfold structural_tag_here.
  destruct (strip_prefix (lit "<m:") (c :: s)) as [r|] eqn:Hp; [|reflexivity].
  exfalso. apply Hno. apply strip_prefix_sound in Hp. now exists [], r.
Qed.

Lemma mt_exec_absent s : ~ occurs (lit "<m:") s -> mt_exec s = None.
Proof.
  induction s as [|c s IH]; intros Hno; [reflexivity|].
  cbn [mt_exec]. rewrite IH by (eapply occurs_tail; eauto).
  unfold match_mt.
  destruct (strip_prefix (lit "<m:t") (c :: s)) as [r|] eqn:Hp; [|reflexivity].
  exfalso. apply Hno. apply strip_prefix_sound in Hp.
  exists [], (lit "t" ++ r). exact Hp.
Qed.

(** X16. A formula whose OMML fragment holds no [<m:] tag at all (an
    empty fragment, for one) leaves no run: the builder takes the fragment
    for plain text, finds no text in it and emits nothing. *)
Theorem formula_without_tags_vanishes (st : Style) (mt : MathToken) :
  ~ occurs (lit "<m:") (omml mt) -> part_runs st (PMath mt) = [].
Proof.
  intros Hno. cbn [part_runs]. unfold isOmmlPlain.
  rewrite (structural_tag_absent _ Hno). cbn [negb].
  unfold extractTextFromOmml. cbn [extractText_loop].
  now rewrite (mt_exec_absent _ Hno).
Qed.

Lemma formula_without_tags_vanishes_witness :
  part_runs no_style
    (PMath (mkMath (lit "m-0") (lit "x") false (lit "<i>x</i>") [] [])) = [].
Proof.
  apply (formula_without_tags_vanishes no_style
           (mkMath (lit "m-0") (lit "x") false (lit "<i>x</i>") [] [])).
  intros Hocc. apply occursb_spec in Hocc. discriminate Hocc.
Defined.

(** X17. In a plain-text span, the placeholder of a token of the table is
    replaced by that token, in place: the parts are the text before it (if
    any), the token, and the parts of the text after it. *)
Theorem known_placeholder_resolved (mm : MathMap) (pre id post : str)
  (mt : MathToken) :
  ~ occurs MATHPH pre -> id <> [] -> id_content id -> ~ occurs PHMATH id ->
  mathMap_get mm id = Some mt ->
  splitInlineByMath mm (pre ++ mathPlaceholder id ++ post)
  = match pre with [] => [] | _ :: _ => [PString pre] end
      ++ PMath mt :: splitInlineByMath mm post.
Proof.
  intros Hpre Hne Hid Hno Hget. rewrite splitInlineByMath_unfold.
  rewrite placeholder_exec_exact by assumption. rewrite Hget. reflexivity.
Qed.

Lemma known_placeholder_resolved_witness :
  splitInlineByMath (build_mathMap [MathTok plain_token])
    (lit "x=" ++ mathPlaceholder (lit "m-1") ++ lit " y")
  = [PString (lit "x="); PMath plain_token; PString (lit " y")].
Proof.
  apply (known_placeholder_resolved (build_mathMap [MathTok plain_token])
           (lit "x=") (lit "m-1") (lit " y") plain_token).
  - intros Hocc. apply occursb_spec in Hocc. discriminate Hocc.
  - discriminate.
  - repeat constructor.
  - intros Hocc. apply occursb_spec in Hocc. discriminate Hocc.
  - reflexivity.
Defined.

Lemma digits_units u : forallb id_unit (digits u) = true.
Proof. induction u; simpl; auto. Qed.

Lemma math_id_units k : forallb id_unit (math_id k) = true.
Proof. unfold math_id, decimal. simpl. apply digits_units. Qed.

Lemma text_id_units k : forallb id_unit (text_id k) = true.
Proof. unfold text_id, decimal. simpl. apply digits_units. Qed.

Lemma units_no_PHMATH id : forallb id_unit id = true -> ~ occurs PHMATH id.
Proof.
  intros H (a & b & ->). rewrite forallb_forall in H.
  assert (Hin : In 80%N (a ++ PHMATH ++ b)).
  { apply in_or_app. right. left. reflexivity. }
  apply H in Hin. discriminate Hin.
Qed.

Lemma units_id_content id : forallb id_unit id = true -> id_content id.
Proof.
  intros H. rewrite forallb_forall in H. apply Forall_forall.
  intros c Hc. apply H in Hc. unfold id_unit in Hc. unfold is_line_terminator.
  destruct (N.eqb_spec c 10); [subst; discriminate Hc|].
  destruct (N.eqb_spec c 13); [subst; discriminate Hc|].
  destruct (N.eqb_spec c 8232); [subst; discriminate Hc|].
  destruct (N.eqb_spec c 8233); [subst; discriminate Hc|].
  reflexivity.
Qed.

Lemma units_angle_free id : forallb id_unit id = true -> angle_free id.
Proof.
  intros H. rewrite forallb_forall in H.
  split; intros Hin; apply H in Hin; discriminate Hin.
Qed.

(** X18. The placeholder scheme round-trips on the ids of the segmenter:
    the pattern of the document builder, run on the placeholder of the id
    [m-k], captures exactly [m-k] and stops right after the placeholder,
    whatever follows. *)
Theorem placeholder_roundtrip (k : nat) (post : str) :
  match_placeholder (mathPlaceholder (math_id k) ++ post)
  = Some (math_id k, post).
Proof.
  apply match_placeholder_exact.
  - discriminate.
  - apply units_id_content, math_id_units.
  - apply units_no_PHMATH, math_id_units.
Qed.

Lemma convertRaw_id R t : token_id (convertRaw R t) = raw_id t.
Proof. destruct t; reflexivity. Qed.

Lemma tokenize_nodup s : NoDup (map raw_id (tokenize s)).
Proof.
  apply NoDup_nth_error. intros i j Hi Heq.
  rewrite !nth_error_map in Heq. rewrite length_map in Hi.
  destruct (nth_error (tokenize s) i) as [a|] eqn:Ha.
  - destruct (nth_error (tokenize s) j) as [b|] eqn:Hb; [|discriminate].
    injection Heq as Heq.
    exact (counters_distinct i j a b
             (tokenize_loop_counters _ 0 s i a Ha)
             (tokenize_loop_counters _ 0 s j b Hb) Heq).
  - apply nth_error_None in Ha. lia.
Qed.

(** X19. The tokens of one conversion run have pairwise distinct ids,
    made of [t], [m], [-] and digits only: no id holds an angle bracket, a
    line terminator or the closing [PHMATH] of the placeholder scheme. *)
Theorem converted_ids_unique (R : Renderers) (s : str) :
  NoDup (map token_id (tokenizeAndConvert R s))
  /\ Forall (fun t => forallb id_unit (token_id t) = true
                      /\ angle_free (token_id t)
                      /\ id_content (token_id t)
                      /\ ~ occurs PHMATH (token_id t))
       (tokenizeAndConvert R s).
Proof.
  unfold tokenizeAndConvert. split.
  - rewrite map_map.
    rewrite (map_ext _ raw_id (convertRaw_id R)). apply tokenize_nodup.
  - apply Forall_forall. intros t Hin. apply in_map_iff in Hin.
    destruct Hin as (raw & <- & Hin). rewrite convertRaw_id.
    assert (Hu : forallb id_unit (raw_id raw) = true).
    { apply In_nth_error in Hin. destruct Hin as [k Hk].
      pose proof (tokenize_loop_counters _ 0 _ k raw Hk) as Hc.
      destruct raw; simpl in Hc |- *; subst;
        [apply text_id_units | apply math_id_units]. }
    auto using units_angle_free, units_id_content, units_no_PHMATH.
Qed.

(** X20. Every math token of a conversion run carries markup derived from
    its own source and display mode, the Office markup from its MathML; its
    source is not empty and holds no accent macro that the normaliser would
    still rewrite. *)
Theorem converted_math_consistent (R : Renderers) (s : str) (m : MathToken) :
  In (MathTok m) (tokenizeAndConvert R s) ->
  katexHtml m = katex_renderToString R (latex m) (displayMode m)
  /\ mathml m = temml_renderToString R (latex m) (displayMode m)
  /\ omml m = mml2omml R (mathml m)
  /\ latex m <> []
  /\ normalizeAccentsToUnicode (latex m) = latex m.
Proof.
  unfold tokenizeAndConvert. intros Hin. apply in_map_iff in Hin.
  destruct Hin as (raw & Hconv & Hin).
  destruct raw as [id text|id l dm]; [discriminate Hconv|].
  cbn in Hconv. injection Hconv as <-. cbn.
  repeat split.
  - apply normalize_nonempty.
    pose proof (tokenize_loop_wellformed
                  (S (length (normalizeAccentsToUnicode s))) 0
                  (normalizeAccentsToUnicode s)) as Hall.
    rewrite Forall_forall in Hall. specialize (Hall _ Hin).
    destruct dm; simpl in Hall; tauto.
  - apply normal_fixed, normalize_normal.
Qed.

Lemma converted_math_consistent_witness :
  let m := mkMath (lit "m-1") [226%N] false [226%N]
             (lit "<math><mn>" ++ [226%N] ++ lit "</mn></math>")
             (lit "<m:oMath><m:r><m:t>1</m:t></m:r></m:oMath>") in
  katexHtml m = katex_renderToString formula_renderers (latex m) (displayMode m)
  /\ mathml m = temml_renderToString formula_renderers (latex m) (displayMode m)
  /\ omml m = mml2omml formula_renderers (mathml m)
  /\ latex m <> []
  /\ normalizeAccentsToUnicode (latex m) = latex m.
Proof.
  apply (converted_math_consistent formula_renderers (lit "a $\hat{a}$")).
  right. left. reflexivity.
Defined.

(* ================================================================== *)
(** * The woven HTML *)
(* ================================================================== *)

Lemma split_loop_fuel sep : sep <> [] -> forall f1 f2 s,
  length s < f1 -> length s < f2 ->
  split_loop f1 sep s = split_loop f2 sep s.
Proof.
  intros Hsep. induction f1 as [|f1 IH]; intros f2 s H1 H2; [lia|].
  destruct f2 as [|f2]; [lia|]. cbn [split_loop].
  destruct (find_sub sep s) as [[a rest]|] eqn:Hfind; [|reflexivity].
  pose proof (find_sub_length _ _ _ _ Hsep Hfind).
  rewrite (IH f2) by lia. reflexivity.
Qed.

(** One [split] and [join], written along the first occurrence. *)
Lemma split_join_unfold ph r s :
  ph <> [] ->
  split_join ph r s
  = match find_sub ph s with
    | Some (x, rest) => x ++ r ++ split_join ph r rest
    | None => s
    end.
Proof.
  intros Hph. unfold split_join.
  assert (Hsplit : forall t, split ph t = split_loop (S (length t)) ph t)
    by (intros t; destruct ph; [congruence | reflexivity]).
  rewrite !Hsplit. cbn [split_loop].
  destruct (find_sub ph s) as [[x rest]|] eqn:Hfind; [|reflexivity].
  rewrite join_cons by apply split_loop_nonempty.
  pose proof (find_sub_length _ _ _ _ Hph Hfind).
  rewrite Hsplit.
  rewrite (split_loop_fuel ph Hph (length s) (S (length rest))) by lia.
  reflexivity.
Qed.

(** No occurrence starts before the first one, not even one that runs
    into it. *)
Lemma find_sub_first_overlap ph s : ph <> [] -> forall x rest,
  find_sub ph s = Some (x, rest) -> ~ occurs ph (x ++ removelast ph).
Proof.
  intros Hph. induction s as [|c s IH]; intros x rest H.
  - simpl in H. destruct ph; [congruence | discriminate].
  - cbn [find_sub] in H.
    destruct (strip_prefix ph (c :: s)) as [r|] eqn:Hp.
    + injection H as <- <-. cbn [app]. intros Hocc.
      apply occurs_length in Hocc.
      pose proof (removelast_length ph Hph). unfold str, char in *. lia.
    + destruct (find_sub ph s) as [[x' r']|] eqn:Hf; [|discriminate].
      injection H as <- <-. intros Hocc. cbn [app] in Hocc.
      apply occurs_head_inv in Hocc. destruct Hocc as [[r0 Hr0]|Hocc].
      * apply find_sub_sound in Hf.
        assert (Hpre : strip_prefix ph (c :: s)
                       = Some (r0 ++ last ph 0%N :: r')).
        { rewrite Hf, (split_last ph r' Hph).
          change (c :: x' ++ removelast ph ++ last ph 0%N :: r')
            with ((c :: x') ++ removelast ph ++ last ph 0%N :: r').
          rewrite app_assoc.
          change ((c :: x') ++ removelast ph) with (c :: x' ++ removelast ph).
          rewrite Hr0, <- app_assoc. apply strip_prefix_app. }
        congruence.
      * exact (IH _ _ eq_refl Hocc).
Qed.

(** The first occurrence stays the first when text is added behind. *)
Lemma find_sub_app ph a x a' y :
  ph <> [] -> find_sub ph a = Some (x, a') ->
  find_sub ph (a ++ y) = Some (x, a' ++ y).
Proof.
  intros Hph H.
  pose proof (find_sub_first_overlap ph a Hph _ _ H) as Hfirst.
  apply find_sub_sound in H. subst a.
  rewrite <- !app_assoc. now apply find_sub_exact.
Qed.

(** A word without angle brackets that occurs around a tag occurs before
    it, inside it or behind it. *)
Lemma occurs_around_tag w a mid b :
  angle_free w ->
  occurs w (a ++ ([lt_sign] ++ mid ++ [gt_sign]) ++ b) ->
  occurs w a \/ occurs w mid \/ occurs w b.
Proof.
  intros [Hlt Hgt] Hocc. rewrite <- !app_assoc in Hocc. cbn [app] in Hocc.
  apply occurs_across_delim in Hocc; [|exact Hlt].
  destruct Hocc as [Ha|Hocc]; [now left|]. right.
  apply occurs_across_delim in Hocc; [|exact Hgt]. exact Hocc.
Qed.

(** Behind a text without the placeholder and a tag without it, the first
    occurrence is the first one of what follows. *)
Lemma find_sub_behind_tag ph a mid b :
  ph <> [] -> angle_free ph -> ~ occurs ph mid -> find_sub ph a = None ->
  find_sub ph (a ++ ([lt_sign] ++ mid ++ [gt_sign]) ++ b)
  = match find_sub ph b with
    | Some (y, b') => Some (a ++ ([lt_sign] ++ mid ++ [gt_sign]) ++ y, b')
    | None => None
    end.
Proof.
  intros Hph Hfree Hmid Ha. apply find_sub_none in Ha.
  destruct (find_sub ph b) as [[y b']|] eqn:Hb.
  - pose proof (find_sub_first_overlap ph b Hph _ _ Hb) as Hy.
    apply find_sub_sound in Hb. subst b.
    replace (a ++ ([lt_sign] ++ mid ++ [gt_sign]) ++ y ++ ph ++ b')
      with ((a ++ ([lt_sign] ++ mid ++ [gt_sign]) ++ y) ++ ph ++ b')
      by (now rewrite <- !app_assoc).
    apply find_sub_exact; [exact Hph|].
    replace ((a ++ ([lt_sign] ++ mid ++ [gt_sign]) ++ y) ++ removelast ph)
      with (a ++ ([lt_sign] ++ mid ++ [gt_sign]) ++ (y ++ removelast ph))
      by (now rewrite <- !app_assoc).
    intros Hocc. apply occurs_around_tag in Hocc; tauto.
  - apply find_sub_absent. apply find_sub_none in Hb.
    intros Hocc. apply occurs_around_tag in Hocc; tauto.
Qed.

(** [split] and [join] do not reach across a replacement put in before:
    the text before it and the text behind it are treated apart. *)
Lemma split_join_around_tag ph r tag mid b :
  ph <> [] -> angle_free ph -> wrapped tag mid -> ~ occurs ph mid ->
  forall n a, length a <= n ->
  split_join ph r (a ++ tag ++ b)
  = split_join ph r a ++ tag ++ split_join ph r b.
Proof.
  intros Hph Hfree -> Hmid.
  assert (Hnone : forall a, find_sub ph a = None ->
            split_join ph r (a ++ ([lt_sign] ++ mid ++ [gt_sign]) ++ b)
            = split_join ph r a
                ++ ([lt_sign] ++ mid ++ [gt_sign]) ++ split_join ph r b).
  { intros a Ha.
    rewrite (split_join_unfold ph r a Hph), Ha.
    rewrite (split_join_unfold ph r (a ++ _) Hph).
    rewrite (find_sub_behind_tag ph a mid b Hph Hfree Hmid Ha).
    rewrite (split_join_unfold ph r b Hph).
    destruct (find_sub ph b) as [[y b']|]; [|reflexivity].
    now rewrite <- !app_assoc. }
  induction n as [|n IH]; intros a Hn.
  all: destruct (find_sub ph a) as [[x a']|] eqn:Hfind; [|now apply Hnone].
  - apply (find_sub_length _ _ _ _ Hph) in Hfind. lia.
  - rewrite (split_join_unfold ph r a Hph), Hfind.
    rewrite (split_join_unfold ph r (a ++ _) Hph).
    rewrite (find_sub_app _ _ _ _ _ Hph Hfind).
    pose proof (find_sub_length _ _ _ _ Hph Hfind).
    rewrite IH by lia. now rewrite <- !app_assoc.
Qed.

Lemma placeholder_free_cons m done t :
  ~ occurs (mathPlaceholder (math_ident m)) t ->
  placeholder_free done t -> placeholder_free (MathTok m :: done) t.
Proof.
  intros Hm Hdone v [Hv|Hv]; [injection Hv as <-; exact Hm | now apply Hdone].
Qed.

Lemma placeholder_free_part done p t :
  occurs p t -> placeholder_free done t -> placeholder_free done p.
Proof. intros Hp Ht v Hv Hocc. apply (Ht v Hv). eapply occurs_trans; eauto. Qed.

Section Woven.
Variable replacer : MathToken -> str.
Variable toks : list Token.
Hypothesis sealed : replacer_sealed replacer toks.

(** A text free of the placeholders seen so far, after the turn of the
  token [m]. *)
Lemma woven_refine_text done m :
In (MathTok m) toks ->
forall n t, length t <= n -> placeholder_free done t ->
woven replacer toks (MathTok m :: done) t
  (split_join (mathPlaceholder (math_ident m)) (replacer m) t).
Proof.
  intros Hm. pose proof (mathPlaceholder_nonempty (math_ident m)) as Hph.
  induction n as [|n IH]; intros t Hn Hfree.
  all: rewrite (split_join_unfold _ _ _ Hph).
  all: destruct (find_sub (mathPlaceholder (math_ident m)) t)
         as [[x rest]|] eqn:Hfind.
  all: try (apply woven_text; apply placeholder_free_cons;
            [now apply find_sub_none | exact Hfree]).
  - apply (find_sub_length _ _ _ _ Hph) in Hfind. lia.
  - pose proof (find_sub_length _ _ _ _ Hph Hfind) as Hlen.
    pose proof (find_sub_first _ _ _ _ Hfind Hph) as Hx.
    apply find_sub_sound in Hfind. subst t.
    apply woven_math; [|exact Hm|].
    + apply placeholder_free_cons; [exact Hx|].
      apply (placeholder_free_part _ _ _ (occurs_app_l _ _ _
               (ex_intro _ [] (ex_intro _ [] (eq_sym (app_nil_r x)))))
               Hfree).
    + apply IH; [lia|].
      refine (placeholder_free_part _ _ _ _ Hfree).
      apply occurs_app_r, occurs_app_r. exists [], []. now rewrite app_nil_r.
Qed.

Lemma woven_append done a a' u rest out :
woven replacer toks done a a' -> In (MathTok u) toks ->
woven replacer toks done rest out ->
woven replacer toks done
  (a ++ mathPlaceholder (math_ident u) ++ rest) (a' ++ replacer u ++ out).
Proof.
  intros Ha Hu Hrest. induction Ha as [t Ht|t v r o Ht Hv _ IH].
  - now apply woven_math.
  - rewrite <- !app_assoc. apply woven_math; [exact Ht | exact Hv|].
    exact IH.
Qed.

(** One turn of the [forEach]: the occurrences of the placeholder of [m]
  in the texts are replaced; the replacements put in before stay. *)
Lemma woven_step done m html out :
In (MathTok m) toks ->
woven replacer toks done html out ->
woven replacer toks (MathTok m :: done) html
  (split_join (mathPlaceholder (math_ident m)) (replacer m) out).
Proof.
  intros Hm H. induction H as [t Ht|t u rest out Ht Hu _ IH].
  - now apply (woven_refine_text done m Hm (length t)).
  - destruct (sealed u Hu) as (_ & [mid Hmid] & Hfree).
    destruct (sealed m Hm) as (Hid & _ & _).
    rewrite (split_join_around_tag _ _ _ mid _
               (mathPlaceholder_nonempty _)
               (mathPlaceholder_angle_free _ Hid) Hmid) with (n := length t).
    + apply woven_append; [|exact Hu | exact IH].
      now apply (woven_refine_text done m Hm (length t)).
    + intros Hocc. apply (Hfree m Hm). rewrite Hmid.
      now apply occurs_app_r, occurs_app_l.
    + lia.
Qed.

Lemma woven_weaker done done' html out :
(forall v, In (MathTok v) done' -> In (MathTok v) done) ->
woven replacer toks done html out -> woven replacer toks done' html out.
Proof.
  intros Hincl H. induction H as [t Ht|t u rest out Ht Hu _ IH].
  - apply woven_text. intros v Hv. apply Ht. now apply Hincl.
  - apply woven_math; [|exact Hu | exact IH].
    intros v Hv. apply Ht. now apply Hincl.
Qed.

Lemma woven_fold : forall todo done html out,
incl todo toks ->
woven replacer toks done html out ->
woven replacer toks (rev todo ++ done) html
  (fold_left (substitute replacer) todo out).
Proof.
  induction todo as [|t todo IH]; intros done html out Hincl H; [exact H|].
  cbn [fold_left rev]. rewrite <- app_assoc. cbn [app].
  apply IH; [eapply incl_cons_inv; eauto|].
  assert (Ht : In t toks) by (apply Hincl; now left).
  destruct t as [id text|m]; cbn [substitute].
  - revert H. apply woven_weaker. intros v [Hv|Hv]; [discriminate | exact Hv].
  - now apply woven_step.
Qed.

(** C5 (as the code has it). When the ids hold no angle bracket and every
  replacement is wrapped in a tag and holds no placeholder of the token
  sequence: the HTML the weaver returns is the HTML of [marked] in which
  the occurrences of the placeholders are replaced by the replacer's
  output for a math token of that id, the text between them kept as it is
  and free of every placeholder of the sequence; and it contains no
  occurrence of the placeholder of any math token of the sequence. *)
Theorem weaver_replaces_every_placeholder (marked_parse : str -> str) :
woven replacer toks toks (marked_parse (weaver_combined toks))
  (renderMarkdownWithPlaceholders marked_parse toks replacer)
/\ placeholder_free toks
     (renderMarkdownWithPlaceholders marked_parse toks replacer).
Proof.
  split.
  - rewrite render_unfold.
    apply (woven_weaker (rev toks ++ [])).
    + intros v Hv. rewrite app_nil_r. now apply in_rev in Hv.
    + apply woven_fold; [apply incl_refl|].
      apply woven_text. intros v [].
  - intros u Hu. rewrite render_unfold.
    apply substitute_all with (toks := toks); auto using incl_refl.
Qed.

End Woven.

Lemma weaver_replaces_every_placeholder_witness :
  woven previewReplacer
    [TextToken (lit "t-0") (lit "a "); MathTok plain_token]
    [TextToken (lit "t-0") (lit "a "); MathTok plain_token]
    (lit "<p>a MATHPHm-1PHMATH</p>" ++ [newline])
    (renderMarkdownWithPlaceholders one_paragraph
       [TextToken (lit "t-0") (lit "a "); MathTok plain_token]
       previewReplacer)
  /\ placeholder_free
       [TextToken (lit "t-0") (lit "a "); MathTok plain_token]
       (renderMarkdownWithPlaceholders one_paragraph
          [TextToken (lit "t-0") (lit "a "); MathTok plain_token]
          previewReplacer).
Proof.
  refine (weaver_replaces_every_placeholder previewReplacer
            [TextToken (lit "t-0") (lit "a "); MathTok plain_token] _
            one_paragraph).
  intros t [H|[H|[]]]; [discriminate H|]. injection H as <-.
  split; [|split].
  - split; intros Hin; simpl in Hin;
      repeat (destruct Hin as [Hin|Hin]; [discriminate Hin|]); exact Hin.
  - exists (lit "span><i>x</i></span"). reflexivity.
  - intros u [H|[H|[]]]; [discriminate H|]. injection H as <-.
    intros Hocc. apply occursb_spec in Hocc. discriminate Hocc.
Defined.
